(** * A shallow embedding of the Differential Evolution notebook

    The development follows [DiffEvo.ipynb]: the class
    [DifferentialEvolution] with its methods [__init__],
    [population_generator], [least_error_idx], [diff_evolution_solver]
    and the property [result].

    - NumPy [float64] values are Rocq's primitive binary64 floats, so
      every arithmetic operation and comparison is the IEEE 754 one.
    - One-dimensional arrays are lists of floats, the population (a
      two-dimensional array) is the list of its rows.
    - Python exceptions are values of [exn]; a computation that may raise
      returns a [Result].
    - The global NumPy generator ([np.random]) is an explicit state of a
      type [G] that implements the interface [RandomState]; the module
      namespace of the notebook (the names [kmut] and [bounds] that the
      solver reads as globals) is the record [Globals]. *)

From Stdlib Require Import String ZArith List Bool Arith Lia Floats Uint63.
From Stdlib Require Import Sorting.Sorted Relations.Relation_Definitions.
Import ListNotations.
Local Open Scope string_scope.
Local Open Scope list_scope.
Local Open Scope nat_scope.

Set Implicit Arguments.
Set Warnings "-inexact-float".

(** ** Exceptions and the error monad *)

Inductive exn : Type :=
| NameError (name : string)
| ValueError (why : string)
| IndexError (why : string).

Inductive Result (A : Type) : Type :=
| Ok (a : A)
| Raise (e : exn).

Arguments Ok {A} a.
Arguments Raise {A} e.

Definition bind {A B : Type} (c : Result A) (k : A -> Result B) : Result B :=
  match c with
  | Ok a => k a
  | Raise e => Raise e
  end.

Notation "x <- c ;; k" := (bind c (fun x => k))
  (at level 61, c at next level, right associativity).
Notation "' pat <- c ;; k" := (bind c (fun x => match x with pat => k end))
  (at level 61, pat pattern, c at next level, right associativity).

Definition is_ok {A : Type} (r : Result A) : bool :=
  match r with Ok _ => true | Raise _ => false end.

(** ** Arrays *)

Definition ndarray1 : Type := list float.
(** A two-dimensional array, as the list of its rows. *)
Definition ndarray2 : Type := list ndarray1.

(** [np.arange(n)] *)
Definition np_arange (n : Z) : list nat := seq 0 (Z.to_nat n).

(** The shape of the broadcast of two one-dimensional operands. *)
Definition broadcast_shape (m n : nat) : Result nat :=
  if m =? n then Ok m
  else if m =? 1 then Ok n
  else if n =? 1 then Ok m
  else Raise (ValueError "operands could not be broadcast together").

(** Element [k] of an operand seen at its broadcast shape. *)
Definition bget {A : Type} (d : A) (x : list A) (k : nat) : A :=
  nth (if length x =? 1 then 0 else k) x d.

Definition np_binop (op : float -> float -> float) (x y : ndarray1)
  : Result ndarray1 :=
  n <- broadcast_shape (length x) (length y) ;;
  Ok (map (fun k => op (bget 0%float x k) (bget 0%float y k)) (seq 0 n)).

Definition np_add := np_binop PrimFloat.add.
Definition np_sub := np_binop PrimFloat.sub.

(** A Python float times an array. *)
Definition np_scale (c : float) (x : ndarray1) : ndarray1 :=
  map (fun v => (c * v)%float) x.

(** [np.where(cond, x, y)] on one-dimensional operands. *)
Definition np_where (cond : list bool) (x y : ndarray1) : Result ndarray1 :=
  n1 <- broadcast_shape (length cond) (length x) ;;
  n <- broadcast_shape n1 (length y) ;;
  Ok (map (fun k => if bget false cond k then bget 0%float x k
                    else bget 0%float y k) (seq 0 n)).

(** [a[i]] on the first axis. *)
Definition getrow {A : Type} (a : list A) (i : nat) : Result A :=
  match nth_error a i with
  | Some r => Ok r
  | None => Raise (IndexError "index out of bounds for axis 0")
  end.

(** [a[:, j]] for a two-dimensional array given by its rows. *)
Fixpoint column (a : ndarray2) (j : nat) : Result ndarray1 :=
  match a with
  | [] => Ok []
  | r :: a' =>
      match nth_error r j with
      | Some v => c <- column a' j ;; Ok (v :: c)
      | None => Raise (IndexError "index out of bounds for axis 1")
      end
  end.

(** The floating-point reductions of NumPy propagate NaN:
    [scalar_min(a, b) = (a <= b || isnan(a)) ? a : b] and likewise for
    the maximum. *)
Definition scalar_min (a b : float) : float :=
  if (a <=? b)%float || is_nan a then a else b.
Definition scalar_max (a b : float) : float :=
  if (b <=? a)%float || is_nan a then a else b.

Definition np_min (x : ndarray1) : Result float :=
  match x with
  | [] => Raise (ValueError "zero-size array to reduction operation minimum")
  | v :: x' => Ok (fold_left scalar_min x' v)
  end.

Definition np_max (x : ndarray1) : Result float :=
  match x with
  | [] => Raise (ValueError "zero-size array to reduction operation maximum")
  | v :: x' => Ok (fold_left scalar_max x' v)
  end.

(** [np.argmin]: the first NaN if there is one, otherwise the first
    occurrence of the minimum.  The loop is NumPy's:
    [if (!(x >= mp)) { mp = x; min_ind = i; if (isnan(mp)) break; }]. *)
Fixpoint argmin_from (mp : float) (mi i : nat) (xs : list float) : nat :=
  match xs with
  | [] => mi
  | x :: xs' =>
      if negb (mp <=? x)%float
      then if is_nan x then i else argmin_from x i (S i) xs'
      else argmin_from mp mi (S i) xs'
  end.

Definition np_argmin (xs : list float) : Result nat :=
  match xs with
  | [] => Raise (ValueError "attempt to get argmin of an empty sequence")
  | x :: xs' => Ok (if is_nan x then 0 else argmin_from x 0 1 xs')
  end.

(** [a[i] = v] for a row [v], with NumPy's assignment broadcasting: the
    row must have the length of [a[i]] or length one. *)
Fixpoint replace_nth {A : Type} (i : nat) (v : A) (l : list A) : list A :=
  match l, i with
  | [], _ => []
  | _ :: l', 0 => v :: l'
  | x :: l', S i' => x :: replace_nth i' v l'
  end.

Definition setrow (a : ndarray2) (i : nat) (v : ndarray1) : Result ndarray2 :=
  r <- getrow a i ;;
  if length v =? length r then Ok (replace_nth i v a)
  else if length v =? 1
       then Ok (replace_nth i (map (fun _ => bget 0%float v 0) r) a)
       else Raise (ValueError "could not broadcast input array").

(** The transpose of an array of shape [(length a, ncols)]. *)
Definition transpose (ncols : nat) (a : ndarray2) : ndarray2 :=
  map (fun i => map (fun r => nth i r 0%float) a) (seq 0 ncols).

(** ** The generator behind [np.random]

    NumPy itself is not part of the repository.  The solver uses three of
    its entry points; each is a fixed function of the generator state:
    - seeding with an integer resets the state to one that depends on
      the seed only, seeding with [None] draws fresh entropy;
    - [random_sample] produces the next double, in [[0, 1)];
    - [choice(a, 2, replace=False)] takes the first two entries of a
      permutation of the positions, so the two positions are distinct
      and in range. *)

Class RandomState (G : Type) : Type := {
  rk_seed : Z -> G;
  rk_entropy : G -> G;
  rk_double : G -> float * G;
  rk_choice2 : nat -> G -> (nat * nat) * G;
  rk_double_range : forall g,
      (0 <=? fst (rk_double g))%float = true /\
      (fst (rk_double g) <? 1)%float = true;
  rk_choice2_spec : forall n g,
      2 <= n ->
      fst (fst (rk_choice2 n g)) < n /\
      snd (fst (rk_choice2 n g)) < n /\
      fst (fst (rk_choice2 n g)) <> snd (fst (rk_choice2 n g))
}.

Section NumpyRandom.
Context {G : Type} `{RandomState G}.

(** [np.random.seed(seed)] *)
Definition np_random_seed (seed : option Z) (g : G) : Result G :=
  match seed with
  | None => Ok (rk_entropy g)
  | Some s =>
      if ((0 <=? s) && (s <? 2 ^ 32))%Z then Ok (rk_seed s)
      else Raise (ValueError "Seed must be between 0 and 2**32 - 1")
  end.

(** [np.random.rand(n)]: [n] consecutive doubles. *)
Fixpoint np_random_rand1 (n : nat) (g : G) : ndarray1 * G :=
  match n with
  | 0 => ([], g)
  | S n' =>
      let '(u, g1) := rk_double g in
      let '(us, g2) := np_random_rand1 n' g1 in
      (u :: us, g2)
  end.

Fixpoint rand_rows (d0 d1 : nat) (g : G) : ndarray2 * G :=
  match d0 with
  | 0 => ([], g)
  | S d0' =>
      let '(r, g1) := np_random_rand1 d1 g in
      let '(rs, g2) := rand_rows d0' d1 g1 in
      (r :: rs, g2)
  end.

(** [np.random.rand(d0, d1)]: filled in row-major order. *)
Definition np_random_rand2 (d0 d1 : Z) (g : G) : Result (ndarray2 * G) :=
  if ((d0 <? 0) || (d1 <? 0))%Z
  then Raise (ValueError "negative dimensions are not allowed")
  else Ok (rand_rows (Z.to_nat d0) (Z.to_nat d1) g).

(** [np.random.uniform()] is [low + (high - low) * random_sample()]
    with [low = 0.0] and [high = 1.0]. *)
Definition np_random_uniform (g : G) : float * G :=
  let '(u, g1) := rk_double g in
  ((0 + 1 * u)%float, g1).

(** [np.random.choice(a, 2, replace = False)] *)
Definition np_random_choice2 (a : list nat) (g : G)
  : Result ((nat * nat) * G) :=
  match length a with
  | 0 => Raise (ValueError "'a' cannot be empty unless no samples are taken")
  | 1 => Raise (ValueError
           "Cannot take a larger sample than population when 'replace=False'")
  | n =>
      let '((p0, p1), g1) := rk_choice2 n g in
      Ok ((nth p0 a 0, nth p1 a 0), g1)
  end.
End NumpyRandom.

(** ** The notebook's module namespace

    [diff_evolution_solver] reads the names [kmut] and [bounds] without
    [self.]: Python resolves them in the module namespace when the line
    runs.  A name may be unbound there ([None]). *)

Record Globals : Type := mkGlobals {
  g_kmut : option float;
  g_bounds : option (list (float * float))
}.

Definition load_global {A : Type} (name : string) (v : option A) : Result A :=
  match v with
  | Some a => Ok a
  | None => Raise (NameError name)
  end.

(** ** The class [DifferentialEvolution]

    The attributes that [__init__] stores.  The evaluator is a function
    of the vector and of the engine's data, hence pure and total;
    [bounds] and [guess] are [None] or tuples, as the docstring and the
    notebook have them; the sizes are integers of any sign. *)

Record DifferentialEvolution (Data : Type) : Type := mkDE {
  func : ndarray1 -> Data -> float;
  kmut : float;
  kcross : float;
  nparam : Z;
  npop : Z;
  niter : Z;
  data : Data;
  bounds : option (list (float * float));
  guess : option ndarray1
}.

(** Truth value of an optional tuple: [None] and [()] are false. *)
Definition truthy {A : Type} (o : option (list A)) : bool :=
  match o with
  | Some (_ :: _) => true
  | _ => false
  end.

Definition tuple_of {A : Type} (o : option (list A)) : list A :=
  match o with
  | Some l => l
  | None => []
  end.

(** The list comprehension of [population_generator]:
    [bounds[ii][0] + pop[ii] * (bounds[ii][1] - bounds[ii][0])]. *)
Definition rescale (b : float * float) (x : float) : float :=
  (fst b + x * (snd b - fst b))%float.

Fixpoint scale_rows (bs : list (float * float)) (ii : nat) (rows : ndarray2)
  : Result ndarray2 :=
  match rows with
  | [] => Ok []
  | r :: rows' =>
      b <- getrow bs ii ;;
      rest <- scale_rows bs (S ii) rows' ;;
      Ok (map (rescale b) r :: rest)
  end.

(** [pop[:, 0] = v] for [pop] of shape [(length a, ncols)]. *)
Definition set_column0 (a : ndarray2) (ncols : nat) (v : ndarray1)
  : Result ndarray2 :=
  if ncols =? 0
  then Raise (IndexError "index 0 is out of bounds for axis 1 with size 0")
  else if (length v =? length a) || (length v =? 1)
       then Ok (map (fun k => bget 0%float v k :: tl (nth k a []))
                    (seq 0 (length a)))
       else Raise (ValueError "could not broadcast input array").

Section Engine.
Context {G : Type} `{RandomState G}.
Variable Data : Type.

(** [__init__]: the fields are stored as given, then the global
    generator is seeded. *)
Definition __init__ (func : ndarray1 -> Data -> float) (kmut kcross : float)
  (nparam npop niter : Z) (data : Data)
  (bounds : option (list (float * float))) (guess : option ndarray1)
  (seed : option Z) (g : G) : Result (DifferentialEvolution Data * G) :=
  let self := mkDE func kmut kcross nparam npop niter data bounds guess in
  g' <- np_random_seed seed g ;;
  Ok (self, g').

Definition apply_guess (self : DifferentialEvolution Data) (pop : ndarray2)
  : Result ndarray2 :=
  if truthy (guess self)
  then set_column0 pop (Z.to_nat (npop self)) (tuple_of (guess self))
  else Ok pop.

(** [population_generator].  With bounds and [nparam = 0] the list
    comprehension is empty and [np.array([])] is one-dimensional: a guess
    then fails on [pop[:, 0]], and the array returned has no rows. *)
Definition population_generator (self : DifferentialEvolution Data) (g : G)
  : Result (ndarray2 * G) :=
  '(pop, g1) <- np_random_rand2 (nparam self) (npop self) g ;;
  if truthy (bounds self) then
    pop1 <- scale_rows (tuple_of (bounds self)) 0 pop ;;
    match pop1 with
    | [] =>
        if truthy (guess self)
        then Raise (IndexError "too many indices for array")
        else Ok ([], g1)
    | _ :: _ =>
        pop2 <- apply_guess self pop1 ;;
        Ok (transpose (Z.to_nat (npop self)) pop2, g1)
    end
  else
    pop2 <- apply_guess self pop ;;
    Ok (transpose (Z.to_nat (npop self)) pop2, g1).

(** [least_error_idx]: [error] starts as [np.zeros(npop)] and receives
    one cost per row. *)
Definition least_error_idx (self : DifferentialEvolution Data) (pop : ndarray2)
  : Result (nat * float) :=
  if (npop self <? 0)%Z
  then Raise (ValueError "negative dimensions are not allowed")
  else if Z.to_nat (npop self) <? length pop
  then Raise (IndexError "index out of bounds for axis 0")
  else
    let costs := map (fun row => func self row (data self)) pop in
    let error := costs ++ repeat 0%float (Z.to_nat (npop self) - length pop) in
    lst_idx <- np_argmin error ;;
    Ok (lst_idx, nth lst_idx error 0%float).

(** *** The state of a run

    [bestfit = pop[lsterr_idx]] is a view of a row of [pop], so it follows
    every later assignment to that row; [bestfit = trial] rebinds the
    name to the array [trial], which nothing mutates afterwards. *)
Inductive bestref : Type :=
| View (idx : nat)
| Owned (v : ndarray1).

(** What one inner iteration computed: the trial vector after crossover
    (line 111), the trial vector that line 115 evaluates, and the
    best-fit pair when the iteration ends. *)
Record obs : Type := mkObs {
  ob_crossed : ndarray1;
  ob_trial : ndarray1;
  ob_best : ndarray1;
  ob_cost : float
}.

Record state : Type := mkState {
  pop : ndarray2;
  bestfit : bestref;
  lst_err : float;
  rng : G;
  emitted : list (ndarray1 * float);
  trace : list obs
}.

Definition deref (p : ndarray2) (b : bestref) : ndarray1 :=
  match b with
  | View k => nth k p []
  | Owned v => v
  end.

Definition best_vector (s : state) : ndarray1 := deref (pop s) (bestfit s).

(** Lines 102 to 105. *)
Definition solver_setup (self : DifferentialEvolution Data) (g : G)
  : Result state :=
  '(p, g1) <- population_generator self g ;;
  '(lsterr_idx, err) <- least_error_idx self p ;;
  _ <- getrow p lsterr_idx ;;
  Ok (mkState p (View lsterr_idx) err g1 [] []).

(** Line 109: [bestfit + kmut * (pop[rng_idx[0]] - pop[rng_idx[1]])]; the
    name [kmut] is the module-level one. *)
Definition mutation (gl : Globals) (p : ndarray2) (best : ndarray1)
  (r0 r1 : nat) : Result ndarray1 :=
  k <- load_global "kmut" (g_kmut gl) ;;
  a <- getrow p r0 ;;
  b <- getrow p r1 ;;
  d <- np_sub a b ;;
  np_add best (np_scale k d).

(** Lines 110 and 111. *)
Definition crossover (self : DifferentialEvolution Data) (trial ind : ndarray1)
  (g : G) : Result (ndarray1 * G) :=
  let '(us, g1) := np_random_rand1 3 g in
  let cross := map (fun u => (u <=? kcross self)%float) us ++ [true] in
  t <- np_where cross trial ind ;;
  Ok (t, g1).

(** The value line 114 stores:
    [pop[:, j].min() + np.random.uniform() * (pop[:, j].max() - pop[:, j].min())]. *)
Definition resample (p : ndarray2) (j : nat) (g : G) : Result (float * G) :=
  c <- column p j ;;
  mn <- np_min c ;;
  let '(u, g1) := np_random_uniform g in
  mx <- np_max c ;;
  Ok ((mn + u * (mx - mn))%float, g1).

(** The test of line 113, for the module-level [bounds]. *)
Definition inside (b : float * float) (param : float) : bool :=
  ((fst b <=? param) && (param <=? snd b))%float.

(** Lines 112 to 114: the loop over [enumerate(trial)], from index [j]. *)
Fixpoint bound_repair (gl : Globals) (p : ndarray2) (j : nat)
  (trial : ndarray1) (g : G) : Result (ndarray1 * G) :=
  match trial with
  | [] => Ok ([], g)
  | param :: rest =>
      bs <- load_global "bounds" (g_bounds gl) ;;
      b <- getrow bs j ;;
      if negb (inside b param) then
        '(x, g1) <- resample p j g ;;
        '(rest', g2) <- bound_repair gl p (S j) rest g1 ;;
        Ok (x :: rest', g2)
      else
        '(rest', g2) <- bound_repair gl p (S j) rest g ;;
        Ok (param :: rest', g2)
  end.

(** The trial vector of one inner iteration, lines 108 to 114: the
    vector after crossover, the vector after bound repair, and the
    generator state. *)
Definition make_trial (self : DifferentialEvolution Data) (gl : Globals)
  (i : nat) (s : state) : Result (ndarray1 * ndarray1 * G) :=
  let ind := nth i (pop s) [] in
  '((r0, r1), g1) <- np_random_choice2 (np_arange (npop self)) (rng s) ;;
  t0 <- mutation gl (pop s) (best_vector s) r0 r1 ;;
  '(t1, g2) <- crossover self t0 ind g1 ;;
  '(trial, g3) <- bound_repair gl (pop s) 0 t1 g2 ;;
  Ok (t1, trial, g3).

(** One inner iteration, lines 108 to 121. *)
Definition inner (self : DifferentialEvolution Data) (gl : Globals)
  (i : nat) (s : state) : Result state :=
  let ind := nth i (pop s) [] in
  '(t1, trial, g3) <- make_trial self gl i s ;;
  let trial_err := func self trial (data self) in
  if (trial_err <? func self ind (data self))%float then
    p' <- setrow (pop s) i trial ;;
    if (trial_err <? lst_err s)%float then
      Ok (mkState p' (Owned trial) trial_err g3
            (emitted s ++ [(trial, trial_err)])
            (trace s ++ [mkObs t1 trial trial trial_err]))
    else
      Ok (mkState p' (bestfit s) (lst_err s) g3 (emitted s)
            (trace s ++ [mkObs t1 trial (deref p' (bestfit s)) (lst_err s)]))
  else
    Ok (mkState (pop s) (bestfit s) (lst_err s) g3 (emitted s)
          (trace s ++ [mkObs t1 trial (best_vector s) (lst_err s)])).

(** How a run ends.  [Interrupted e s] carries the state when the inner
    iteration that raised [e] began. *)
Inductive outcome : Type :=
| Completed (s : state)
| Interrupted (e : exn) (s : state).

Definition final (o : outcome) : state :=
  match o with
  | Completed s => s
  | Interrupted _ s => s
  end.

(** The loop [for i, ind in enumerate(pop)]. *)
Fixpoint members (self : DifferentialEvolution Data) (gl : Globals)
  (idxs : list nat) (s : state) : outcome :=
  match idxs with
  | [] => Completed s
  | i :: idxs' =>
      match inner self gl i s with
      | Ok s' => members self gl idxs' s'
      | Raise e => Interrupted e s
      end
  end.

(** The loop [for iter in tqdm(range(self.niter))]. *)
Fixpoint generations (self : DifferentialEvolution Data) (gl : Globals)
  (n : nat) (s : state) : outcome :=
  match n with
  | 0 => Completed s
  | S n' =>
      match members self gl (seq 0 (length (pop s))) s with
      | Completed s' => generations self gl n' s'
      | Interrupted e s' => Interrupted e s'
      end
  end.

(** [diff_evolution_solver], run to its end or to the exception that
    stops it; the elements it yields are [emitted] of the final state. *)
Definition diff_evolution_solver (self : DifferentialEvolution Data)
  (gl : Globals) (g : G) : Result (state * outcome) :=
  s0 <- solver_setup self g ;;
  Ok (s0, generations self gl (Z.to_nat (niter self)) s0).

(** The property [result]: the stream is drained into a tuple, the tuple
    is unzipped into the two names [res, err], and [res[-1]] is returned.
    Unzipping an empty tuple gives nothing to unpack. *)
Definition result (self : DifferentialEvolution Data) (gl : Globals) (g : G)
  : Result ndarray1 :=
  '(_, o) <- diff_evolution_solver self gl g ;;
  match o with
  | Interrupted e _ => Raise e
  | Completed s =>
      match emitted s with
      | [] => Raise (ValueError "not enough values to unpack (expected 2, got 0)")
      | y :: ys => Ok (fst (last ys y))
      end
  end.

End Engine.

(** ** The notebook's evaluator: [func_obj] and [compute_error]

    A series of the data collection is the named tuple of cell 12.
    [np.square(x)] is [x * x] and [np.sqrt] the IEEE square root.  The
    order in which [np.sum] adds the entries of an array is NumPy's
    business, so the sum is a function [np_sum] that the model takes as
    given. *)

Record series : Type := mkSeries {
  name : string;
  level : ndarray1;
  wavelength : ndarray1;
  uncertainty : ndarray1
}.

Definition np_square (x : float) : float := (x * x)%float.

(** [func_obj(r, cor1, cor2, n, yraw, stdraw)], with [n], [yraw] and
    [stdraw] arrays. *)
Definition func_obj (r cor1 cor2 : float) (n yraw stdraw : ndarray1)
  : Result ndarray1 :=
  let a := (1 / np_square (3 - cor1))%float in
  let y := map (fun v => (1 / (r * (a - 1 / np_square (v - cor2))))%float) n in
  d <- np_sub yraw y ;;
  np_binop PrimFloat.div (map np_square d) (map np_square stdraw).

Section Evaluator.
Variable np_sum : ndarray1 -> float.

(** The loop of [compute_error] over the data collection, with the
    running [error]. *)
Fixpoint compute_error_loop (ind : ndarray1) (data_collection : list series)
  (error : float) : Result float :=
  match data_collection with
  | [] => Ok error
  | data :: rest =>
      if (name data =? "principal")%string then
        i0 <- getrow ind 0 ;;
        i1 <- getrow ind 1 ;;
        i2 <- getrow ind 2 ;;
        e <- func_obj i0 i1 i2 (level data) (wavelength data)
               (uncertainty data) ;;
        compute_error_loop ind rest (error + np_sum e)%float
      else if (name data =? "sharp")%string then
        i0 <- getrow ind 0 ;;
        i2 <- getrow ind 2 ;;
        i1 <- getrow ind 1 ;;
        e <- func_obj i0 i2 i1 (level data) (wavelength data)
               (uncertainty data) ;;
        compute_error_loop ind rest (error + np_sum e)%float
      else if (name data =? "diffuse")%string then
        i0 <- getrow ind 0 ;;
        i2 <- getrow ind 2 ;;
        i3 <- getrow ind 3 ;;
        e <- func_obj i0 i2 i3 (level data) (wavelength data)
               (uncertainty data) ;;
        compute_error_loop ind rest (error + np_sum e)%float
      else if (name data =? "balmer")%string then
        i0 <- getrow ind 0 ;;
        e <- func_obj i0 1 0 (level data) (wavelength data)
               (uncertainty data) ;;
        compute_error_loop ind rest (error + np_sum e)%float
      else compute_error_loop ind rest error
  end.

(** [compute_error(ind, data_collection)] *)
Definition compute_error (ind : ndarray1) (data_collection : list series)
  : Result float :=
  error <- compute_error_loop ind data_collection 0%float ;;
  Ok (PrimFloat.sqrt error).

End Evaluator.

(** ** A generator that replays a tape

    An executable instance of [RandomState]: the doubles and the raw
    draws behind [choice] are read off a tape, and seeding looks the tape
    up in a table.  A tape that has run out yields zeros, and so does an
    entry of the tape outside [[0, 1)]. *)

Module Tape.

Record t : Type := mk {
  doubles : list float;
  picks : list (nat * nat)
}.

Definition unit_interval (u : float) : float :=
  if ((0 <=? u) && (u <? 1))%float then u else 0%float.

Definition double (g : t) : float * t :=
  match doubles g with
  | [] => (0%float, g)
  | u :: us => (unit_interval u, mk us (picks g))
  end.

Lemma double_range (g : t) :
  (0 <=? fst (double g))%float = true /\
  (fst (double g) <? 1)%float = true.
Proof.
  unfold double. destruct (doubles g) as [|u us]; simpl.
  - split; reflexivity.
  - unfold unit_interval.
    destruct ((0 <=? u) && (u <? 1))%float eqn:E.
    + apply andb_prop in E. exact E.
    + split; reflexivity.
Qed.

(** Two distinct positions below [n] from two raw draws. *)
Definition choice2 (n : nat) (g : t) : (nat * nat) * t :=
  let '(a, b) := hd (0, 0) (picks g) in
  let p0 := a mod n in
  let p1 := (p0 + 1 + b mod (n - 1)) mod n in
  ((p0, p1), mk (doubles g) (tl (picks g))).

Lemma choice2_spec (n : nat) (g : t) :
  2 <= n ->
  fst (fst (choice2 n g)) < n /\
  snd (fst (choice2 n g)) < n /\
  fst (fst (choice2 n g)) <> snd (fst (choice2 n g)).
Proof.
  intros Hn. unfold choice2. destruct (hd (0, 0) (picks g)) as [a b]. simpl.
  assert (Ha : a mod n < n) by (apply Nat.mod_upper_bound; lia).
  assert (Hb : b mod (n - 1) < n - 1) by (apply Nat.mod_upper_bound; lia).
  set (p0 := a mod n) in *. set (c := b mod (n - 1)) in *.
  assert (Hm : (p0 + 1 + c) mod n < n) by (apply Nat.mod_upper_bound; lia).
  repeat split; try assumption.
  intros E.
  destruct (Nat.lt_ge_cases (p0 + 1 + c) n) as [Hs|Hl].
  - rewrite Nat.mod_small in E by assumption. lia.
  - assert (Hd : (p0 + 1 + c) mod n = p0 + 1 + c - n).
    { replace (p0 + 1 + c) with ((p0 + 1 + c - n) + 1 * n) at 1 by lia.
      rewrite Nat.Div0.mod_add. apply Nat.mod_small. lia. }
    lia.
Qed.

Definition random_state (table : Z -> t) : RandomState t :=
  {| rk_seed := table;
     rk_entropy := fun g => g;
     rk_double := double;
     rk_choice2 := choice2;
     rk_double_range := double_range;
     rk_choice2_spec := choice2_spec |}.

End Tape.

(** ** The notebook's own configuration, for concrete runs *)

Module Notebook.

Definition bounds : list (float * float) :=
  [(1e6, 1e8); (0.5, 2.0); (0.3, 1.5); (0.0, 0.1)]%float.

Definition guess : ndarray1 := [1.0e7; 1.5; 0.5; 0.0]%float.

(** Cell 14 binds [kmut = 0.2] and [kcross = 0.6] at module level, cell 9
    binds [bounds]. *)
Definition globals : Globals := mkGlobals (Some 0.2%float) (Some bounds).

(** A stand-in evaluator: the squared distance to the vector [target]. *)
Definition sq_dist (x : ndarray1) (target : ndarray1) : float :=
  fold_left PrimFloat.add
    (map (fun p => ((fst p - snd p) * (fst p - snd p))%float)
         (combine x target))
    0%float.

Definition target : ndarray1 := [1.1e7; 1.4; 0.9; 0.05]%float.

(** The doubles and raw draws that the examples replay: multiples of
    1/64 in [[0, 1)] and pairs of naturals, both from a linear
    congruence. *)
Definition dyadic (k : nat) : float :=
  (of_uint63 (Uint63.of_Z (Z.of_nat ((k * 37 + 11) mod 64))) / 64)%float.

Definition tape : Tape.t :=
  Tape.mk (map dyadic (seq 0 200))
          (map (fun k => (k * 7 + 3, k * 5 + 1)) (seq 0 60)).

(** The engine of cell 15, with the evaluator and the sizes left open. *)
Definition engine (f : ndarray1 -> ndarray1 -> float) (nparam npop niter : Z)
  (bounds : option (list (float * float))) (guess : option ndarray1)
  : DifferentialEvolution ndarray1 :=
  mkDE f 0.2%float 0.6%float nparam npop niter target bounds guess.

#[global] Instance rs : RandomState Tape.t := Tape.random_state (fun _ => tape).

End Notebook.

(** ** The data of the notebook, for concrete evaluations *)

Module NotebookData.

(** Cells 10 to 13. *)
Definition principal_data : series :=
  mkSeries "principal" [3; 4]%float [5.86175e-7; 3.3003e-7]%float
    [1e-8; 1e-8]%float.

Definition sharp_data : series :=
  mkSeries "sharp" [5; 5; 6; 6; 7; 7; 8]%float
    [6.1435e-7; 6.1381e-7; 5.1326e-7; 5.1284e-7; 4.7319e-7; 4.7294e-7;
     4.5707e-7]%float
    [1e-8; 1e-8; 1e-8; 1e-8; 1e-8; 1e-8; 1e-8]%float.

Definition diffuse_data : series :=
  mkSeries "diffuse" [4; 4; 5; 5; 6; 6; 7]%float
    [5.6722e-7; 5.6661e-7; 4.9618e-7; 4.9576e-7; 4.6486e-7; 4.6450e-7;
     4.4856e-7]%float
    [1e-8; 1e-8; 1e-8; 1e-8; 1e-8; 1e-8; 1e-8]%float.

Definition balmer_data : series :=
  mkSeries "balmer" [3; 4; 5; 6; 7]%float
    [6.5930e-7; 4.8580e-7; 4.3415e-7; 4.1056e-7; 3.9760e-7]%float
    [1e-9; 1e-9; 1e-9; 1e-9; 1e-9]%float.

Definition data_collection : list series :=
  [principal_data; sharp_data; diffuse_data; balmer_data].

(** A stand-in for [np.sum]: the addends from left to right. *)
Definition left_sum (e : ndarray1) : float := fold_left PrimFloat.add e 0%float.

(** Two more stand-in evaluators: the squared distance with infinity in
    place of a value that is not a number, and a square root that is
    not a number for every vector whose first entry is below [5e7]. *)
Definition guarded (x : ndarray1) (target : ndarray1) : float :=
  let c := Notebook.sq_dist x target in
  if is_nan c then infinity else c.

Definition rooted (x : ndarray1) (target : ndarray1) : float :=
  PrimFloat.sqrt (nth 0 x 0 - 5e7)%float.

End NotebookData.

(** ** Vocabulary of the statements *)

Unset Implicit Arguments.

Definition seed_ok (seed : option Z) : bool :=
  match seed with
  | None => true
  | Some s => ((0 <=? s) && (s <? 2 ^ 32))%Z
  end.

Definition choice_error : exn :=
  ValueError "Cannot take a larger sample than population when 'replace=False'".

Definition broadcast_error : exn :=
  ValueError "operands could not be broadcast together".

(** [c] is not above [prev]: the same value, or strictly less. *)
Definition not_above (prev c : float) : Prop :=
  c = prev \/ (c <? prev)%float = true.

Definition below (prev c : float) : Prop := (c <? prev)%float = true.

Fixpoint chain (R : float -> float -> Prop) (prev : float) (cs : list float)
  : Prop :=
  match cs with
  | [] => True
  | c :: cs' => R prev c /\ chain R c cs'
  end.

(** Every entry of [v] has a bound and satisfies it:
    [low_j <= x_j <= high_j] for every index [j]. *)
Fixpoint within (bs : list (float * float)) (v : ndarray1) {struct v}
  : bool :=
  match v, bs with
  | [], _ => true
  | x :: v', b :: bs' => inside b x && within bs' v'
  | _ :: _, [] => false
  end.

(** A bound as the data model has it, [low <= high], whose width
    [high - low] is finite in binary64. *)
Definition finite_bound (b : float * float) : bool :=
  ((fst b <=? snd b) && (snd b - fst b <? infinity))%float.

(** The names [compute_error] has a branch for. *)
Definition known (d : series) : bool :=
  ((name d =? "principal") || (name d =? "sharp") ||
   (name d =? "diffuse") || (name d =? "balmer"))%string.

(** The three arrays of a series have one length. *)
Definition aligned (d : series) : Prop :=
  length (level d) = length (wavelength d) /\
  length (uncertainty d) = length (wavelength d).

Section Vocabulary.
Context {G : Type} `{RandomState G} {Data : Type}.

(** The formula of C6 with the factor the engine was constructed with. *)
Definition constructed_mutation
  (self : DifferentialEvolution Data) (best a b : ndarray1) : ndarray1 :=
  map (fun j => (nth j best 0 + kmut self * (nth j a 0 - nth j b 0))%float)
      (seq 0 (length best)).

(** The evaluator applied to the engine's data. *)
Definition cost_of (self : DifferentialEvolution Data) (v : ndarray1) : float :=
  func self v (data self).

(** What holds of the costs at every point of a run that started with
    best cost [c0]: the stored cost is the evaluator's value at the
    best-fit vector (also while that vector is a view of a population
    row), the yielded costs descend strictly from [c0] to the stored
    cost, and the stored cost after each inner iteration is never above
    the one before. *)
Record cost_inv (self : DifferentialEvolution Data) (c0 : float)
  (s : @state G) : Prop := mkCostInv {
  inv_best : cost_of self (best_vector s) = lst_err s;
  inv_stream : chain below c0 (map snd (emitted s));
  inv_stream_last : last (map snd (emitted s)) c0 = lst_err s;
  inv_trace : chain not_above c0 (map ob_cost (trace s));
  inv_trace_last : last (map ob_cost (trace s)) c0 = lst_err s;
  inv_pairs : Forall (fun y => cost_of self (fst y) = snd y) (emitted s);
  inv_obs : Forall (fun ob => cost_of self (ob_best ob) = ob_cost ob) (trace s)
}.

(** Every member and the best-fit vector satisfy the bounds [bs]. *)
Definition rows_within (bs : list (float * float)) (s : @state G) : Prop :=
  Forall (fun r => within bs r = true) (pop s) /\
  within bs (best_vector s) = true.

(** A guess, if there is one, satisfies the bounds [bs] when seen at
    the shape of a member: entry by entry when it has [nparam] entries,
    its one entry at every index when it has one. *)
Definition guess_inside (self : DifferentialEvolution Data)
  (bs : list (float * float)) : Prop :=
  truthy (guess self) = true ->
  within bs (map (bget 0%float (tuple_of (guess self)))
               (seq 0 (Z.to_nat (nparam self)))) = true.

(** A configuration as the construction interface describes it:
    positive sizes, a bound for every parameter when bounds are given, a
    guess of [nparam] entries when a guess is given. *)
Definition well_formed (self : DifferentialEvolution Data) : Prop :=
  (1 <= nparam self)%Z /\
  (1 <= npop self)%Z /\
  (truthy (bounds self) = true ->
   Z.to_nat (nparam self) <= length (tuple_of (bounds self))) /\
  (truthy (guess self) = true ->
   length (tuple_of (guess self)) = Z.to_nat (nparam self)).

(** The generator state after [k] doubles, and the [k]-th double. *)
Fixpoint skip (k : nat) (g : G) : G :=
  match k with
  | 0 => g
  | S k' => skip k' (snd (rk_double g))
  end.

Definition nth_double (g : G) (k : nat) : float := fst (rk_double (skip k g)).

(** How a draw becomes entry [j] of a member: rescaled into bound [j]
    when bounds are given, left in [[0, 1)] otherwise. *)
Definition placed (self : DifferentialEvolution Data) (j : nat) (u : float)
  : float :=
  if truthy (bounds self)
  then rescale (nth j (tuple_of (bounds self)) (0, 0)%float) u
  else u.

(** Cells 15 and 16 of the notebook: construct an engine, then drain its
    solver, respectively read its [result]. *)
Definition fresh_run (f : ndarray1 -> Data -> float) (km kc : float)
  (np npo ni : Z) (d : Data) (b : option (list (float * float)))
  (gs : option ndarray1) (seed : option Z) (gl : Globals) (g : G)
  : Result (state * outcome) :=
  '(self, g') <- __init__ f km kc np npo ni d b gs seed g ;;
  diff_evolution_solver self gl g'.





End Vocabulary.

(** * Preliminaries *)

Lemma bind_ok {A B : Type} (c : Result A) (k : A -> Result B) (b : B) :
  bind c k = Ok b -> exists a, c = Ok a /\ k a = Ok b.
Proof. destruct c as [a|e]; simpl; intros E; [eauto | discriminate]. Qed.

(** Inversion of a successful [bind]: the first computation returned
    [x], and the hypothesis goes on with the continuation. *)
Tactic Notation "inv_bind" hyp(E) "as" simple_intropattern(x)
  simple_intropattern(Ex) :=
  apply bind_ok in E; destruct E as [x [Ex E]].

(** ** Comparison of costs

    [<] on binary64 is irreflexive and transitive; NaN compares false
    with everything. *)

Lemma SFcompare_refl (x : spec_float) :
  SFcompare x x = Some Eq \/ SFcompare x x = None.
Proof.
  destruct x as [s|s| |s m e]; simpl; auto.
  - destruct s; auto.
  - destruct s; rewrite Z.compare_refl, Pos.compare_cont_refl; auto.
Qed.

Lemma SFltb_irrefl (x : spec_float) : SFltb x x = false.
Proof.
  unfold SFltb. destruct (SFcompare_refl x) as [E|E]; rewrite E; reflexivity.
Qed.

Lemma SFltb_trans (x y z : spec_float) :
  SFltb x y = true -> SFltb y z = true -> SFltb x z = true.
Proof.
  unfold SFltb, SFcompare.
  destruct x as [sx|sx| |sx mx ex], y as [sy|sy| |sy my ey],
           z as [sz|sz| |sz mz ez];
    try discriminate; try reflexivity;
    try destruct sx; try destruct sy; try destruct sz;
    try discriminate; try reflexivity.
  all: change (Pos.compare_cont Eq) with Pos.compare.
  all: destruct (Z.compare_spec ex ey), (Z.compare_spec ey ez),
         (Z.compare_spec ex ez);
    try discriminate; try reflexivity; try lia; subst.
  all: destruct (Pos.compare_spec mx my), (Pos.compare_spec my mz),
         (Pos.compare_spec mx mz);
    simpl; try discriminate; try reflexivity; try lia.
Qed.

Lemma cost_lt_irrefl (x : float) : (x <? x)%float = false.
Proof. rewrite FloatAxioms.ltb_spec. apply SFltb_irrefl. Qed.

Lemma cost_lt_trans (x y z : float) :
  (x <? y)%float = true -> (y <? z)%float = true -> (x <? z)%float = true.
Proof. rewrite !FloatAxioms.ltb_spec. apply SFltb_trans. Qed.


Lemma SFleb_refl (x : spec_float) : SFeqb x x = true -> SFleb x x = true.
Proof.
  unfold SFeqb, SFleb. destruct (SFcompare x x) as [[| |]|]; congruence.
Qed.

Lemma SFleb_total (x y : spec_float) :
  SFeqb x x = true -> SFeqb y y = true ->
  SFleb x y = false -> SFleb y x = true.
Proof.
  unfold SFeqb, SFleb, SFcompare.
  destruct x as [sx|sx| |sx mx ex], y as [sy|sy| |sy my ey];
    try discriminate; try reflexivity;
    try destruct sx; try destruct sy; try discriminate; try reflexivity.
  all: change (Pos.compare_cont Eq) with Pos.compare.
  all: intros _ _.
  all: destruct (Z.compare_spec ex ey), (Z.compare_spec ey ex);
    try discriminate; try reflexivity; try lia; subst.
  all: destruct (Pos.compare_spec mx my), (Pos.compare_spec my mx);
    simpl; try discriminate; try reflexivity; try lia.
Qed.

Lemma SFleb_trans (x y z : spec_float) :
  SFleb x y = true -> SFleb y z = true -> SFleb x z = true.
Proof.
  unfold SFleb, SFcompare.
  destruct x as [sx|sx| |sx mx ex], y as [sy|sy| |sy my ey],
           z as [sz|sz| |sz mz ez];
    try discriminate; try reflexivity;
    try destruct sx; try destruct sy; try destruct sz;
    try discriminate; try reflexivity.
  all: change (Pos.compare_cont Eq) with Pos.compare.
  all: destruct (Z.compare_spec ex ey), (Z.compare_spec ey ez),
         (Z.compare_spec ex ez);
    try discriminate; try reflexivity; try lia; subst.
  all: destruct (Pos.compare_spec mx my), (Pos.compare_spec my mz),
         (Pos.compare_spec mx mz);
    simpl; try discriminate; try reflexivity; try lia.
Qed.

(** [<=] on binary64, away from NaN, is a total preorder. *)

Lemma not_nan_eqb (x : float) :
  is_nan x = false -> SFeqb (Prim2SF x) (Prim2SF x) = true.
Proof.
  unfold is_nan. rewrite FloatAxioms.eqb_spec.
  destruct (SFeqb (Prim2SF x) (Prim2SF x)); [reflexivity | discriminate].
Qed.

Lemma float_le_refl (x : float) : is_nan x = false -> (x <=? x)%float = true.
Proof.
  intros Hx. rewrite FloatAxioms.leb_spec. apply SFleb_refl, not_nan_eqb, Hx.
Qed.

Lemma float_le_total (x y : float) :
  is_nan x = false -> is_nan y = false ->
  (x <=? y)%float = false -> (y <=? x)%float = true.
Proof.
  intros Hx Hy. rewrite !FloatAxioms.leb_spec.
  apply SFleb_total; apply not_nan_eqb; assumption.
Qed.

Lemma float_le_trans (x y z : float) :
  (x <=? y)%float = true -> (y <=? z)%float = true -> (x <=? z)%float = true.
Proof. rewrite !FloatAxioms.leb_spec. apply SFleb_trans. Qed.

(** * Construction *)

Section Construction.
Context {G : Type} `{RandomState G}.
Variable Data : Type.

(** C3, as the code has it: construction looks at the seed and at nothing
    else.  It fails exactly when the seed is an integer outside
    [0, 2^32), and otherwise returns the engine with every argument
    stored as given, whatever [nparam], [npop], [kmut], [kcross] and
    [bounds] are. *)
Theorem construction_checks_seed_only
  (f : ndarray1 -> Data -> float) (km kc : float) (np npo ni : Z) (d : Data)
  (b : option (list (float * float))) (gs : option ndarray1)
  (seed : option Z) (g : G) :
  match __init__ f km kc np npo ni d b gs seed g with
  | Ok (self, _) =>
      seed_ok seed = true /\ self = mkDE f km kc np npo ni d b gs
  | Raise e =>
      seed_ok seed = false /\
      e = ValueError "Seed must be between 0 and 2**32 - 1"
  end.
Proof.
  unfold __init__, np_random_seed, seed_ok.
  destruct seed as [s|].
  - destruct ((0 <=? s) && (s <? 2 ^ 32))%Z; cbv [bind]; split; reflexivity.
  - cbv [bind]. split; reflexivity.
Qed.

End Construction.

(** C3 fails as stated: a configuration with a negative [nparam], a zero
    [npop], [kmut = 2], [kcross = -1] and a bound with [low > high] is
    accepted by [__init__]; the first error shows when the run starts,
    inside [np.random.rand]. *)
Lemma construction_accepts_invalid :
  exists self g',
    __init__ Notebook.sq_dist 2%float (-1)%float (-3) 0 5 Notebook.target
             (Some [(1%float, 0%float)]) None (Some 0%Z) Notebook.tape
    = Ok (self, g') /\
    result self Notebook.globals g'
    = Raise (ValueError "negative dimensions are not allowed").
Proof. eexists. eexists. split; reflexivity. Qed.

(** * Result retrieval *)

Section Retrieval.
Context {G : Type} `{RandomState G}.
Variable Data : Type.
Variable self : DifferentialEvolution Data.
Variable gl : Globals.

(** [result] returns a vector only when the run completes and the stream
    is not empty; the vector is the last one yielded. *)
Lemma result_ok_inv (g : G) (v : ndarray1) :
  result self gl g = Ok v ->
  exists s0 s y ys,
    diff_evolution_solver self gl g = Ok (s0, Completed s) /\
    emitted s = y :: ys /\ v = fst (last ys y).
Proof.
  unfold result. intros E.
  apply bind_ok in E. destruct E as [[s0 o] [E1 E2]].
  destruct o as [s|e s]; [|discriminate].
  destruct (emitted s) as [|y ys] eqn:Ee; [discriminate|].
  injection E2 as <-. exists s0, s, y, ys. auto.
Qed.

(** An empty stream makes [result] raise. *)
Lemma result_empty_stream_raises (g : G) (s0 : state) (o : outcome) :
  diff_evolution_solver self gl g = Ok (s0, o) ->
  emitted (final o) = [] ->
  exists e, result self gl g = Raise e.
Proof.
  intros E Hem. unfold result. rewrite E. simpl.
  destruct o as [s|e s]; simpl in *.
  - rewrite Hem. eauto.
  - eauto.
Qed.

(** With [niter <= 0] the outer loop does not run and nothing is
    yielded. *)
Lemma niter_zero_result_raises (g : G) :
  (niter self <= 0)%Z -> exists e, result self gl g = Raise e.
Proof.
  intros Hn. unfold result, diff_evolution_solver.
  destruct (solver_setup self g) as [s0|e] eqn:E; simpl; [|eauto].
  replace (Z.to_nat (niter self)) with 0 by lia. simpl.
  unfold solver_setup in E.
  inv_bind E as [p g1] _.
  inv_bind E as [k err] _.
  inv_bind E as r _.
  injection E as <-. simpl. eauto.
Qed.

(** An evaluator that returns the same cost for every vector never
    passes the strict test of line 116, so no iteration yields. *)
Lemma constant_evaluator_inner (c : float) (i : nat) (s s' : state) :
  (forall v, func self v (data self) = c) ->
  inner self gl i s = Ok s' ->
  emitted s' = emitted s /\ pop s' = pop s.
Proof.
  intros Hc E. unfold inner in E.
  inv_bind E as [[t1 trial] g3] _.
  rewrite !Hc, cost_lt_irrefl in E. injection E as <-. auto.
Qed.

Lemma constant_evaluator_members (c : float) (idxs : list nat) (s : state) :
  (forall v, func self v (data self) = c) ->
  emitted (final (members self gl idxs s)) = emitted s /\
  pop (final (members self gl idxs s)) = pop s.
Proof.
  intros Hc. revert s. induction idxs as [|i idxs IH]; intros s; simpl; auto.
  destruct (inner self gl i s) as [s'|e] eqn:E; simpl; auto.
  destruct (constant_evaluator_inner c i s s' Hc E) as [E1 E2].
  destruct (IH s') as [E3 E4]. split; congruence.
Qed.

Lemma constant_evaluator_generations (c : float) (n : nat) (s : state) :
  (forall v, func self v (data self) = c) ->
  emitted (final (generations self gl n s)) = emitted s /\
  pop (final (generations self gl n s)) = pop s.
Proof.
  intros Hc. revert s. induction n as [|n IH]; intros s; simpl; auto.
  pose proof (constant_evaluator_members c (seq 0 (length (pop s))) s Hc)
    as [E1 E2].
  destruct (members self gl (seq 0 (length (pop s))) s) as [s'|e s'];
    simpl in *; [|auto].
  destruct (IH s') as [E3 E4]. split; congruence.
Qed.

Lemma constant_evaluator_result_raises (c : float) (g : G) :
  (forall v, func self v (data self) = c) ->
  exists e, result self gl g = Raise e.
Proof.
  intros Hc.
  destruct (diff_evolution_solver self gl g) as [[s0 o]|e] eqn:E.
  - apply (result_empty_stream_raises g s0 o E).
    unfold diff_evolution_solver in E.
    apply bind_ok in E. destruct E as [s1 [E1 E2]].
    injection E2 as <- <-.
    destruct (constant_evaluator_generations c (Z.to_nat (niter self)) s1 Hc)
      as [E3 _].
    rewrite E3. unfold solver_setup in E1.
    inv_bind E1 as [p g1] _.
    inv_bind E1 as [k err] _.
    inv_bind E1 as r _.
    injection E1 as <-. reflexivity.
  - unfold result. rewrite E. simpl. eauto.
Qed.

End Retrieval.

(** C1 at the notebook's configuration with [niter = 0]: the setup
    succeeds, the stream is empty, and [result] raises the unpacking
    error instead of returning the initial best member. *)
Theorem result_niter_zero_raises :
  let self := Notebook.engine Notebook.sq_dist 4 10 0
                (Some Notebook.bounds) (Some Notebook.guess) in
  is_ok (solver_setup self Notebook.tape) = true /\
  result self Notebook.globals Notebook.tape
  = Raise (ValueError "not enough values to unpack (expected 2, got 0)").
Proof. split; vm_compute; reflexivity. Qed.

(** * The setup and the first inner iteration *)

Section Setup.
Context {G : Type} `{RandomState G}.
Variable Data : Type.
Variable self : DifferentialEvolution Data.

Lemma getrow_ok {A : Type} (a : list A) (i : nat) (r : A) :
  getrow a i = Ok r -> nth_error a i = Some r /\ i < length a.
Proof.
  unfold getrow. destruct (nth_error a i) as [x|] eqn:E; [|discriminate].
  intros [= <-]. split; [reflexivity|].
  apply nth_error_Some. congruence.
Qed.

(** What a successful setup leaves: the population, a view of its
    cheapest row, no yield and no trace. *)
Lemma solver_setup_inv (g : G) (s0 : state) :
  solver_setup self g = Ok s0 ->
  exists p g1 k err,
    population_generator self g = Ok (p, g1) /\
    least_error_idx self p = Ok (k, err) /\
    k < length p /\
    s0 = mkState p (View k) err g1 [] [].
Proof.
  unfold solver_setup. intros E.
  inv_bind E as [p g1] E1.
  inv_bind E as [k err] E2.
  inv_bind E as r E3.
  injection E as <-. apply getrow_ok in E3.
  exists p, g1, k, err. intuition.
Qed.

(** With [npop = 1] the draw of line 108 raises, whatever the state. *)
Lemma inner_npop_one (gl : Globals) (i : nat) (s : state) :
  npop self = 1%Z -> inner self gl i s = Raise choice_error.
Proof.
  intros Hn. unfold inner, make_trial, np_random_choice2, np_arange.
  rewrite Hn. reflexivity.
Qed.

End Setup.

(** * Mutation *)

Lemma broadcast_shape_same (n : nat) : broadcast_shape n n = Ok n.
Proof. unfold broadcast_shape. rewrite Nat.eqb_refl. reflexivity. Qed.

Lemma bget_nth {A : Type} (d : A) (x : list A) (k : nat) :
  k < length x -> bget d x k = nth k x d.
Proof.
  intros Hk. unfold bget. destruct (length x =? 1) eqn:E; [|reflexivity].
  apply Nat.eqb_eq in E. replace k with 0 by lia. reflexivity.
Qed.

(** Two operands of one length combine index by index. *)
Lemma np_binop_same (op : float -> float -> float) (x y : ndarray1) :
  length x = length y ->
  np_binop op x y
  = Ok (map (fun k => op (nth k x 0%float) (nth k y 0%float))
          (seq 0 (length x))).
Proof.
  intros Hl. unfold np_binop. rewrite <- Hl, broadcast_shape_same. simpl.
  f_equal. apply map_ext_in. intros k Hk. apply in_seq in Hk.
  rewrite !bget_nth by lia. reflexivity.
Qed.

Section Mutation.
Context {G : Type} `{RandomState G}.

(** [choice] returns the entries at two distinct positions. *)
Lemma choice_positions (a : list nat) (g g' : G) (r0 r1 : nat) :
  np_random_choice2 a g = Ok ((r0, r1), g') ->
  exists p0 p1,
    p0 < length a /\ p1 < length a /\ p0 <> p1 /\
    r0 = nth p0 a 0 /\ r1 = nth p1 a 0.
Proof.
  unfold np_random_choice2.
  destruct (length a) as [|[|m]] eqn:En; try discriminate.
  pose proof (@rk_choice2_spec G _ (S (S m)) g) as Hs.
  destruct (rk_choice2 (S (S m)) g) as [[p0 p1] g1]. simpl in Hs.
  destruct Hs as (H0 & H1 & Hd); [lia|].
  intros [= <- <- <-]. exists p0, p1. auto.
Qed.

(** The two positions of line 108 are in range and distinct; nothing
    relates them to the current index [i]. *)
Lemma choice_distinct (n : Z) (g g' : G) (r0 r1 : nat) :
  np_random_choice2 (np_arange n) g = Ok ((r0, r1), g') ->
  r0 < Z.to_nat n /\ r1 < Z.to_nat n /\ r0 <> r1.
Proof.
  intros E. apply choice_positions in E.
  destruct E as (p0 & p1 & H0 & H1 & Hd & -> & ->).
  unfold np_arange in *. rewrite length_seq in H0, H1.
  rewrite !seq_nth by assumption. simpl. auto.
Qed.

(** Line 109 computes [best + k * (pop[r0] - pop[r1])] index by index,
    where [k] is the value bound to the module-level name [kmut]. *)
Lemma mutation_value (gl : Globals) (p : ndarray2) (best a b : ndarray1)
  (r0 r1 : nat) (k : float) :
  g_kmut gl = Some k ->
  nth_error p r0 = Some a ->
  nth_error p r1 = Some b ->
  length a = length best ->
  length b = length best ->
  mutation gl p best r0 r1
  = Ok (map (fun j => (nth j best 0 + k * (nth j a 0 - nth j b 0))%float)
          (seq 0 (length best))).
Proof.
  intros Hk Ha Hb La Lb. unfold mutation, getrow, np_add, np_sub, np_scale.
  rewrite Hk, Ha, Hb. simpl.
  rewrite np_binop_same by congruence. simpl.
  rewrite np_binop_same by (rewrite !length_map, length_seq; congruence).
  f_equal. apply map_ext_in. intros j Hj. apply in_seq in Hj.
  f_equal.
  rewrite nth_indep with (d' := (k * 0)%float)
    by (rewrite !length_map, length_seq; lia).
  rewrite map_nth with (f := fun v => (k * v)%float).
  f_equal.
  rewrite nth_indep with (d' := (nth 0 a 0 - nth 0 b 0)%float)
    by (rewrite length_map, length_seq; lia).
  rewrite map_nth with (f := fun j => (nth j a 0 - nth j b 0)%float).
  rewrite seq_nth by lia. reflexivity.
Qed.

(** The attribute [self.kmut] is stored and never read: an inner
    iteration is the same whatever it holds. *)
Lemma inner_ignores_constructed_kmut (Data : Type)
  (self : DifferentialEvolution Data) (k' : float) (gl : Globals)
  (i : nat) (s : state) :
  inner (mkDE (func self) k' (kcross self) (nparam self) (npop self)
           (niter self) (data self) (bounds self) (guess self)) gl i s
  = inner self gl i s.
Proof. destruct self. reflexivity. Qed.

End Mutation.

(** C6 at an engine constructed with [kmut = 0.5] in the notebook, whose
    module-level [kmut] is [0.2]: the trial vector of the first inner
    iteration is [bestfit + 0.2 * (pop[r1] - pop[r2])], not the vector
    the constructed factor gives. *)
Theorem mutation_uses_module_kmut :
  let self := mkDE Notebook.sq_dist 0.5%float 0.6%float 4 5 3
                Notebook.target (Some Notebook.bounds) None in
  exists s0 r0 r1 g1 a b t0,
    solver_setup self Notebook.tape = Ok s0 /\
    np_random_choice2 (np_arange (npop self)) (rng s0) = Ok ((r0, r1), g1) /\
    nth_error (pop s0) r0 = Some a /\
    nth_error (pop s0) r1 = Some b /\
    mutation Notebook.globals (pop s0) (best_vector s0) r0 r1 = Ok t0 /\
    t0 = map (fun j => (nth j (best_vector s0) 0
                        + 0.2 * (nth j a 0 - nth j b 0))%float) (seq 0 4) /\
    t0 <> constructed_mutation self (best_vector s0) a b.
Proof.
  cbv zeta.
  destruct (solver_setup
              (mkDE Notebook.sq_dist 0.5%float 0.6%float 4 5 3
                 Notebook.target (Some Notebook.bounds) None) Notebook.tape)
    as [s0|e] eqn:E0; [|vm_compute in E0; discriminate].
  vm_compute in E0. injection E0 as <-.
  do 7 eexists.
  split; [reflexivity|].
  split; [vm_compute; reflexivity|].
  split; [vm_compute; reflexivity|].
  split; [vm_compute; reflexivity|].
  split; [vm_compute; reflexivity|].
  split; [vm_compute; reflexivity|].
  intros E.
  apply (f_equal (fun t => PrimFloat.Leibniz.eqb (nth 0 t 0%float)
                             32556250%float)) in E.
  vm_compute in E. discriminate.
Qed.

(** * Crossover *)

Section Crossover.
Context {G : Type} `{RandomState G}.
Variable Data : Type.
Variable self : DifferentialEvolution Data.

Lemma rand1_length (n : nat) (g : G) :
  length (fst (np_random_rand1 n g)) = n.
Proof.
  revert g. induction n as [|n IH]; intros g; simpl; [reflexivity|].
  destruct (rk_double g) as [u g1]. specialize (IH g1).
  destruct (np_random_rand1 n g1) as [us g2]. simpl in *. congruence.
Qed.

(** With four parameters the mask of line 110 fits: the first three
    entries follow the three doubles drawn, the last is the mutated
    one. *)
Lemma crossover_four (t0 t1 t2 t3 i0 i1 i2 i3 : float) (g : G) :
  let u0 := fst (rk_double g) in
  let g1 := snd (rk_double g) in
  let u1 := fst (rk_double g1) in
  let g2 := snd (rk_double g1) in
  let u2 := fst (rk_double g2) in
  let g3 := snd (rk_double g2) in
  crossover self [t0; t1; t2; t3] [i0; i1; i2; i3] g
  = Ok ([if (u0 <=? kcross self)%float then t0 else i0;
         if (u1 <=? kcross self)%float then t1 else i1;
         if (u2 <=? kcross self)%float then t2 else i2;
         t3], g3).
Proof.
  unfold crossover. simpl.
  destruct (rk_double g) as [u0 g1]. simpl.
  destruct (rk_double g1) as [u1 g2]. simpl.
  destruct (rk_double g2) as [u2 g3]. simpl.
  reflexivity.
Qed.

(** The mask has four entries whatever [nparam] is, so vectors of any
    other length than four or one do not broadcast against it. *)
Lemma crossover_other_lengths (trial ind : ndarray1) (g : G) :
  length trial = length ind ->
  length ind <> 4 ->
  length ind <> 1 ->
  crossover self trial ind g = Raise broadcast_error.
Proof.
  intros Hl H4 H1. unfold crossover.
  pose proof (rand1_length 3 g) as Hr.
  destruct (np_random_rand1 3 g) as [us g1]. simpl in Hr.
  unfold np_where. rewrite length_app, length_map, Hr, Hl. simpl.
  unfold broadcast_shape.
  destruct (4 =? length ind) eqn:E4; [apply Nat.eqb_eq in E4; lia|].
  simpl.
  destruct (length ind =? 1) eqn:E1; [apply Nat.eqb_eq in E1; lia|].
  reflexivity.
Qed.

(** A single parameter broadcasts against the mask, and the trial
    becomes a vector of four entries. *)
Lemma crossover_one_parameter (t i : float) (g : G) :
  exists v g', crossover self [t] [i] g = Ok (v, g') /\ length v = 4.
Proof.
  unfold crossover.
  pose proof (rand1_length 3 g) as Hr.
  destruct (np_random_rand1 3 g) as [us g1]. simpl in Hr.
  destruct us as [|u0 [|u1 [|u2 [|u3 us]]]]; try discriminate.
  simpl. eexists. eexists. split; reflexivity.
Qed.

End Crossover.

(** C2 at the notebook's configuration cut down to two parameters: the
    setup succeeds and the first inner iteration raises on [np.where],
    because the crossover mask has the four entries of [nparam = 4]. *)
Theorem crossover_fails_for_two_parameters :
  let self := Notebook.engine Notebook.sq_dist 2 5 3
                (Some [(1e6, 1e8); (0.5, 2.0)]%float) None in
  exists s0,
    solver_setup self Notebook.tape = Ok s0 /\
    diff_evolution_solver self Notebook.globals Notebook.tape
    = Ok (s0, Interrupted broadcast_error s0) /\
    result self Notebook.globals Notebook.tape = Raise broadcast_error.
Proof.
  cbv zeta. eexists. split; [vm_compute; reflexivity|].
  split; vm_compute; reflexivity.
Qed.

(** * Bound repair *)

(** On a column without NaN, [min()] is an entry of the column that is
    below every entry, and [max()] one that is above every entry. *)
Lemma fold_scalar_min (xs : list float) :
  forall acc,
    is_nan acc = false ->
    Forall (fun x => is_nan x = false) xs ->
    let m := fold_left scalar_min xs acc in
    is_nan m = false /\ (m <=? acc)%float = true /\
    Forall (fun x => (m <=? x)%float = true) xs /\
    In m (acc :: xs).
Proof.
  induction xs as [|x xs IH]; intros acc Ha Hxs; simpl.
  - repeat split; auto using float_le_refl.
  - inversion Hxs as [|? ? Hx Hxs']; subst.
    assert (Hs : is_nan (scalar_min acc x) = false /\
                 (scalar_min acc x <=? acc)%float = true /\
                 (scalar_min acc x <=? x)%float = true /\
                 (scalar_min acc x = acc \/ scalar_min acc x = x)).
    { unfold scalar_min. rewrite Ha, orb_false_r.
      destruct (acc <=? x)%float eqn:E.
      - repeat split; auto using float_le_refl.
      - repeat split; auto using float_le_refl, float_le_total. }
    destruct Hs as (Hn & Hla & Hlx & Hin).
    destruct (IH (scalar_min acc x) Hn Hxs') as (Hn' & Hl' & Hall & Hin').
    repeat split.
    + assumption.
    + eapply float_le_trans; eassumption.
    + constructor; [eapply float_le_trans; eassumption | assumption].
    + destruct Hin' as [<-|Hin']; [|auto].
      destruct Hin as [->| ->]; auto.
Qed.

Lemma fold_scalar_max (xs : list float) :
  forall acc,
    is_nan acc = false ->
    Forall (fun x => is_nan x = false) xs ->
    let m := fold_left scalar_max xs acc in
    is_nan m = false /\ (acc <=? m)%float = true /\
    Forall (fun x => (x <=? m)%float = true) xs /\
    In m (acc :: xs).
Proof.
  induction xs as [|x xs IH]; intros acc Ha Hxs; simpl.
  - repeat split; auto using float_le_refl.
  - inversion Hxs as [|? ? Hx Hxs']; subst.
    assert (Hs : is_nan (scalar_max acc x) = false /\
                 (acc <=? scalar_max acc x)%float = true /\
                 (x <=? scalar_max acc x)%float = true /\
                 (scalar_max acc x = acc \/ scalar_max acc x = x)).
    { unfold scalar_max. rewrite Ha, orb_false_r.
      destruct (x <=? acc)%float eqn:E.
      - repeat split; auto using float_le_refl.
      - repeat split; auto using float_le_refl, float_le_total. }
    destruct Hs as (Hn & Hla & Hlx & Hin).
    destruct (IH (scalar_max acc x) Hn Hxs') as (Hn' & Hl' & Hall & Hin').
    repeat split.
    + assumption.
    + eapply float_le_trans; eassumption.
    + constructor; [eapply float_le_trans; eassumption | assumption].
    + destruct Hin' as [<-|Hin']; [|auto].
      destruct Hin as [->| ->]; auto.
Qed.

Lemma np_min_spec (c : ndarray1) (m : float) :
  np_min c = Ok m ->
  Forall (fun x => is_nan x = false) c ->
  In m c /\ Forall (fun x => (m <=? x)%float = true) c.
Proof.
  destruct c as [|v c]; [discriminate|]. intros [= <-] Hc.
  inversion Hc as [|? ? Hv Hc']; subst.
  destruct (fold_scalar_min c v Hv Hc') as (_ & Hl & Hall & Hin).
  split; [assumption|]. constructor; assumption.
Qed.

Lemma np_max_spec (c : ndarray1) (m : float) :
  np_max c = Ok m ->
  Forall (fun x => is_nan x = false) c ->
  In m c /\ Forall (fun x => (x <=? m)%float = true) c.
Proof.
  destruct c as [|v c]; [discriminate|]. intros [= <-] Hc.
  inversion Hc as [|? ? Hv Hc']; subst.
  destruct (fold_scalar_max c v Hv Hc') as (_ & Hl & Hall & Hin).
  split; [assumption|]. constructor; assumption.
Qed.

Section Repair.
Context {G : Type} `{RandomState G}.

(** The value that replaces an entry: the column's minimum plus the next
    uniform draw times the column's spread.  No bound enters it. *)
Lemma resample_value (p : ndarray2) (j : nat) (g g' : G) (x : float) :
  resample p j g = Ok (x, g') ->
  exists c mn mx,
    column p j = Ok c /\ np_min c = Ok mn /\ np_max c = Ok mx /\
    x = (mn + (0 + 1 * fst (rk_double g)) * (mx - mn))%float /\
    g' = snd (rk_double g).
Proof.
  unfold resample, np_random_uniform. intros E.
  inv_bind E as c Ec.
  inv_bind E as mn Emn.
  destruct (rk_double g) as [u g1]. simpl.
  inv_bind E as mx Emx.
  injection E as <- <-. exists c, mn, mx. auto.
Qed.

(** The loop of lines 112 to 114 against the module-level [bounds]: an
    entry inside its interval is kept, any other entry is replaced by a
    resampled value. *)
Lemma bound_repair_spec (gl : Globals) (p : ndarray2)
  (bs : list (float * float)) :
  g_bounds gl = Some bs ->
  forall (t : ndarray1) (j : nat) (g : G) (t' : ndarray1) (g' : G),
    bound_repair gl p j t g = Ok (t', g') ->
    length t' = length t /\
    forall k x,
      nth_error t k = Some x ->
      exists b,
        nth_error bs (j + k) = Some b /\
        if inside b x then nth_error t' k = Some x
        else exists g1 g2 y,
            resample p (j + k) g1 = Ok (y, g2) /\ nth_error t' k = Some y.
Proof.
  intros Hb. induction t as [|x0 t IH]; intros j g t' g' E; simpl in E.
  - injection E as <- <-. split; [reflexivity|].
    intros k x Hk. destruct k; discriminate.
  - rewrite Hb in E. simpl in E.
    inv_bind E as b Eb.
    apply getrow_ok in Eb. destruct Eb as [Eb _].
    destruct (inside b x0) eqn:Ein; simpl in E.
    + inv_bind E as [rest g2] Er.
      injection E as <- <-.
      destruct (IH _ _ _ _ Er) as [Hl Hk]. split; [simpl; congruence|].
      intros [|k] x Hx; simpl in Hx.
      * injection Hx as <-. exists b. rewrite Nat.add_0_r, Ein. auto.
      * destruct (Hk k x Hx) as [b' [Hb' Hc]]. exists b'.
        rewrite Nat.add_succ_r. auto.
    + inv_bind E as [y g1] Ey.
      inv_bind E as [rest g2] Er.
      injection E as <- <-.
      destruct (IH _ _ _ _ Er) as [Hl Hk]. split; [simpl; congruence|].
      intros [|k] x Hx; simpl in Hx.
      * injection Hx as <-. exists b. rewrite Nat.add_0_r, Ein.
        split; [assumption|]. exists g, g1, y. auto.
      * destruct (Hk k x Hx) as [b' [Hb' Hc]]. exists b'.
        rewrite Nat.add_succ_r. auto.
Qed.

(** Without a module-level [bounds] the loop raises at its first
    entry. *)
Lemma bound_repair_unbound_name (p : ndarray2) (j : nat) (x : float)
  (t : ndarray1) (g : G) (k : option float) :
  bound_repair (mkGlobals k None) p j (x :: t) g = Raise (NameError "bounds").
Proof. reflexivity. Qed.

End Repair.

(** C7 at an engine constructed in the notebook with the bound
    [(1e6, 2e7)] on the first parameter, while the module-level [bounds]
    of cell 9 has [(1e6, 1e8)] there: the trial value [21009375] of the
    first inner iteration is outside the interval the engine was
    configured with, and bound repair keeps it. *)
Theorem repair_uses_module_bounds :
  let configured := [(1e6, 2e7); (0.5, 2.0); (0.3, 1.5); (0.0, 0.1)]%float in
  let self := mkDE Notebook.sq_dist 0.2%float 1%float 4 5 1
                [2e7; 1.4; 0.9; 0.05]%float (Some configured) None in
  exists s0 t1 trial g3,
    solver_setup self Notebook.tape = Ok s0 /\
    make_trial self Notebook.globals 0 s0 = Ok (t1, trial, g3) /\
    nth_error t1 0 = Some 21009375%float /\
    nth_error configured 0 = Some (1e6, 2e7)%float /\
    inside (1e6, 2e7)%float 21009375%float = false /\
    nth_error trial 0 = Some 21009375%float.
Proof.
  cbv zeta. do 4 eexists.
  split; [vm_compute; reflexivity|].
  split; [vm_compute; reflexivity|].
  repeat split; vm_compute; reflexivity.
Qed.

(** * Invariants of a run *)

Section Preservation.
Context {G : Type} `{RandomState G}.
Variable Data : Type.
Variable self : DifferentialEvolution Data.
Variable gl : Globals.
Variable P : @state G -> Prop.
Hypothesis P_inner : forall i s s', P s -> inner self gl i s = Ok s' -> P s'.

(** A property kept by every inner iteration holds in the state a run
    ends in, whether the run completes or is interrupted. *)
Lemma members_preserves (idxs : list nat) (s : state) :
  P s -> P (final (members self gl idxs s)).
Proof.
  revert s. induction idxs as [|i idxs IH]; intros s Hs; simpl; [assumption|].
  destruct (inner self gl i s) as [s'|e] eqn:E; simpl; [|assumption].
  apply IH. eapply P_inner; eassumption.
Qed.

Lemma generations_preserves (n : nat) (s : state) :
  P s -> P (final (generations self gl n s)).
Proof.
  revert s. induction n as [|n IH]; intros s Hs; simpl; [assumption|].
  pose proof (members_preserves (seq 0 (length (pop s))) s Hs) as Hm.
  destruct (members self gl (seq 0 (length (pop s))) s) as [s'|e s'];
    simpl in *; [apply IH|]; assumption.
Qed.

End Preservation.

Lemma nth_replace_nth_neq {A : Type} (d v : A) (l : list A) (i k : nat) :
  k <> i -> nth k (replace_nth i v l) d = nth k l d.
Proof.
  revert i k. induction l as [|x l IH]; intros i k Hk; simpl.
  - destruct i; reflexivity.
  - destruct i as [|i], k as [|k]; simpl; try reflexivity; try lia.
    apply IH. lia.
Qed.

Lemma replace_nth_length {A : Type} (v : A) (l : list A) (i : nat) :
  length (replace_nth i v l) = length l.
Proof.
  revert i. induction l as [|x l IH]; intros i; simpl.
  - destruct i; reflexivity.
  - destruct i; simpl; [reflexivity|]. f_equal. apply IH.
Qed.

Lemma In_replace_nth {A : Type} (v x : A) (l : list A) (i : nat) :
  In x (replace_nth i v l) -> x = v \/ In x l.
Proof.
  revert i. induction l as [|y l IH]; intros i Hx; simpl in *.
  - destruct i; contradiction.
  - destruct i as [|i]; simpl in Hx.
    + destruct Hx as [<-|Hx]; auto.
    + destruct Hx as [<-|Hx]; auto. destruct (IH i Hx); auto.
Qed.

(** An assignment [a[i] = v] leaves every other row alone, and stores
    either [v] or, for a [v] of length one, its broadcast. *)
Lemma setrow_other (a a' : ndarray2) (i k : nat) (v : ndarray1) :
  setrow a i v = Ok a' -> k <> i -> nth k a' [] = nth k a [].
Proof.
  unfold setrow. intros E Hk.
  inv_bind E as r _.
  destruct (length v =? length r).
  - injection E as <-. apply nth_replace_nth_neq. assumption.
  - destruct (length v =? 1); [|discriminate].
    injection E as <-. apply nth_replace_nth_neq. assumption.
Qed.

Lemma setrow_length (a a' : ndarray2) (i : nat) (v : ndarray1) :
  setrow a i v = Ok a' -> length a' = length a.
Proof.
  unfold setrow. intros E.
  inv_bind E as r _.
  destruct (length v =? length r).
  - injection E as <-. apply replace_nth_length.
  - destruct (length v =? 1); [|discriminate].
    injection E as <-. apply replace_nth_length.
Qed.

(** ** Costs along a run *)

Lemma last_cons_indep {A : Type} (l : list A) (y d d' : A) :
  last (y :: l) d = last (y :: l) d'.
Proof.
  revert y. induction l as [|x l IH]; intros y; [reflexivity|].
  change (last (x :: l) d = last (x :: l) d'). apply IH.
Qed.

Lemma last_cons_In {A : Type} (l : list A) (y d : A) :
  In (last (y :: l) d) (y :: l).
Proof.
  revert y. induction l as [|x l IH]; intros y; [left; reflexivity|].
  right. change (In (last (x :: l) d) (x :: l)). apply IH.
Qed.

Lemma chain_snoc (R : float -> float -> Prop) (prev c : float)
  (cs : list float) :
  chain R prev cs -> R (last cs prev) c -> chain R prev (cs ++ [c]).
Proof.
  revert prev. induction cs as [|x cs IH]; intros prev Hc Hl.
  - simpl in *. auto.
  - destruct Hc as [Hx Hc]. split; [assumption|]. apply IH; [assumption|].
    destruct cs as [|y cs]; [exact Hl|].
    rewrite (last_cons_indep cs y x prev). exact Hl.
Qed.

Lemma last_snoc {A : Type} (l : list A) (x d : A) : last (l ++ [x]) d = x.
Proof.
  induction l as [|y l IH]; simpl; [reflexivity|].
  destruct (l ++ [x]) eqn:E; [destruct l; discriminate|]. assumption.
Qed.

Lemma below_trans (a b c : float) : below a b -> below b c -> below a c.
Proof. unfold below. intros Hab Hbc. eapply cost_lt_trans; eassumption. Qed.

Lemma not_above_trans (a b c : float) :
  not_above a b -> not_above b c -> not_above a c.
Proof.
  unfold not_above. intros [->|Hab] [->|Hbc]; auto.
  right. eapply cost_lt_trans; eassumption.
Qed.

(** A chain of a transitive relation relates every element to all the
    later ones. *)
Lemma chain_strongly_sorted (R : float -> float -> Prop) :
  (forall a b c, R a b -> R b c -> R a c) ->
  forall cs prev, chain R prev cs -> StronglySorted R (prev :: cs).
Proof.
  intros Htr. induction cs as [|c cs IH]; intros prev Hc.
  - constructor; constructor.
  - destruct Hc as [Hpc Hc]. specialize (IH c Hc).
    constructor; [assumption|].
    constructor; [assumption|].
    inversion IH as [|? ? _ Hall]; subst.
    apply Forall_forall. intros x Hx.
    apply Htr with (b := c); [assumption|].
    rewrite Forall_forall in Hall. auto.
Qed.

Section Costs.
Context {G : Type} `{RandomState G}.
Variable Data : Type.
Variable self : DifferentialEvolution Data.
Variable gl : Globals.

Lemma cost_inv_setup (g : G) (s0 : state) :
  solver_setup self g = Ok s0 -> cost_inv self (lst_err s0) s0.
Proof.
  intros E. destruct (solver_setup_inv Data self g s0 E)
    as (p & g1 & k & err & _ & El & Hk & ->).
  constructor; simpl; try constructor.
  unfold least_error_idx in El.
  destruct (npop self <? 0)%Z; [discriminate|].
  destruct (Z.to_nat (npop self) <? length p); [discriminate|].
  inv_bind El as k' _.
  injection El as -> <-.
  unfold best_vector, cost_of. simpl.
  rewrite app_nth1 by (rewrite length_map; assumption).
  rewrite nth_indep with (d' := func self [] (data self))
    by (rewrite length_map; assumption).
  rewrite map_nth with (f := fun row => func self row (data self)).
  reflexivity.
Qed.

Lemma cost_inv_inner (c0 : float) (i : nat) (s s' : state) :
  cost_inv self c0 s -> inner self gl i s = Ok s' -> cost_inv self c0 s'.
Proof.
  intros [Hb Hs Hsl Ht Htl Hp Ho] E. unfold inner in E.
  inv_bind E as [[t1 trial] g3] _.
  fold (cost_of self trial) in E. fold (cost_of self (nth i (pop s) [])) in E.
  destruct (cost_of self trial <? cost_of self (nth i (pop s) []))%float
    eqn:Hlt.
  - inv_bind E as p' Ep.
    destruct (cost_of self trial <? lst_err s)%float eqn:Hbest.
    + injection E as <-. constructor; simpl.
      * reflexivity.
      * rewrite map_app. simpl. apply chain_snoc; [assumption|].
        rewrite Hsl. exact Hbest.
      * rewrite map_app. simpl. apply last_snoc.
      * rewrite map_app. simpl. apply chain_snoc; [assumption|].
        rewrite Htl. right. exact Hbest.
      * rewrite map_app. simpl. apply last_snoc.
      * apply Forall_app. split; [assumption|]. constructor; [reflexivity|].
        constructor.
      * apply Forall_app. split; [assumption|]. constructor; [reflexivity|].
        constructor.
    + assert (Hd : cost_of self (deref p' (bestfit s)) = lst_err s).
      { rewrite <- Hb. unfold best_vector.
        destruct (bestfit s) as [k|v] eqn:Ebf; simpl; [|reflexivity].
        destruct (Nat.eq_dec k i) as [->|Hne].
        - exfalso. unfold best_vector in Hb. rewrite Ebf in Hb. simpl in Hb.
          rewrite Hb in Hlt. congruence.
        - rewrite (setrow_other (pop s) p' i k trial Ep Hne). reflexivity. }
      injection E as <-. constructor; simpl; try assumption.
      * rewrite map_app. simpl. apply chain_snoc; [assumption|].
        rewrite Htl. left. reflexivity.
      * rewrite map_app. simpl. apply last_snoc.
      * apply Forall_app. split; [assumption|]. constructor; [exact Hd|].
        constructor.
  - injection E as <-. constructor; simpl; try assumption.
    + rewrite map_app. simpl. apply chain_snoc; [assumption|].
      rewrite Htl. left. reflexivity.
    + rewrite map_app. simpl. apply last_snoc.
    + apply Forall_app. split; [assumption|]. constructor; [exact Hb|].
      constructor.
Qed.

(** C4: in every run, completed or interrupted, the costs of the
    improvement stream are in strictly decreasing order (each one below
    the initial best cost and below every earlier one), each yielded
    cost is the evaluator's value at the yielded vector, and the cost of
    the Best-Fit State, observed after every inner iteration, never
    increases and stays the evaluator's value at the best-fit vector. *)
Theorem improvements_strictly_decrease (g : G) (s0 : state) (o : outcome) :
  diff_evolution_solver self gl g = Ok (s0, o) ->
  StronglySorted below (lst_err s0 :: map snd (emitted (final o))) /\
  StronglySorted not_above (lst_err s0 :: map ob_cost (trace (final o))) /\
  Forall (fun y => cost_of self (fst y) = snd y) (emitted (final o)) /\
  Forall (fun ob => cost_of self (ob_best ob) = ob_cost ob)
    (trace (final o)) /\
  cost_of self (best_vector (final o)) = lst_err (final o) /\
  not_above (lst_err s0) (lst_err (final o)).
Proof.
  unfold diff_evolution_solver. intros E.
  inv_bind E as s1 E1. injection E as -> <-.
  pose proof (cost_inv_setup g s0 E1) as H0.
  pose proof (generations_preserves Data self gl (cost_inv self (lst_err s0))
                (cost_inv_inner (lst_err s0)) (Z.to_nat (niter self)) s0 H0)
    as [Hb Hs Hsl Ht Htl Hp Ho].
  pose proof (chain_strongly_sorted below below_trans _ _ Hs) as Hss.
  pose proof (chain_strongly_sorted not_above not_above_trans _ _ Ht) as Hts.
  repeat split; try assumption.
  rewrite <- Htl.
  destruct (map ob_cost (trace (final (generations self gl
              (Z.to_nat (niter self)) s0)))) as [|c cs] eqn:Ec.
  - left. reflexivity.
  - inversion Hts as [|? ? _ Hall]; subst.
    rewrite Forall_forall in Hall. apply Hall. apply last_cons_In.
Qed.

End Costs.

(** The notebook's configuration with five members and three
    generations: the stream has three elements. *)
Lemma improvements_strictly_decrease_witness :
  let self := Notebook.engine Notebook.sq_dist 4 5 3
                (Some Notebook.bounds) None in
  exists s0 o,
    diff_evolution_solver self Notebook.globals Notebook.tape = Ok (s0, o) /\
    length (emitted (final o)) = 3 /\
    (StronglySorted below (lst_err s0 :: map snd (emitted (final o))) /\
     StronglySorted not_above (lst_err s0 :: map ob_cost (trace (final o))) /\
     Forall (fun y => cost_of self (fst y) = snd y) (emitted (final o)) /\
     Forall (fun ob => cost_of self (ob_best ob) = ob_cost ob)
       (trace (final o)) /\
     cost_of self (best_vector (final o)) = lst_err (final o) /\
     not_above (lst_err s0) (lst_err (final o))).
Proof.
  cbv zeta.
  destruct (diff_evolution_solver
              (Notebook.engine Notebook.sq_dist 4 5 3
                 (Some Notebook.bounds) None)
              Notebook.globals Notebook.tape) as [[s0 o]|e] eqn:Er;
    [|vm_compute in Er; discriminate].
  exists s0, o. split; [reflexivity|].
  split;
    [|exact (improvements_strictly_decrease _ _ Notebook.globals
               Notebook.tape s0 o Er)].
  vm_compute in Er. injection Er as <- <-. reflexivity.
Defined.

(** * Rounding in binary64

    What the bound repair and the rescaling of the initial draws compute
    is [a + u * (b - a)] in binary64.  This part derives, from the
    specification of the primitive operations, that the result lies
    between [a] and [b] when [u] is in [[0, 1)] and no difference
    overflows.  Finite numbers are read as integers scaled by
    [2^2200]. *)

Module Binary64.

Local Open Scope Z_scope.
Lemma pow2_pos (k : Z) : 0 <= k -> 0 < 2 ^ k.
Proof. intros. apply Z.pow_pos_nonneg; lia. Qed.

Lemma pow2_succ (k : Z) : 0 <= k -> 2 ^ (k + 1) = 2 * 2 ^ k.
Proof. intros. rewrite Z.pow_add_r by lia. lia. Qed.

Lemma digits2_pos_bounds (p : positive) :
  2 ^ (Zpos (digits2_pos p) - 1) <= Zpos p < 2 ^ (Zpos (digits2_pos p)).
Proof.
  induction p as [p IH|p IH|]; cbn [digits2_pos].
  - rewrite Pos2Z.inj_succ.
    replace (Z.succ (Zpos (digits2_pos p)) - 1) with (Zpos (digits2_pos p) - 1 + 1) by lia.
    replace (Z.succ (Zpos (digits2_pos p))) with (Zpos (digits2_pos p) + 1) by lia.
    rewrite !pow2_succ by lia. lia.
  - rewrite Pos2Z.inj_succ.
    replace (Z.succ (Zpos (digits2_pos p)) - 1) with (Zpos (digits2_pos p) - 1 + 1) by lia.
    replace (Z.succ (Zpos (digits2_pos p))) with (Zpos (digits2_pos p) + 1) by lia.
    rewrite !pow2_succ by lia. lia.
  - simpl. lia.
Qed.

(** The shift-right record after [n] steps on the mantissa [m]. *)
Definition shr_inv (m n : Z) (r : shr_record) : Prop :=
  let q := shr_m r in
  let rem := m - q * 2 ^ n in
  0 <= q /\ 0 <= rem < 2 ^ n /\
  match shr_r r, shr_s r with
  | false, false => rem = 0
  | false, true => 0 < 2 * rem < 2 ^ n
  | true, false => 2 * rem = 2 ^ n
  | true, true => 2 ^ n < 2 * rem
  end.

Lemma shr_inv_init (m : Z) : 0 <= m -> shr_inv m 0 (shr_record_of_loc m loc_Exact).
Proof. intros Hm. unfold shr_inv. simpl. lia. Qed.

Lemma shr_inv_step (m n : Z) (r : shr_record) :
  0 <= n -> shr_inv m n r -> shr_inv m (n + 1) (shr_1 r).
Proof.
  intros Hn. destruct r as [q rb sb]. unfold shr_inv. cbn [shr_m shr_r shr_s].
  intros (Hq & Hrem & Hcl). rewrite pow2_succ by assumption.
  pose proof (pow2_pos n Hn) as Hp. set (P := 2 ^ n) in *. clearbody P.
  destruct q as [|[q|q|]|q]; try lia; cbn [shr_1 shr_m shr_r shr_s];
    destruct rb, sb; cbn [orb]; lia.
Qed.

Lemma shr_inv_iter (m : Z) (p : positive) :
  forall n r, 0 <= n -> shr_inv m n r ->
    shr_inv m (n + Zpos p) (iter_pos shr_1 p r).
Proof.
  induction p as [p IH|p IH|]; intros n r Hn Hr; cbn [iter_pos].
  - replace (n + Zpos p~1) with (n + 1 + Zpos p + Zpos p) by lia.
    apply IH; [lia|]. apply IH; [lia|]. apply shr_inv_step; assumption.
  - replace (n + Zpos p~0) with (n + Zpos p + Zpos p) by lia.
    apply IH; [lia|]. apply IH; assumption.
  - apply shr_inv_step; assumption.
Qed.

(** Rounding to nearest: the rounded quotient is within half a step. *)
Lemma round_nearest (m n : Z) (r : shr_record) :
  0 <= n -> shr_inv m n r ->
  let q' := round_nearest_even (shr_m r) (loc_of_shr_record r) in
  shr_m r <= q' <= shr_m r + 1 /\
  2 * Z.abs (q' * 2 ^ n - m) <= 2 ^ n /\
  (2 * Z.abs (q' * 2 ^ n - m) = 2 ^ n -> Z.even q' = true).
Proof.
  intros Hn. destruct r as [q rb sb]. unfold shr_inv. cbn [shr_m shr_r shr_s].
  intros (Hq & Hrem & Hcl).
  pose proof (pow2_pos n Hn) as Hp. set (P := 2 ^ n) in *. clearbody P.
  destruct rb, sb; cbn [loc_of_shr_record round_nearest_even].
  - split; [lia|]. split; [nia|]. intros Ht. exfalso. nia.
  - destruct (Z.even q) eqn:Ev.
    + split; [lia|]. split; [nia|]. intros _. exact Ev.
    + split; [lia|]. split; [nia|]. intros _.
      rewrite Z.even_add, Ev. reflexivity.
  - split; [lia|]. split; [nia|]. intros Ht. exfalso. nia.
  - split; [lia|]. split; [nia|]. intros Ht. exfalso. nia.
Qed.

Lemma fexp_eq (k : Z) : fexp prec emax k = Z.max (k - 53) (-1074).
Proof. reflexivity. Qed.

Lemma pow2_le (a b : Z) : 0 <= a <= b -> 2 ^ a <= 2 ^ b.
Proof. intros. apply Z.pow_le_mono_r; lia. Qed.

Lemma pow2_split (a b : Z) : 0 <= a -> 0 <= b -> 2 ^ (a + b) = 2 ^ a * 2 ^ b.
Proof. intros. apply Z.pow_add_r; assumption. Qed.

Lemma digits_le_aux (m : positive) :
  Zpos (digits2_pos m) <= 53 -> Zpos m < 2 ^ 53.
Proof.
  intros Hd. pose proof (digits2_pos_bounds m) as [_ H].
  assert (2 ^ Zpos (digits2_pos m) <= 2 ^ 53) by (apply pow2_le; lia). lia.
Qed.

(** What [binary_round_aux] returns on an exact positive mantissa whose
    exponent is not above the exponent of its format. *)
Lemma bra_spec (s : bool) (m : positive) (e : Z) :
  let E := fexp prec emax (Zpos (digits2_pos m) + e) in
  e <= E ->
  exists q',
    2 * Z.abs (q' * 2 ^ (E - e) - Zpos m) <= 2 ^ (E - e) /\
    (2 * Z.abs (q' * 2 ^ (E - e) - Zpos m) = 2 ^ (E - e) ->
     Z.even q' = true) /\
    0 <= q' <= 2 ^ 53 /\
    (-1074 < E -> 2 ^ 52 <= q') /\
    let r := binary_round_aux prec emax s (Zpos m) e loc_Exact in
    ((q' = 0 /\ r = S754_zero s) \/
     (exists m'' e'', r = S754_finite s m'' e'' /\ E <= e'' <= 971 /\
                      Zpos m'' < 2 ^ 53 /\
                      Zpos m'' * 2 ^ (e'' - E) = q') \/
     (r = S754_infinity s /\ 971 <= E /\ 2 ^ 1024 <= q' * 2 ^ E)).
Proof.
  intros E HE.
  pose proof (digits2_pos_bounds m) as Hd.
  set (d := Zpos (digits2_pos m)) in *.
  assert (Hd1 : 1 <= d) by (unfold d; lia).
  assert (HEq : E = Z.max (d + e - 53) (-1074)) by reflexivity.
  set (n := E - e).
  assert (Hn : 0 <= n) by (unfold n; lia).
  (* first shift *)
  assert (H1 : exists mrs',
             shr_fexp prec emax (Zpos m) e loc_Exact = (mrs', E) /\
             shr_inv (Zpos m) n mrs').
  { unfold shr_fexp. cbn [Zdigits2]. fold d. fold E. fold n.
    unfold shr. destruct n as [|p|p] eqn:En; try lia.
    - eexists. split; [f_equal; unfold n in En; lia|].
      apply shr_inv_init. lia.
    - eexists. split; [f_equal; unfold n in En; lia|].
      apply (shr_inv_iter (Zpos m) p 0); [lia|]. apply shr_inv_init. lia. }
  destruct H1 as (mrs' & E1 & Hinv).
  pose proof (round_nearest (Zpos m) n mrs' Hn Hinv) as Hr. cbv zeta in Hr.
  remember (round_nearest_even (shr_m mrs') (loc_of_shr_record mrs')) as q'
    eqn:Hq'def.
  destruct Hr as (Hq' & Hnear & Htie).
  destruct Hinv as (Hq0 & Hrem & _).
  remember (shr_m mrs') as q eqn:Hqdef.
  pose proof (pow2_pos n Hn) as Hpn.
  (* bounds on the quotient *)
  assert (Hqlt : q < 2 ^ 53).
  { assert (Hdn : d <= n + 53) by (unfold n; lia).
    assert (H2 : 2 ^ d <= 2 ^ (n + 53)) by (apply pow2_le; lia).
    rewrite pow2_split in H2 by lia.
    assert (H3 : q * 2 ^ n < 2 ^ n * 2 ^ 53) by lia.
    nia. }
  assert (Hqge : -1074 < E -> 2 ^ 52 <= q).
  { intros HE1. assert (Hdn : d - 1 = n + 52) by (unfold n; lia).
    assert (H2 : 2 ^ (d - 1) = 2 ^ n * 2 ^ 52)
      by (rewrite Hdn; apply pow2_split; lia).
    assert (H3 : 2 ^ n * 2 ^ 52 < (q + 1) * 2 ^ n) by lia.
    nia. }
  exists q'. split; [exact Hnear|]. split; [exact Htie|]. split; [lia|].
  split; [intros; specialize (Hqge H); lia|].
  cbv zeta. unfold binary_round_aux. rewrite E1. rewrite <- Hqdef, <- Hq'def.
  clear Hq'def.
  (* second shift *)
  destruct q' as [|pq|pq] eqn:Eq'; try lia.
  - left. split; [reflexivity|].
    unfold shr_fexp. cbn [Zdigits2]. unfold shr.
    rewrite fexp_eq.
    destruct (Z.max (0 + E - 53) (-1074) - E) eqn:En2; try lia; reflexivity.
  - right.
    pose proof (digits2_pos_bounds pq) as Hdq.
    set (dq := Zpos (digits2_pos pq)) in *.
    assert (Hdq1 : 1 <= dq) by (unfold dq; lia).
    destruct (Z_le_gt_dec dq 53) as [Hle|Hgt].
    + (* no second shift *)
      assert (E2 : shr_fexp prec emax (Zpos pq) E loc_Exact
                   = (shr_record_of_loc (Zpos pq) loc_Exact, E)).
      { unfold shr_fexp. cbn [Zdigits2]. fold dq. unfold shr. rewrite fexp_eq.
        destruct (Z.max (dq + E - 53) (-1074) - E) eqn:En2; try lia; reflexivity. }
      rewrite E2. cbn [shr_m shr_record_of_loc].
      destruct (E <=? emax - prec) eqn:Eov.
      * left. exists pq, E. apply Z.leb_le in Eov.
        change (emax - prec) with 971 in Eov.
        split; [reflexivity|]. split; [lia|].
        split; [apply digits_le_aux; assumption|].
        rewrite Z.sub_diag. lia.
      * right. apply Z.leb_gt in Eov. change (emax - prec) with 971 in Eov.
        split; [reflexivity|]. split; [lia|].
        assert (H52 : 2 ^ 52 <= Zpos pq) by (specialize (Hqge ltac:(lia)); lia).
        assert (H972 : 2 ^ 972 <= 2 ^ E) by (apply pow2_le; lia).
        change (2 ^ 1024) with (2 ^ 52 * 2 ^ 972).
        apply Z.mul_le_mono_nonneg; lia.
    + (* the rounded mantissa is 2^53 *)
      assert (Hdq54 : 2 ^ 53 <= Zpos pq).
      { assert (2 ^ 53 <= 2 ^ (dq - 1)) by (apply pow2_le; lia). lia. }
      assert (Hpq : pq = 9007199254740992%positive).
      { change (2 ^ 53) with 9007199254740992 in *. lia. }
      subst pq.
      assert (E2 : shr_fexp prec emax 9007199254740992 E loc_Exact
                   = (shr_1 (shr_record_of_loc 9007199254740992 loc_Exact), E + 1)).
      { unfold shr_fexp. cbn [Zdigits2 digits2_pos]. unfold shr. rewrite fexp_eq.
        cbn [Pos.succ].
        destruct (Z.max (54 + E - 53) (-1074) - E) as [|p|p] eqn:En2; try lia.
        assert (p = 1%positive) by lia. subst p. reflexivity. }
      rewrite E2. cbn [shr_1 shr_record_of_loc shr_m].
      destruct (E + 1 <=? emax - prec) eqn:Eov.
      * left. eexists _, (E + 1). apply Z.leb_le in Eov.
        change (emax - prec) with 971 in Eov.
        split; [reflexivity|]. split; [lia|]. split; [reflexivity|].
        replace (E + 1 - E) with 1 by lia. reflexivity.
      * right. apply Z.leb_gt in Eov. change (emax - prec) with 971 in Eov.
        split; [reflexivity|]. split; [lia|].
        assert (H971 : 2 ^ 971 <= 2 ^ E) by (apply pow2_le; lia).
        change (2 ^ 1024) with (9007199254740992 * 2 ^ 971).
        apply Z.mul_le_mono_nonneg; try lia.
Qed.

(** ** Values, scaled by [2^2200] so that every exact sum, difference
    and product of two finite numbers is an integer *)

Definition dy (n k : Z) : Z := n * 2 ^ (k + 2200).

Definition sval (f : spec_float) : Z :=
  match f with
  | S754_finite s m e => if s then - dy (Zpos m) e else dy (Zpos m) e
  | _ => 0
  end.

Lemma dy_shift (n j k : Z) :
  0 <= j -> -2200 <= k -> dy (n * 2 ^ j) k = dy n (k + j).
Proof.
  intros Hj Hk. unfold dy.
  replace (k + j + 2200) with (j + (k + 2200)) by lia.
  rewrite (pow2_split j (k + 2200)) by lia. ring.
Qed.

Lemma dy_pos (k : Z) : -2200 <= k -> 0 < dy 1 k.
Proof. intros. unfold dy. pose proof (pow2_pos (k + 2200)). lia. Qed.

Lemma dy_mul (n k : Z) : dy n k = n * dy 1 k.
Proof. unfold dy. ring. Qed.

Lemma dy_one_add (j k : Z) :
  0 <= j -> -2200 <= k -> dy 1 (k + j) = 2 ^ j * dy 1 k.
Proof. intros. rewrite <- dy_shift by assumption. unfold dy. ring. Qed.

(** [V] is a nearest representable value to [X]: no [M * 2^Eg] with at
    most 53 bits in [M] and [Eg] at least the least exponent is
    closer. *)
Definition Near (V X : Z) : Prop :=
  forall M Eg, Z.abs M <= 2 ^ 53 -> -1074 <= Eg ->
               Z.abs (V - X) <= Z.abs (dy M Eg - X).

Lemma near_opp (V X : Z) : Near V X -> Near (- V) (- X).
Proof.
  intros H M Eg HM HE. specialize (H (- M) Eg).
  rewrite Z.abs_opp in H. specialize (H HM HE).
  unfold dy in *. lia.
Qed.

Lemma near_exact (X : Z) : Near X X.
Proof. intros M Eg _ _. lia. Qed.

(** The result [r] is the exact value [X] rounded to nearest. *)
(** The least magnitude that rounds to an infinity: half a step above
    the largest finite number. *)
Definition thr : Z := dy (2 ^ 54 - 1) 970.

(** The result [r] is the exact value [X] rounded to nearest, ties to
    even as far as the overflow threshold is concerned. *)
Definition RN (X : Z) (r : spec_float) : Prop :=
  exists V, Near V X /\
    match r with
    | S754_zero _ => V = 0 /\ Z.abs X < thr
    | S754_finite _ _ _ => V = sval r /\ Z.abs X < thr
    | S754_infinity false => dy 1 1024 <= V
    | S754_infinity true => V <= - dy 1 1024
    | S754_nan => False
    end.

Lemma dy1_le (k1 k2 : Z) : -2200 <= k1 <= k2 -> dy 1 k1 <= dy 1 k2.
Proof.
  intros H. replace k2 with (k1 + (k2 - k1)) by lia.
  rewrite dy_one_add by lia.
  pose proof (pow2_pos (k2 - k1)). pose proof (dy_pos k1). nia.
Qed.

Lemma thr_split : thr = dy (2 ^ 53 - 1) 971 + dy 1 970.
Proof.
  unfold thr. rewrite (dy_mul (2 ^ 54 - 1)), (dy_mul (2 ^ 53 - 1)).
  pose proof (dy_one_add 1 970 ltac:(lia) ltac:(lia)) as H.
  change (970 + 1) with 971 in H. change (2 ^ 1) with 2 in H. rewrite H.
  change (2 ^ 54) with (2 * 2 ^ 53). ring.
Qed.

Lemma thr_pos : Z.abs 0 < thr.
Proof.
  rewrite thr_split, (dy_mul (2 ^ 53 - 1)).
  pose proof (dy_pos 971 ltac:(lia)). pose proof (dy_pos 970 ltac:(lia)).
  cbn [Z.abs]. nia.
Qed.

Lemma finite_below_thr (m : positive) (e q' E : Z) (m'' : positive) (e'' : Z) :
  -2200 <= e <= E -> -1074 <= E -> E <= e'' <= 971 ->
  Zpos m'' < 2 ^ 53 -> Zpos m'' * 2 ^ (e'' - E) = q' ->
  2 * Z.abs (q' * 2 ^ (E - e) - Zpos m) <= 2 ^ (E - e) ->
  (2 * Z.abs (q' * 2 ^ (E - e) - Zpos m) = 2 ^ (E - e) -> Z.even q' = true) ->
  dy (Zpos m) e < thr.
Proof.
  intros He HE He'' Hm'' Hq' Hnear Htie.
  destruct (Z_lt_le_dec (dy (Zpos m) e) thr) as [Hlt|Hge]; [assumption|].
  exfalso. rewrite thr_split in Hge.
  set (n := E - e) in *. assert (Hn : 0 <= n) by (unfold n; lia).
  pose proof (pow2_pos n Hn) as Hpn.
  assert (HP : dy 1 E = 2 ^ n * dy 1 e).
  { replace E with (e + n) by (unfold n; lia). apply dy_one_add; lia. }
  assert (Hpe : 0 < dy 1 e) by (apply dy_pos; lia).
  assert (HV : dy q' E = dy (Zpos m'') e'').
  { rewrite <- Hq'. rewrite dy_shift by lia. f_equal. lia. }
  (* the result is at most the largest finite number *)
  assert (HVmax : dy q' E <= dy (2 ^ 53 - 1) 971).
  { rewrite HV. rewrite (dy_mul (Zpos m'')), (dy_mul (2 ^ 53 - 1)).
    pose proof (dy1_le e'' 971 ltac:(lia)) as H1.
    pose proof (dy_pos e'' ltac:(lia)) as H2.
    set (c := 2 ^ 53) in *. clearbody c. nia. }
  (* the distance is at most half a step *)
  assert (Hhalf : 2 * (dy (Zpos m) e - dy q' E) <= dy 1 E).
  { rewrite (dy_mul q' E), (dy_mul (Zpos m) e), HP.
    set (P := 2 ^ n) in *. set (D := dy 1 e) in *. clearbody P D. nia. }
  pose proof (dy_one_add 1 970 ltac:(lia) ltac:(lia)) as H971.
  change (970 + 1) with 971 in H971. change (2 ^ 1) with 2 in H971.
  assert (HE971 : E = 971).
  { destruct (Z_lt_le_dec E 971) as [Hl|Hg]; [|lia].
    pose proof (dy1_le E 970 ltac:(lia)) as H1.
    pose proof (dy_pos 970 ltac:(lia)). lia. }
  assert (He971 : e'' = 971) by lia.
  subst e''. rewrite HE971 in *. rewrite Z.sub_diag in Hq'.
  change (2 ^ 0) with 1 in Hq'. rewrite Z.mul_1_r in Hq'.
  assert (Hq53 : q' = 2 ^ 53 - 1).
  { rewrite (dy_mul q' 971), (dy_mul (2 ^ 53 - 1) 971) in *.
    pose proof (dy_pos 971 ltac:(lia)) as H2.
    set (L := dy 1 971) in *. set (c := 2 ^ 53) in *. clearbody L c. nia. }
  assert (Ht : 2 * Z.abs (q' * 2 ^ n - Zpos m) = 2 ^ n).
  { assert (H1 : 2 * (dy (Zpos m) e - dy q' 971) = dy 1 971) by lia.
    rewrite (dy_mul q' 971), (dy_mul (Zpos m) e), HP in H1.
    set (P := 2 ^ n) in *. set (D := dy 1 e) in *. clearbody P D. nia. }
  specialize (Htie Ht). rewrite Hq53 in Htie. discriminate.
Qed.

Lemma near_grid (m : positive) (e q' : Z) :
  let E := fexp prec emax (Zpos (digits2_pos m) + e) in
  -2200 <= e -> e <= E ->
  2 * Z.abs (q' * 2 ^ (E - e) - Zpos m) <= 2 ^ (E - e) ->
  Near (dy q' E) (dy (Zpos m) e).
Proof.
  intros E He HE Hq M Eg HM HEg.
  pose proof (digits2_pos_bounds m) as Hd.
  set (d := Zpos (digits2_pos m)) in *.
  assert (HEq : E = Z.max (d + e - 53) (-1074)) by reflexivity.
  set (n := E - e) in *.
  assert (Hn : 0 <= n) by (unfold n; lia).
  pose proof (dy_pos e He) as Hpe. 
  assert (HP : dy 1 E = 2 ^ n * dy 1 e).
  { replace E with (e + n) by (unfold n; lia). apply dy_one_add; lia. }
  pose proof (pow2_pos n Hn) as Hpn.
  rewrite (dy_mul q' E), (dy_mul (Zpos m) e), HP.
  (* nearest among the multiples of the step *)
  assert (Hgrid : forall j,
             Z.abs (q' * (2 ^ n * dy 1 e) - Zpos m * dy 1 e)
             <= Z.abs (j * (2 ^ n * dy 1 e) - Zpos m * dy 1 e)).
  { intros j.
    replace (q' * (2 ^ n * dy 1 e) - Zpos m * dy 1 e)
      with ((q' * 2 ^ n - Zpos m) * dy 1 e) by lia.
    replace (j * (2 ^ n * dy 1 e) - Zpos m * dy 1 e)
      with ((j * 2 ^ n - Zpos m) * dy 1 e) by lia.
    rewrite !Z.abs_mul. apply Z.mul_le_mono_nonneg_r; [lia|].
    destruct (Z.eq_dec j q') as [->|Hj]; [lia|]. nia. }
  destruct (Z_le_gt_dec E Eg) as [Hge|Hlt].
  - (* the other value is on the grid *)
    assert (HG : dy M Eg = (M * 2 ^ (Eg - E)) * (2 ^ n * dy 1 e)).
    { rewrite <- HP, <- dy_mul. rewrite dy_shift by lia. f_equal. lia. }
    rewrite HG. apply Hgrid.
  - (* the other value is below the least normal value of the grid *)
    assert (HEd : E = d + e - 53) by lia.
    assert (Hnd : d - 1 = n + 52) by (unfold n; lia).
    assert (Hm : 2 ^ n * 2 ^ 52 <= Zpos m).
    { rewrite <- pow2_split by lia. rewrite <- Hnd. lia. }
    assert (HG : Z.abs (dy M Eg) <= 2 ^ 52 * (2 ^ n * dy 1 e)).
    { rewrite <- HP. rewrite dy_mul, Z.abs_mul.
      rewrite (Z.abs_eq (dy 1 Eg)) by (pose proof (dy_pos Eg); lia).
      assert (H1 : 2 * dy 1 Eg <= dy 1 E).
      { replace (2 * dy 1 Eg) with (2 ^ 1 * dy 1 Eg) by reflexivity.
        rewrite <- dy_one_add by lia.
        replace E with (Eg + 1 + (E - Eg - 1)) by lia.
        rewrite (dy_one_add (E - Eg - 1)) by lia.
        pose proof (pow2_pos (E - Eg - 1)). pose proof (dy_pos (Eg + 1)).
        nia. }
      pose proof (dy_pos Eg). change (2 ^ 53) with (2 * 2 ^ 52) in HM.
      change (2 ^ 52) with 4503599627370496 in *. nia. }
    specialize (Hgrid (2 ^ 52)).
    change (2 ^ 52) with 4503599627370496 in *. nia.
Qed.

Lemma bra_RN (s : bool) (m : positive) (e : Z) :
  -2200 <= e ->
  e <= fexp prec emax (Zpos (digits2_pos m) + e) ->
  RN (if s then - dy (Zpos m) e else dy (Zpos m) e)
     (binary_round_aux prec emax s (Zpos m) e loc_Exact).
Proof.
  intros He HE.
  destruct (bra_spec s m e HE) as (q' & Hnear & Htie & Hq' & Hq52 & Hr).
  cbv zeta in Hr.
  pose proof (near_grid m e q' He HE Hnear) as HN. cbv zeta in HN.
  set (E := fexp prec emax (Zpos (digits2_pos m) + e)) in *.
  assert (HEm : -1074 <= E) by (unfold E; rewrite fexp_eq; lia).
  assert (Hsign : forall V, Near V (dy (Zpos m) e) ->
            Near (if s then - V else V)
                 (if s then - dy (Zpos m) e else dy (Zpos m) e)).
  { intros V HV. destruct s; [apply near_opp|]; assumption. }
  assert (Hpos : 0 < dy (Zpos m) e).
  { rewrite dy_mul. pose proof (dy_pos e He). nia. }
  assert (Habs : Z.abs (if s then - dy (Zpos m) e else dy (Zpos m) e)
                 = dy (Zpos m) e) by (destruct s; lia).
  exists (if s then - dy q' E else dy q' E). split; [apply Hsign, HN|].
  destruct Hr as [[Hq0 ->]|[(m'' & e'' & -> & He'' & Hm53 & Hm'')
                           |(-> & HE9 & Hov)]].
  - subst q'. split; [unfold dy; destruct s; lia|]. rewrite Habs.
    assert (HE' : E = -1074).
    { destruct (Z_le_gt_dec E (-1074)); [lia|].
      specialize (Hq52 ltac:(lia)). lia. }
    assert (HP : dy 1 E = 2 ^ (E - e) * dy 1 e).
    { replace E with (e + (E - e)) at 1 by lia. apply dy_one_add; lia. }
    assert (H1 : 2 * dy (Zpos m) e <= dy 1 E).
    { rewrite (dy_mul (Zpos m)), HP. pose proof (dy_pos e He).
      set (P := 2 ^ (E - e)) in *. set (D := dy 1 e) in *. clearbody P D.
      nia. }
    rewrite HE' in H1. rewrite thr_split.
    pose proof (dy1_le (-1074) 970 ltac:(lia)).
    pose proof (dy_pos 971 ltac:(lia)).
    rewrite (dy_mul (2 ^ 53 - 1)). nia.
  - split.
    + cbn [sval]. rewrite <- Hm''. rewrite dy_shift by lia.
      replace (E + (e'' - E)) with e'' by lia. reflexivity.
    + rewrite Habs.
      apply (finite_below_thr m e q' E m'' e''); try assumption; lia.
  - assert (Hv : dy 1 1024 <= dy q' E).
    { unfold dy. rewrite Z.mul_1_l. rewrite !pow2_split by lia.
      pose proof (pow2_pos 2200). nia. }
    destruct s; lia.
Qed.

Lemma iter_xO_value (d m : positive) :
  Zpos (Pos.iter xO m d) = Zpos m * 2 ^ Zpos d /\
  digits2_pos (Pos.iter xO m d) = (digits2_pos m + d)%positive.
Proof.
  induction d as [|d IH] using Pos.peano_ind.
  - cbn [Pos.iter]. split; [lia|]. cbn [digits2_pos]. lia.
  - rewrite Pos.iter_succ. destruct IH as [IH1 IH2]. split.
    + rewrite Pos2Z.inj_xO, IH1, Pos2Z.inj_succ.
      replace (Z.succ (Zpos d)) with (Zpos d + 1) by lia.
      rewrite pow2_succ by lia. ring.
    + cbn [digits2_pos]. rewrite IH2. lia.
Qed.

Lemma shl_align_spec (m : positive) (e e' : Z) :
  let r := shl_align m e e' in
  snd r = Z.min e e' /\
  Zpos (fst r) = Zpos m * 2 ^ (e - snd r) /\
  Zpos (digits2_pos (fst r)) + snd r = Zpos (digits2_pos m) + e.
Proof.
  unfold shl_align. destruct (e' - e) as [|p|p] eqn:Ed; cbn [fst snd].
  - split; [lia|]. rewrite Z.sub_diag. split; lia.
  - split; [lia|]. rewrite Z.sub_diag. split; lia.
  - destruct (iter_xO_value p m) as [H1 H2].
    split; [lia|]. rewrite H1, H2. split; [f_equal; f_equal; lia | lia].
Qed.

Lemma binary_round_RN (s : bool) (m : positive) (e : Z) :
  -2200 <= e ->
  RN (if s then - dy (Zpos m) e else dy (Zpos m) e)
     (binary_round prec emax s m e).
Proof.
  intros He. unfold binary_round.
  pose proof (shl_align_spec m e (fexp prec emax (Zpos (digits2_pos m) + e)))
    as Hs. cbv zeta in Hs.
  destruct (shl_align m e (fexp prec emax (Zpos (digits2_pos m) + e)))
    as [mz ez]. cbn [fst snd] in Hs. destruct Hs as (Hez & Hmz & Hdz).
  assert (Hfe : -1074 <= fexp prec emax (Zpos (digits2_pos m) + e))
    by (rewrite fexp_eq; lia).
  assert (Hv : dy (Zpos mz) ez = dy (Zpos m) e).
  { rewrite Hmz. rewrite dy_shift by lia. f_equal. lia. }
  rewrite <- Hv. apply bra_RN; [lia|]. rewrite Hdz. lia.
Qed.

Lemma binary_normalize_RN (m e : Z) (sz : bool) :
  -2200 <= e -> RN (dy m e) (binary_normalize prec emax m e sz).
Proof.
  intros He. destruct m as [|p|p]; cbn [binary_normalize].
  - exists 0. split; [apply near_exact|]. split; [reflexivity|].
    unfold dy at 1. rewrite Z.mul_0_l. apply thr_pos.
  - apply (binary_round_RN false p e He).
  - replace (dy (Zneg p) e) with (- dy (Zpos p) e) by (unfold dy; lia).
    apply (binary_round_RN true p e He).
Qed.

(** ** Finite numbers in canonical form *)

Definition wf (x : spec_float) : Prop :=
  match x with
  | S754_zero _ => True
  | S754_finite _ m e =>
      -1074 <= e <= 971 /\ Zpos m < 2 ^ 53 /\ (-1074 < e -> 2 ^ 52 <= Zpos m)
  | _ => False
  end.

Lemma digits_le (m : positive) (k : Z) :
  0 <= k -> Zpos (digits2_pos m) <= k -> Zpos m < 2 ^ k.
Proof.
  intros Hk Hd. pose proof (digits2_pos_bounds m) as [_ H].
  assert (2 ^ Zpos (digits2_pos m) <= 2 ^ k) by (apply pow2_le; lia). lia.
Qed.

Lemma digits_ge (m : positive) (k : Z) :
  1 <= k -> k <= Zpos (digits2_pos m) -> 2 ^ (k - 1) <= Zpos m.
Proof.
  intros Hk Hd. pose proof (digits2_pos_bounds m) as [H _].
  assert (2 ^ (k - 1) <= 2 ^ (Zpos (digits2_pos m) - 1)) by (apply pow2_le; lia).
  lia.
Qed.

Lemma ge_digits (m : positive) (k : Z) :
  0 <= k -> 2 ^ k <= Zpos m -> k < Zpos (digits2_pos m).
Proof.
  intros Hk Hm. pose proof (digits2_pos_bounds m) as [_ H].
  destruct (Z_lt_le_dec k (Zpos (digits2_pos m))) as [Hlt|Hge]; [assumption|].
  assert (2 ^ Zpos (digits2_pos m) <= 2 ^ k) by (apply pow2_le; lia). lia.
Qed.

Lemma valid_wf (x : spec_float) :
  valid_binary x = true ->
  match x with S754_nan | S754_infinity _ => False | _ => True end ->
  wf x.
Proof.
  destruct x as [s|s| |s m e]; cbn [valid_binary wf]; try tauto.
  intros Hb _. unfold bounded, canonical_mantissa in Hb.
  apply andb_prop in Hb. destruct Hb as [Hc Hb].
  apply Z.eqb_eq in Hc. apply Z.leb_le in Hb. rewrite fexp_eq in Hc.
  change (emax - prec) with 971 in Hb.
  split; [lia|]. split.
  - apply digits_le; lia.
  - intros He. change 52 with (53 - 1). apply digits_ge; lia.
Qed.

Lemma wf_below_thr (x : spec_float) : wf x -> Z.abs (sval x) < thr.
Proof.
  destruct x as [s|s| |s m e]; cbn [wf]; try tauto.
  - intros _. apply thr_pos.
  - intros (He & Hm & _). rewrite thr_split.
    assert (H : dy (Zpos m) e <= dy (2 ^ 53 - 1) 971).
    { rewrite (dy_mul (Zpos m)), (dy_mul (2 ^ 53 - 1)).
      pose proof (dy1_le e 971 ltac:(lia)) as H1.
      pose proof (dy_pos e ltac:(lia)) as H2.
      set (c := 2 ^ 53) in *. clearbody c. nia. }
    assert (H0 : 0 < dy (Zpos m) e).
    { rewrite dy_mul. pose proof (dy_pos e ltac:(lia)). nia. }
    pose proof (dy_pos 970 ltac:(lia)).
    destruct s; cbn [sval]; lia.
Qed.

Lemma RN_exact (x : spec_float) : wf x -> RN (sval x) x.
Proof.
  intros Hx. exists (sval x). split; [apply near_exact|].
  pose proof (wf_below_thr x Hx) as Ht.
  destruct x; cbn [wf] in Hx; try tauto; split; try reflexivity; exact Ht.
Qed.

Lemma RN_zero (s : bool) : RN 0 (S754_zero s).
Proof.
  exists 0. split; [apply near_exact|]. split; [reflexivity | apply thr_pos].
Qed.

Lemma aligned_value (s : bool) (m : positive) (e ez : Z) :
  -2200 <= ez -> ez <= e ->
  dy (cond_Zopp s (Zpos (fst (shl_align m e ez)))) ez
  = sval (S754_finite s m e).
Proof.
  intros Hz He. pose proof (shl_align_spec m e ez) as Hs. cbv zeta in Hs.
  destruct Hs as (Hez & Hmz & _). rewrite Hmz.
  replace (snd (shl_align m e ez)) with ez by lia.
  cbn [sval]. destruct s; cbn [cond_Zopp].
  - rewrite <- Z.mul_opp_l. rewrite dy_shift by lia. unfold dy.
    replace (ez + (e - ez)) with e by lia. ring.
  - rewrite dy_shift by lia. f_equal. lia.
Qed.

Lemma dy_add (a b k : Z) : dy (a + b) k = dy a k + dy b k.
Proof. unfold dy. ring. Qed.

Lemma dy_sub (a b k : Z) : dy (a - b) k = dy a k - dy b k.
Proof. unfold dy. ring. Qed.

Lemma SFadd_RN (x y : spec_float) :
  wf x -> wf y -> RN (sval x + sval y) (SFadd prec emax x y).
Proof.
  intros Hx Hy.
  destruct x as [sx|sx| |sx mx ex], y as [sy|sy| |sy my ey];
    cbn [wf] in Hx, Hy; try tauto.
  - cbn [sval SFadd]. destruct sx, sy; apply RN_zero.
  - cbn [SFadd]. change (sval (S754_zero sx)) with 0. rewrite Z.add_0_l.
    apply RN_exact. exact Hy.
  - cbn [SFadd]. change (sval (S754_zero sy)) with 0. rewrite Z.add_0_r.
    apply RN_exact. exact Hx.
  - cbn [SFadd]. cbv zeta.
    rewrite <- (aligned_value sx mx ex (Z.min ex ey)) by lia.
    rewrite <- (aligned_value sy my ey (Z.min ex ey)) by lia.
    rewrite <- dy_add. apply binary_normalize_RN. lia.
Qed.

Lemma SFsub_RN (x y : spec_float) :
  wf x -> wf y -> RN (sval x - sval y) (SFsub prec emax x y).
Proof.
  intros Hx Hy.
  destruct x as [sx|sx| |sx mx ex], y as [sy|sy| |sy my ey];
    cbn [wf] in Hx, Hy; try tauto.
  - cbn [sval SFsub]. destruct sx, sy; apply RN_zero.
  - cbn [SFsub]. change (sval (S754_zero sx)) with 0.
    replace (0 - sval (S754_finite sy my ey))
      with (sval (S754_finite (negb sy) my ey))
      by (cbn [sval]; destruct sy; cbn [negb]; lia).
    apply RN_exact. exact Hy.
  - cbn [SFsub]. change (sval (S754_zero sy)) with 0. rewrite Z.sub_0_r.
    apply RN_exact. exact Hx.
  - cbn [SFsub]. cbv zeta.
    rewrite <- (aligned_value sx mx ex (Z.min ex ey)) by lia.
    rewrite <- (aligned_value sy my ey (Z.min ex ey)) by lia.
    rewrite <- dy_sub. apply binary_normalize_RN. lia.
Qed.

Lemma SFmul_RN (x y : spec_float) :
  wf x -> wf y ->
  exists X, X * 2 ^ 2200 = sval x * sval y /\ RN X (SFmul prec emax x y).
Proof.
  intros Hx Hy.
  destruct x as [sx|sx| |sx mx ex], y as [sy|sy| |sy my ey];
    cbn [wf] in Hx, Hy; try tauto;
    try (exists 0; split; [cbn [sval]; lia | cbn [SFmul]; apply RN_zero]).
  cbn [SFmul].
  destruct Hx as (Hex & Hmx & Hnx), Hy as (Hey & Hmy & Hny).
  exists (if xorb sx sy then - dy (Zpos (mx * my)) (ex + ey)
          else dy (Zpos (mx * my)) (ex + ey)).
  split.
  - cbn [sval]. unfold dy. rewrite Pos2Z.inj_mul.
    assert (Hpw : 2 ^ (ex + ey + 2200) * 2 ^ 2200
                  = 2 ^ (ex + 2200) * 2 ^ (ey + 2200)).
    { rewrite <- !pow2_split by lia. f_equal. lia. }
    set (A := 2 ^ (ex + ey + 2200)) in *. set (B := 2 ^ (ex + 2200)) in *.
    set (C := 2 ^ (ey + 2200)) in *. set (K := 2 ^ 2200) in *.
    clearbody A B C K.
    assert (Hv : Zpos mx * Zpos my * A * K = Zpos mx * B * (Zpos my * C)).
    { rewrite <- Z.mul_assoc, Hpw. ring. }
    destruct sx, sy; cbn [xorb]; lia.
  - apply bra_RN; [lia|]. rewrite fexp_eq.
    destruct (Z_le_gt_dec (ex + ey) (-1074)) as [Hs|Hb]; [lia|].
    assert (Hprod : 2 ^ 52 <= Zpos (mx * my)).
    { rewrite Pos2Z.inj_mul.
      destruct (Z_le_gt_dec ex (-1074)) as [Hx1|Hx1].
      - specialize (Hny ltac:(lia)). nia.
      - specialize (Hnx ltac:(lia)). nia. }
    pose proof (ge_digits (mx * my) 52 ltac:(lia) Hprod). lia.
Qed.

Lemma wf_pos (s : bool) (m : positive) (e : Z) :
  wf (S754_finite s m e) -> 0 < dy (Zpos m) e.
Proof.
  intros (He & _). rewrite dy_mul.
  assert (0 < dy 1 e) by (apply dy_pos; lia). lia.
Qed.

Lemma wf_exp_lt (s1 : bool) (m1 : positive) (e1 : Z)
  (s2 : bool) (m2 : positive) (e2 : Z) :
  wf (S754_finite s1 m1 e1) -> wf (S754_finite s2 m2 e2) ->
  e1 < e2 -> dy (Zpos m1) e1 < dy (Zpos m2) e2.
Proof.
  intros (He1 & Hm1 & _) (He2 & _ & Hn2) Hlt.
  specialize (Hn2 ltac:(lia)).
  rewrite (dy_mul (Zpos m1)), (dy_mul (Zpos m2)).
  replace e2 with (e1 + 1 + (e2 - e1 - 1)) by lia.
  rewrite (dy_one_add (e2 - e1 - 1)) by lia.
  rewrite (dy_one_add 1) by lia.
  assert (HP : 1 <= 2 ^ (e2 - e1 - 1))
    by (pose proof (pow2_pos (e2 - e1 - 1)); lia).
  assert (HD : 0 < dy 1 e1) by (apply dy_pos; lia).
  set (P := 2 ^ (e2 - e1 - 1)) in *. set (D := dy 1 e1) in *.
  clearbody P D.
  change (2 ^ 1) with 2.
  assert (Hm1' : Zpos m1 < 2 * 2 ^ 52) by exact Hm1.
  set (c := 2 ^ 52) in *. clearbody c.
  assert (H1 : Zpos m1 * D < 2 * c * D) by nia.
  assert (H2 : 2 * c * D <= Zpos m2 * (2 * D)) by nia.
  assert (H3 : Zpos m2 * (2 * D) <= Zpos m2 * (P * (2 * D))) by nia.
  lia.
Qed.

Lemma dy_compare (m1 m2 : positive) (e : Z) :
  -2200 <= e ->
  (dy (Zpos m1) e ?= dy (Zpos m2) e) = (m1 ?= m2)%positive.
Proof.
  intros He. rewrite (dy_mul (Zpos m1)), (dy_mul (Zpos m2)).
  assert (HD : dy 1 e > 0) by (pose proof (dy_pos e He); lia).
  rewrite <- (Zmult_compare_compat_r _ _ _ HD). reflexivity.
Qed.

Lemma compare_cont_Eq (m1 m2 : positive) :
  Pos.compare_cont Eq m1 m2 = (m1 ?= m2)%positive.
Proof. reflexivity. Qed.

Lemma sval_compare (x y : spec_float) :
  wf x -> wf y -> SFcompare x y = Some (sval x ?= sval y).
Proof.
  intros Hx Hy.
  destruct x as [sx|sx| |sx mx ex], y as [sy|sy| |sy my ey];
    try (exfalso; exact Hx); try (exfalso; exact Hy).
  - reflexivity.
  - pose proof (wf_pos sy my ey Hy). cbn [SFcompare sval]. f_equal.
    destruct sy; symmetry; [apply Z.compare_gt_iff | apply Z.compare_lt_iff];
      lia.
  - pose proof (wf_pos sx mx ex Hx). cbn [SFcompare sval]. f_equal.
    destruct sx; symmetry; [apply Z.compare_lt_iff | apply Z.compare_gt_iff];
      lia.
  - pose proof (wf_pos sx mx ex Hx) as Px. pose proof (wf_pos sy my ey Hy) as Py.
    assert (He : -2200 <= ex) by (destruct Hx; lia).
    cbn [SFcompare sval]. f_equal. rewrite compare_cont_Eq.
    destruct sx, sy.
    + rewrite Z.compare_opp.
      destruct (Z.compare_spec ex ey) as [->|Hlt|Hgt].
      * rewrite dy_compare by (destruct Hy; lia).
        rewrite (Pos.compare_antisym mx my). reflexivity.
      * symmetry. apply Z.compare_gt_iff.
        apply (wf_exp_lt true mx ex true my ey); assumption.
      * symmetry. apply Z.compare_lt_iff.
        apply (wf_exp_lt true my ey true mx ex); assumption.
    + symmetry. apply Z.compare_lt_iff. lia.
    + symmetry. apply Z.compare_gt_iff. lia.
    + destruct (Z.compare_spec ex ey) as [->|Hlt|Hgt].
      * rewrite dy_compare by assumption. reflexivity.
      * symmetry. apply Z.compare_lt_iff.
        apply (wf_exp_lt false mx ex false my ey); assumption.
      * symmetry. apply Z.compare_gt_iff.
        apply (wf_exp_lt false my ey false mx ex); assumption.
Qed.

Lemma wf_competitor (g : spec_float) :
  wf g -> exists M Eg, Z.abs M <= 2 ^ 53 /\ -1074 <= Eg /\ sval g = dy M Eg.
Proof.
  destruct g as [s|s| |s m e]; cbn [wf]; try tauto.
  - intros _. exists 0, 0. repeat split; try lia. 
  - intros (He & Hm & _). destruct s.
    + exists (Zneg m), e. repeat split; try lia. cbn [sval]. unfold dy. lia.
    + exists (Zpos m), e. repeat split; try lia.
Qed.

Lemma wf_multiple (g : spec_float) :
  wf g -> exists N, sval g = dy N (-1074).
Proof.
  destruct g as [s|s| |s m e]; cbn [wf]; try tauto.
  - intros _. exists 0. reflexivity.
  - intros (He & _).
    assert (Hv : dy (Zpos m) e = dy (Zpos m * 2 ^ (e + 1074)) (-1074)).
    { rewrite dy_shift by lia. f_equal. lia. }
    destruct s; cbn [sval]; rewrite Hv.
    + exists (- (Zpos m * 2 ^ (e + 1074))). unfold dy. ring.
    + eexists. reflexivity.
Qed.

Lemma wf_lt_max (g : spec_float) :
  wf g -> - dy 1 1024 < sval g < dy 1 1024.
Proof.
  destruct g as [s|s| |s m e]; cbn [wf]; try tauto.
  - intros _. cbn [sval]. pose proof (dy_pos 1024). lia.
  - intros Hw. pose proof (wf_pos s m e Hw) as H0.
    destruct Hw as (He & Hm & _).
    assert (H : dy (Zpos m) e < dy 1 1024).
    { rewrite dy_mul. replace 1024 with (e + 53 + (971 - e)) by lia.
      rewrite (dy_one_add (971 - e)) by lia.
      rewrite (dy_one_add 53) by lia.
      assert (HP : 1 <= 2 ^ (971 - e))
        by (pose proof (pow2_pos (971 - e)); lia).
      assert (HD : 0 < dy 1 e) by (apply dy_pos; lia).
      set (P := 2 ^ (971 - e)) in *. set (D := dy 1 e) in *.
      set (c := 2 ^ 53) in *. clearbody P D c.
      assert (H1 : Zpos m * D < c * D) by nia.
      assert (H2 : c * D <= P * (c * D)) by nia.
      lia. }
    destruct s; cbn [sval]; lia.
Qed.

Lemma RN_near (X : Z) (r : spec_float) : RN X r -> wf r -> Near (sval r) X.
Proof.
  intros (V & HV & Hr) Hw.
  destruct r as [s|s| |s m e]; cbn [wf] in Hw; try tauto.
  - destruct Hr as [-> _]. exact HV.
  - destruct Hr as [-> _]. exact HV.
Qed.

(** A rounded value lies between any two representable values that the
    exact value lies between. *)
Lemma RN_between (X : Z) (r lo hi : spec_float) :
  RN X r -> valid_binary r = true -> wf lo -> wf hi ->
  sval lo <= X <= sval hi ->
  wf r /\ sval lo <= sval r <= sval hi.
Proof.
  intros (V & HV & Hr) Hval Hlo Hhi HX.
  destruct (wf_competitor lo Hlo) as (Ml & El & HMl & HEl & Hl).
  destruct (wf_competitor hi Hhi) as (Mh & Eh & HMh & HEh & Hh).
  pose proof (HV Ml El HMl HEl) as H1. rewrite <- Hl in H1.
  pose proof (HV Mh Eh HMh HEh) as H2. rewrite <- Hh in H2.
  assert (HVb : sval lo <= V <= sval hi) by lia.
  pose proof (wf_lt_max lo Hlo). pose proof (wf_lt_max hi Hhi).
  destruct r as [s|s| |s m e]; try tauto.
  - split; [exact I|]. destruct Hr as [-> _]. exact HVb.
  - destruct s; lia.
  - split; [apply valid_wf; [assumption | exact I]|].
    destruct Hr as [-> _]. exact HVb.
Qed.

(** A value that rounds to plus infinity is at least the threshold. *)
Lemma RN_overflow (X : Z) :
  RN X (S754_infinity false) -> thr <= X.
Proof.
  intros (V & HV & Hr).
  pose proof (HV (2 ^ 53 - 1) 971 ltac:(lia) ltac:(lia)) as H.
  rewrite thr_split.
  pose proof (dy_one_add 1 970 ltac:(lia) ltac:(lia)) as H971.
  change (970 + 1) with 971 in H971. change (2 ^ 1) with 2 in H971.
  assert (Hmax : dy 1 1024 = dy (2 ^ 53 - 1) 971 + dy 1 971).
  { rewrite (dy_mul (2 ^ 53 - 1)).
    pose proof (dy_one_add 53 971 ltac:(lia) ltac:(lia)) as H1.
    change (971 + 53) with 1024 in H1. rewrite H1. ring. }
  pose proof (dy_pos 970 ltac:(lia)). lia.
Qed.

(** Overflow is monotone: below a value that rounds to a finite number,
    a non-negative value rounds to a finite non-negative number. *)
Lemma RN_finite_mono (X1 X2 : Z) (r1 r2 : spec_float) :
  RN X1 r1 -> valid_binary r1 = true -> RN X2 r2 -> wf r2 ->
  0 <= X1 <= X2 ->
  wf r1 /\ 0 <= sval r1.
Proof.
  intros R1 Hval R2 W2 HX.
  assert (Ht : X1 < thr).
  { destruct R2 as (V2 & _ & H2).
    destruct r2 as [s|s| |s m e]; cbn [wf] in W2; try tauto;
      destruct H2 as [_ H2]; lia. }
  assert (Hwf : wf r1).
  { apply valid_wf; [assumption|].
    destruct r1 as [s|[|]| |s m e]; try exact I.
    - destruct R1 as (V & HV & Hr).
      pose proof (HV 0 0 ltac:(lia) ltac:(lia)) as H.
      pose proof (dy_pos 1024 ltac:(lia)). unfold dy at 1 in H.
      rewrite Z.mul_0_l in H. lia.
    - pose proof (RN_overflow X1 R1). lia.
    - destruct R1 as (V & _ & []). }
  split; [assumption|].
  pose proof (RN_near _ _ R1 Hwf 0 0 ltac:(lia) ltac:(lia)) as H.
  unfold dy at 1 in H. rewrite Z.mul_0_l in H. lia.
Qed.

Lemma below_one (u : spec_float) :
  wf u -> sval u < dy 1 0 -> sval u <= dy 1 0 - dy 1 (-53).
Proof.
  pose proof (dy_one_add 53 (-53) ltac:(lia) ltac:(lia)) as H0.
  change (-53 + 53) with 0 in H0.
  assert (Hk : 0 < dy 1 (-53)) by (apply dy_pos; lia).
  destruct u as [s|s| |s m e]; cbn [wf]; try tauto.
  - intros _ _. cbn [sval]. rewrite H0. nia.
  - intros Hw Hlt. pose proof (wf_pos s m e Hw) as Hp.
    destruct Hw as (He & Hm & _).
    destruct s; cbn [sval] in *; [rewrite H0; nia|].
    destruct (Z_le_gt_dec (-53) e) as [Hge|Hlt53].
    + assert (Hv : dy (Zpos m) e = (Zpos m * 2 ^ (e + 53)) * dy 1 (-53)).
      { rewrite <- dy_mul. rewrite dy_shift by lia. f_equal. lia. }
      rewrite Hv, H0 in *. set (k := dy 1 (-53)) in *.
      set (T := Zpos m * 2 ^ (e + 53)) in *. set (c := 2 ^ 53) in *.
      clearbody k T c.
      assert (HT : T < c) by nia. nia.
    + assert (Hv : dy 1 (-54) = 2 ^ (-54 - e) * dy 1 e).
      { rewrite <- dy_one_add by lia. f_equal. lia. }
      pose proof (dy_one_add 1 (-54) ltac:(lia) ltac:(lia)) as H54.
      change (-54 + 1) with (-53) in H54. change (2 ^ 1) with 2 in H54.
      assert (HP : 1 <= 2 ^ (-54 - e))
        by (pose proof (pow2_pos (-54 - e)); lia).
      assert (HD : 0 < dy 1 e) by (apply dy_pos; lia).
      rewrite (dy_mul (Zpos m)) in *. rewrite H0, H54, Hv.
      set (P := 2 ^ (-54 - e)) in *. set (D := dy 1 e) in *.
      assert (Hm' : Zpos m < 2 * 2 ^ 52) by exact Hm.
      change (2 ^ 53) with (2 * 2 ^ 52).
      set (c := 2 ^ 52) in *.
      assert (Hc : 1 <= c) by (unfold c; lia).
      clearbody P D c.
      assert (H1 : Zpos m * D < 2 * c * D) by nia.
      assert (H2 : 2 * c * D <= 2 * c * (P * D)) by nia.
      assert (H3 : 2 * (P * D) <= 2 * c * (P * D)) by nia.
      nia.
Qed.

(** The product [u * d] of a [u] below one and the rounded difference
    [d] of [b] and [a], rounded, does not exceed the exact difference. *)
Lemma lerp_key (a b u d p : spec_float) (Xp : Z) :
  wf a -> wf b -> wf u -> wf d -> wf p ->
  sval a <= sval b ->
  0 <= sval u < dy 1 0 ->
  RN (sval b - sval a) d ->
  Xp * 2 ^ 2200 = sval u * sval d ->
  RN Xp p ->
  0 <= sval p <= sval d ->
  sval p <= sval b - sval a.
Proof.
  intros Ha Hb Hu Hd Hp Hab [Hu0 Hu1] HRd HXp HRp [Hp0 Hpd].
  destruct (Z_le_gt_dec (sval p) (sval b - sval a)) as [Hle|Hgt];
    [assumption | exfalso].
  pose proof (RN_near _ _ HRd Hd) as Nd.
  pose proof (RN_near _ _ HRp Hp) as Np.
  (* the rounded difference is the product *)
  assert (HDP : sval d = sval p).
  { destruct (wf_competitor p Hp) as (M & Eg & HM & HE & Hv).
    pose proof (Nd M Eg HM HE) as H. rewrite <- Hv in H. lia. }
  rewrite <- HDP in *. clear HDP Hpd.
  (* the distance of the exact product to the rounded difference *)
  pose proof (below_one u Hu Hu1) as Hub.
  pose proof (dy_one_add 53 (-53) ltac:(lia) ltac:(lia)) as HK.
  change (-53 + 53) with 0 in HK.
  assert (Hk : 0 < dy 1 (-53)) by (apply dy_pos; lia).
  assert (HK' : 2 ^ 2200 = dy 1 0) by reflexivity.
  rewrite HK' in HXp.
  assert (Hdist : sval d <= (sval d - Xp) * 2 ^ 53).
  { set (K := dy 1 0) in *. set (k := dy 1 (-53)) in *.
    set (c := 2 ^ 53) in *. set (D := sval d) in *. set (U := sval u) in *.
    clearbody K k c D U.
    assert (H1 : (D - Xp) * K = D * (K - U)) by lia.
    assert (H2 : D * k <= D * (K - U)) by nia.
    assert (H3 : D * k <= (D - Xp) * c * k) by (subst K; lia).
    nia. }
  assert (HXD : Xp <= sval d).
  { assert (0 <= 2 ^ 53) by lia. assert (0 < sval d) by lia. nia. }
  destruct d as [s|s| |s md ed]; cbn [wf] in Hd; try tauto.
  { cbn [sval] in *. lia. }
  destruct s; [cbn [sval] in *; pose proof (wf_pos true md ed Hd); lia|].
  destruct Hd as (Hed & Hmd & Hnd).
  cbn [sval] in *.
  assert (Hulp : 0 < dy 1 ed) by (apply dy_pos; lia).
  (* the mantissa is at most 2^52 *)
  assert (Hmd52 : Zpos md <= 2 ^ 52).
  { pose proof (Np (Zpos md - 1) ed ltac:(lia) ltac:(lia)) as H.
    rewrite dy_sub in H. rewrite (dy_mul (Zpos md)) in *.
    change (2 ^ 53) with (2 * 2 ^ 52) in Hdist.
    set (L := dy 1 ed) in *. set (c := 2 ^ 52) in *. clearbody L c.
    assert (H2 : 2 * (Zpos md * L - Xp) <= L) by lia.
    nia. }
  destruct (Z_le_gt_dec ed (-1074)) as [Hsub|Hnorm].
  - (* the difference is below the least normal number: it is exact *)
    assert (Hed' : ed = -1074) by lia. subst ed.
    destruct (wf_multiple a Ha) as [Na HNa].
    destruct (wf_multiple b Hb) as [Nb HNb].
    pose proof (Nd (Nb - Na) (-1074)) as H.
    rewrite dy_sub, <- HNa, <- HNb in H.
    assert (HN : Z.abs (Nb - Na) <= 2 ^ 53).
    { assert (Hy : dy (Nb - Na) (-1074) = sval b - sval a)
        by (rewrite dy_sub; lia).
      rewrite (dy_mul (Nb - Na)) in Hy. rewrite (dy_mul (Zpos md)) in *.
      change (2 ^ 53) with (2 * 2 ^ 52).
      set (L := dy 1 (-1074)) in *. set (c := 2 ^ 52) in *. clearbody L c.
      assert (0 <= Nb - Na) by nia. assert (Nb - Na < Zpos md) by nia. lia. }
    specialize (H HN ltac:(lia)). lia.
  - (* the difference is a power of two *)
    specialize (Hnd ltac:(lia)).
    assert (Hmd' : Zpos md = 2 ^ 52) by lia.
    pose proof (Np (2 ^ 53 - 1) (ed - 1) ltac:(lia) ltac:(lia)) as H.
    pose proof (dy_one_add 1 (ed - 1) ltac:(lia) ltac:(lia)) as Hh.
    replace (ed - 1 + 1) with ed in Hh by lia. change (2 ^ 1) with 2 in Hh.
    rewrite dy_sub in H. rewrite (dy_mul (2 ^ 53)) in H.
    rewrite (dy_mul (Zpos md)), Hmd', Hh in *.
    assert (Hh0 : 0 < dy 1 (ed - 1)) by (apply dy_pos; lia).
    change (2 ^ 53) with (2 * 2 ^ 52) in *.
    set (h := dy 1 (ed - 1)) in *. set (c := 2 ^ 52) in *.
    assert (Hc : 1 <= c) by (unfold c; lia).
    clearbody h c.
    assert (H1 : h <= c * (2 * h) - Xp) by nia.
    lia.
Qed.

Lemma SFleb_sval (x y : spec_float) :
  wf x -> wf y -> (SFleb x y = true <-> sval x <= sval y).
Proof.
  intros Hx Hy. unfold SFleb. rewrite (sval_compare x y Hx Hy).
  destruct (Z.compare_spec (sval x) (sval y)); split; intros; try lia;
    try reflexivity; discriminate.
Qed.

Lemma SFltb_sval (x y : spec_float) :
  wf x -> wf y -> (SFltb x y = true <-> sval x < sval y).
Proof.
  intros Hx Hy. unfold SFltb. rewrite (sval_compare x y Hx Hy).
  destruct (Z.compare_spec (sval x) (sval y)); split; intros; try lia;
    try reflexivity; discriminate.
Qed.

(** The interpolation [a + u * (b - a)] of two numbers between [lo] and
    [hi], with [u] in [[0, 1)], is finite and lies between [a] and [b],
    provided the width [hi - lo] is finite. *)
Lemma lerp_sf (lo hi a b u : spec_float) :
  wf lo -> wf hi -> wf a -> wf b -> wf u ->
  wf (SFsub prec emax hi lo) ->
  sval lo <= sval a -> sval a <= sval b -> sval b <= sval hi ->
  0 <= sval u < dy 1 0 ->
  let d := SFsub prec emax b a in
  let p := SFmul prec emax u d in
  let x := SFadd prec emax a p in
  valid_binary d = true -> valid_binary p = true -> valid_binary x = true ->
  wf x /\ sval a <= sval x <= sval b.
Proof.
  intros Hlo Hhi Ha Hb Hu Hw Hla Hab Hbh Hu01 d p x Vd Vp Vx.
  (* the difference *)
  pose proof (SFsub_RN b a Hb Ha) as Rd. fold d in Rd.
  pose proof (SFsub_RN hi lo Hhi Hlo) as Rw.
  destruct (RN_finite_mono _ _ d _ Rd Vd Rw Hw ltac:(lia)) as [Wd Hd].
  (* the product *)
  destruct (SFmul_RN u d Hu Wd) as (Xp & HXp & Rp). fold p in Rp.
  assert (HK : 0 < 2 ^ 2200) by (apply pow2_pos; lia).
  assert (HK1 : dy 1 0 = 2 ^ 2200) by reflexivity.
  assert (HXp0 : 0 <= Xp <= sval d).
  { rewrite HK1 in Hu01. set (K := 2 ^ 2200) in *. clearbody K.
    set (U := sval u) in *. set (D := sval d) in *. clearbody U D.
    split; nia. }
  destruct (RN_between _ p (S754_zero false) d Rp Vp I Wd) as [Wp Hp].
  { cbn [sval]. lia. }
  cbn [sval] in Hp.
  pose proof (lerp_key a b u d p Xp Ha Hb Hu Wd Wp Hab Hu01 Rd HXp Rp Hp)
    as Hkey.
  (* the sum *)
  pose proof (SFadd_RN a p Ha Wp) as Rx. fold x in Rx.
  apply (RN_between _ x a b Rx Vx Ha Hb). lia.
Qed.

Local Open Scope float_scope.

Lemma Prim2SF_one : Prim2SF 1 = S754_finite false 4503599627370496 (-52).
Proof. vm_compute. reflexivity. Qed.

Lemma sval_one : sval (Prim2SF 1) = dy 1 0.
Proof.
  rewrite Prim2SF_one. cbn [sval].
  change 4503599627370496%Z with (1 * 2 ^ 52)%Z.
  rewrite dy_shift by lia. reflexivity.
Qed.

Lemma wf_one : wf (Prim2SF 1).
Proof. rewrite Prim2SF_one. cbn [wf]. lia. Qed.

(** A float in [[0, 1)] is finite, and so is a float between two finite
    floats. *)
Lemma unit_wf (u : float) :
  (0 <=? u) = true -> (u <? 1) = true ->
  wf (Prim2SF u) /\ (0 <= sval (Prim2SF u) < dy 1 0)%Z.
Proof.
  rewrite FloatAxioms.leb_spec, FloatAxioms.ltb_spec. intros H0 H1.
  change (Prim2SF 0) with (S754_zero false) in H0.
  assert (Hw : wf (Prim2SF u)).
  { apply valid_wf; [apply Prim2SF_valid|].
    rewrite Prim2SF_one in H1.
    destruct (Prim2SF u) as [s|[|]| |s m e]; try exact I; discriminate. }
  split; [assumption|].
  apply (SFleb_sval (S754_zero false) _ I Hw) in H0. apply (SFltb_sval _ _ Hw wf_one) in H1.
  rewrite sval_one in H1. cbn [sval] in H0. lia.
Qed.

(** Numbers between bounds of finite width are finite, and so are the
    bounds. *)
Lemma finite_width_wf (lo a b hi : spec_float) :
  valid_binary lo = true -> valid_binary a = true ->
  valid_binary b = true -> valid_binary hi = true ->
  valid_binary (SF64sub hi lo) = true ->
  SFltb (SF64sub hi lo) (S754_infinity false) = true ->
  SFleb lo a = true -> SFleb a b = true -> SFleb b hi = true ->
  wf lo /\ wf a /\ wf b /\ wf hi /\ wf (SF64sub hi lo).
Proof.
  intros Vlo Va Vb Vhi Vw Hw Hla Hab Hbh.
  assert (Hall : match lo, a, b, hi with
                 | (S754_zero _ | S754_finite _ _ _),
                   (S754_zero _ | S754_finite _ _ _),
                   (S754_zero _ | S754_finite _ _ _),
                   (S754_zero _ | S754_finite _ _ _) => True
                 | _, _, _, _ => False
                 end).
  { unfold SF64sub in Hw.
    destruct lo as [sl|[|]| |sl ml el]; try discriminate;
      destruct a as [sa|[|]| |sa ma ea]; try discriminate;
      destruct b as [sb|[|]| |sb mb eb]; try discriminate;
      destruct hi as [sh|[|]| |sh mh eh]; try discriminate;
      try exact I. }
  assert (Hwf : wf lo /\ wf a /\ wf b /\ wf hi).
  { destruct lo as [sl|[|]| |sl ml el]; try tauto;
      destruct a as [sa|[|]| |sa ma ea]; try tauto;
      destruct b as [sb|[|]| |sb mb eb]; try tauto;
      destruct hi as [sh|[|]| |sh mh eh]; try tauto;
      (split; [|split; [|split]]);
      first [exact I | apply valid_wf; [assumption | exact I]]. }
  destruct Hwf as (Wlo & Wa & Wb & Whi).
  split; [assumption|]. split; [assumption|]. split; [assumption|].
  split; [assumption|].
  apply valid_wf; [assumption|].
  apply (SFleb_sval _ _ Wlo Wa) in Hla. apply (SFleb_sval _ _ Wa Wb) in Hab.
  apply (SFleb_sval _ _ Wb Whi) in Hbh.
  pose proof (SFsub_RN hi lo Whi Wlo) as Rw.
  change (SFsub prec emax) with SF64sub in Rw.
  destruct (SF64sub hi lo) as [s|[|]| |s m e]; try exact I; try discriminate.
  destruct Rw as (V & HV & Hr).
  pose proof (HV 0%Z 0%Z ltac:(lia) ltac:(lia)) as H.
  pose proof (dy_pos 1024 ltac:(lia)). unfold dy at 1 in H.
  rewrite Z.mul_0_l in H. lia.
Qed.

Theorem lerp_between (lo hi a b u : float) :
  (hi - lo <? infinity) = true ->
  (lo <=? a) = true -> (a <=? b) = true -> (b <=? hi) = true ->
  (0 <=? u) = true -> (u <? 1) = true ->
  (a <=? a + u * (b - a)) = true /\ (a + u * (b - a) <=? b) = true.
Proof.
  intros Hw Hla Hab Hbh Hu0 Hu1.
  destruct (unit_wf u Hu0 Hu1) as [Wu Hu].
  rewrite FloatAxioms.ltb_spec in Hw. rewrite !FloatAxioms.leb_spec in *.
  pose proof (Prim2SF_valid (hi - lo)) as Vw.
  rewrite FloatAxioms.sub_spec in Hw, Vw.
  change (Prim2SF infinity) with (S754_infinity false) in Hw.
  destruct (finite_width_wf _ _ _ _ (Prim2SF_valid lo) (Prim2SF_valid a)
              (Prim2SF_valid b) (Prim2SF_valid hi) Vw Hw Hla Hab Hbh)
    as (Wlo & Wa & Wb & Whi & Ww).
  apply (SFleb_sval _ _ Wlo Wa) in Hla. apply (SFleb_sval _ _ Wa Wb) in Hab.
  apply (SFleb_sval _ _ Wb Whi) in Hbh.
  pose proof (lerp_sf (Prim2SF lo) (Prim2SF hi) (Prim2SF a) (Prim2SF b)
                (Prim2SF u) Wlo Whi Wa Wb Wu Ww Hla Hab Hbh Hu) as H.
  cbv zeta in H.
  change (SFsub prec emax) with SF64sub in H.
  change (SFmul prec emax) with SF64mul in H.
  change (SFadd prec emax) with SF64add in H.
  rewrite <- FloatAxioms.sub_spec, <- FloatAxioms.mul_spec,
    <- FloatAxioms.add_spec in H.
  destruct H as [Wx Hx]; try apply Prim2SF_valid.
  split; [apply (SFleb_sval _ _ Wa Wx) | apply (SFleb_sval _ _ Wx Wb)]; lia.
Qed.

(** [0.0 + 1.0 * u] is [u], up to the sign of zero. *)
Lemma uniform_unit (u : float) :
  (0 <=? u) = true -> (u <? 1) = true ->
  (0 <=? 0 + 1 * u) = true /\ (0 + 1 * u <? 1) = true.
Proof.
  intros Hu0 Hu1. destruct (unit_wf u Hu0 Hu1) as [Wu Hu].
  rewrite FloatAxioms.leb_spec, FloatAxioms.ltb_spec.
  rewrite FloatAxioms.add_spec, FloatAxioms.mul_spec.
  change (Prim2SF 0) with (S754_zero false).
  destruct (SFmul_RN (Prim2SF 1) (Prim2SF u) wf_one Wu) as (X & HX & RX).
  rewrite sval_one in HX. change (dy 1 0) with (2 ^ 2200)%Z in HX.
  assert (HXu : X = sval (Prim2SF u)).
  { assert (0 < 2 ^ 2200)%Z by (apply pow2_pos; lia). nia. }
  subst X.
  assert (Vm : valid_binary (SF64mul (Prim2SF 1) (Prim2SF u)) = true)
    by (rewrite <- FloatAxioms.mul_spec; apply Prim2SF_valid).
  destruct (RN_between _ _ (Prim2SF u) (Prim2SF u) RX Vm Wu Wu ltac:(lia))
    as [Wm Hm].
  pose proof (SFadd_RN (S754_zero false) _ I Wm) as RA.
  assert (Va : valid_binary (SF64add (S754_zero false)
                               (SF64mul (Prim2SF 1) (Prim2SF u))) = true).
  { change (S754_zero false) with (Prim2SF 0).
    rewrite <- FloatAxioms.mul_spec, <- FloatAxioms.add_spec.
    apply Prim2SF_valid. }
  destruct (RN_between _ _ (Prim2SF u) (Prim2SF u) RA Va Wu Wu
              ltac:(cbn [sval]; lia)) as [Wa Ha].
  split.
  - apply (SFleb_sval (S754_zero false) _ I Wa). cbn [sval]. lia.
  - apply (SFltb_sval _ _ Wa wf_one). rewrite sval_one. lia.
Qed.

End Binary64.

(** * Bounds *)

Lemma nth_error_skipn {A : Type} (l : list A) (j : nat) (x : A) :
  nth_error l j = Some x -> skipn j l = x :: skipn (S j) l.
Proof.
  revert j. induction l as [|y l IH]; intros j E.
  - destruct j; discriminate.
  - destruct j as [|j]; simpl in *.
    + injection E as ->. reflexivity.
    + apply IH. assumption.
Qed.

Lemma nth_error_skipn_add {A : Type} (l : list A) (j k : nat) :
  nth_error (skipn j l) k = nth_error l (j + k).
Proof.
  revert l. induction j as [|j IH]; intros l; [reflexivity|].
  destruct l as [|y l]; [destruct k; reflexivity|]. simpl. apply IH.
Qed.

(** [within], index by index. *)
Lemma within_inv (bs : list (float * float)) (v : ndarray1) :
  within bs v = true ->
  forall k x, nth_error v k = Some x ->
    exists b, nth_error bs k = Some b /\ inside b x = true.
Proof.
  revert bs. induction v as [|y v IH]; intros bs H k x E.
  - destruct k; discriminate.
  - destruct bs as [|b bs]; [discriminate|]. cbn [within] in H.
    apply andb_prop in H. destruct H as [H1 H2].
    destruct k as [|k]; simpl in E.
    + injection E as <-. exists b. split; [reflexivity | assumption].
    + apply (IH bs H2 k x E).
Qed.

Lemma within_intro (bs : list (float * float)) (v : ndarray1) :
  (forall k x, nth_error v k = Some x ->
     exists b, nth_error bs k = Some b /\ inside b x = true) ->
  within bs v = true.
Proof.
  revert bs. induction v as [|y v IH]; intros bs H; [reflexivity|].
  destruct (H 0 y eq_refl) as (b & Eb & Hb).
  destruct bs as [|b' bs]; [discriminate|]. simpl in Eb. injection Eb as ->.
  cbn [within]. rewrite Hb. simpl. apply IH.
  intros k x E. apply (H (S k) x E).
Qed.

Lemma leb_not_nan (x y : float) :
  (x <=? y)%float = true -> is_nan x = false /\ is_nan y = false.
Proof.
  unfold is_nan. rewrite FloatAxioms.leb_spec, !FloatAxioms.eqb_spec.
  intros H.
  assert (Hn : forall z, z <> S754_nan -> negb (SFeqb z z) = false).
  { intros z Hz. unfold SFeqb.
    destruct (SFcompare_refl z) as [->|E]; [reflexivity|].
    destruct z as [s|[|]| |[|] m e]; try discriminate. congruence. }
  split; apply Hn; intros E; rewrite E in H;
    [|destruct (Prim2SF x)]; discriminate.
Qed.

Lemma inside_not_nan (b : float * float) (x : float) :
  inside b x = true -> is_nan x = false.
Proof.
  unfold inside. intros H. apply andb_prop in H. destruct H as [H _].
  apply (leb_not_nan _ _ H).
Qed.

Lemma column_entries (a : ndarray2) (j : nat) :
  forall c, column a j = Ok c ->
    Forall (fun x => exists r, In r a /\ nth_error r j = Some x) c.
Proof.
  induction a as [|r a IH]; intros c E; simpl in E.
  - injection E as <-. constructor.
  - destruct (nth_error r j) as [v|] eqn:Ev; [|discriminate].
    inv_bind E as c' Ec. injection E as <-. constructor.
    + exists r. split; [left; reflexivity | assumption].
    + eapply Forall_impl; [|apply IH; eassumption].
      intros x (r' & Hin & Hn). exists r'. split; [right|]; assumption.
Qed.

Section RepairBounds.
Context {G : Type} `{RandomState G}.

(** A value that line 114 draws from a population within the bounds is
    within the bound of its index: it lies between the least and the
    greatest entry of the column. *)
Lemma resample_inside (bs : list (float * float)) (p : ndarray2) (j : nat)
  (b : float * float) (g g' : G) (y : float) :
  Forall (fun r => within bs r = true) p ->
  nth_error bs j = Some b ->
  finite_bound b = true ->
  resample p j g = Ok (y, g') ->
  inside b y = true.
Proof.
  intros Hp Hb Hfb E.
  destruct (resample_value p j g g' y E) as (c & mn & mx & Ec & Emn & Emx & -> & _).
  assert (Hc : Forall (fun x => inside b x = true) c).
  { eapply Forall_impl; [|apply (column_entries p j c Ec)].
    intros x (r & Hin & Hx). rewrite Forall_forall in Hp.
    destruct (within_inv bs r (Hp r Hin) j x Hx) as (b' & Eb' & Hin').
    congruence. }
  assert (Hnan : Forall (fun x => is_nan x = false) c).
  { eapply Forall_impl; [|exact Hc]. intros x. apply inside_not_nan. }
  destruct (np_min_spec c mn Emn Hnan) as [Hmn_in Hmn].
  destruct (np_max_spec c mx Emx Hnan) as [Hmx_in Hmx].
  rewrite Forall_forall in Hc, Hmn.
  pose proof (Hc mn Hmn_in) as Imn. pose proof (Hc mx Hmx_in) as Imx.
  pose proof (Hmn mx Hmx_in) as Hle.
  unfold inside in Imn, Imx. apply andb_prop in Imn, Imx.
  destruct Imn as [Hlo _], Imx as [_ Hhi].
  unfold finite_bound in Hfb. apply andb_prop in Hfb.
  destruct Hfb as [_ Hw].
  destruct (rk_double_range g) as [Hu0 Hu1].
  destruct (Binary64.uniform_unit _ Hu0 Hu1) as [Hv0 Hv1].
  destruct (Binary64.lerp_between (fst b) (snd b) mn mx _ Hw Hlo Hle Hhi
              Hv0 Hv1) as [H1 H2].
  unfold inside. apply andb_true_intro. split.
  - apply float_le_trans with (y := mn); assumption.
  - apply float_le_trans with (y := mx); assumption.
Qed.

(** Lines 112 to 114 establish the bounds: after the repair of a trial
    vector against a population within the bounds, every entry is
    within the bound of its index. *)
Lemma bound_repair_inside (gl : Globals) (bs : list (float * float))
  (p : ndarray2) :
  g_bounds gl = Some bs ->
  Forall (fun b => finite_bound b = true) bs ->
  Forall (fun r => within bs r = true) p ->
  forall (t : ndarray1) (j : nat) (g : G) (t' : ndarray1) (g' : G),
    bound_repair gl p j t g = Ok (t', g') ->
    within (skipn j bs) t' = true.
Proof.
  intros Hgl Hfb Hp t j g t' g' E.
  destruct (bound_repair_spec gl p bs Hgl t j g t' g' E) as [Hlen Hk].
  apply within_intro. intros k x' Ex'.
  assert (Hlt : k < length t).
  { rewrite <- Hlen. apply nth_error_Some. congruence. }
  destruct (nth_error t k) as [x|] eqn:Ex;
    [|apply nth_error_None in Ex; lia].
  destruct (Hk k x Ex) as (b & Eb & Hcase).
  exists b. split; [rewrite nth_error_skipn_add; assumption|].
  destruct (inside b x) eqn:Ein.
  - congruence.
  - destruct Hcase as (g1 & g2 & y & Er & Ey).
    assert (y = x') by congruence. subst y.
    apply (resample_inside bs p (j + k) b g1 g2 x' Hp Eb); [|assumption].
    rewrite Forall_forall in Hfb. apply Hfb.
    eapply nth_error_In. eassumption.
Qed.

End RepairBounds.

Section Bounds.
Context {G : Type} `{RandomState G}.
Variable Data : Type.
Variable self : DifferentialEvolution Data.
Variable gl : Globals.
Variable bs : list (float * float).
Hypothesis module_bounds : g_bounds gl = Some bs.

Lemma bound_repair_length (p : ndarray2) (t : ndarray1) :
  forall (j : nat) (g : G) (t' : ndarray1) (g' : G),
    bound_repair gl p j t g = Ok (t', g') -> length t' = length t.
Proof.
  intros j g t' g' E.
  exact (proj1 (bound_repair_spec gl p bs module_bounds t j g t' g' E)).
Qed.

(** The trial vector has the four entries of the crossover mask. *)
Lemma make_trial_inv (i : nat) (s : state) (t1 trial : ndarray1) (g3 : G) :
  make_trial self gl i s = Ok (t1, trial, g3) ->
  length trial = 4 /\
  exists g2, bound_repair gl (pop s) 0 t1 g2 = Ok (trial, g3).
Proof.
  unfold make_trial. intros E.
  inv_bind E as [[r0 r1] g1] _.
  inv_bind E as t0 _.
  inv_bind E as [t1' g2] Ec.
  inv_bind E as [tr g3'] Eb.
  injection E as <- <- <-.
  split; [|eauto].
  rewrite (bound_repair_length _ _ _ _ _ _ Eb).
  unfold crossover in Ec.
  pose proof (rand1_length 3 g1) as Hr.
  destruct (np_random_rand1 3 g1) as [us gx]. simpl in Hr.
  inv_bind Ec as t Ew. injection Ec as <- <-.
  unfold np_where in Ew. rewrite length_app, length_map, Hr in Ew.
  simpl in Ew.
  inv_bind Ew as n1 E1.
  inv_bind Ew as n E2.
  injection Ew as <-. rewrite length_map, length_seq.
  assert (Hn1 : n1 = 4).
  { unfold broadcast_shape in E1.
    destruct (4 =? length t0) eqn:Ea; [congruence|]. simpl in E1.
    destruct (length t0 =? 1); congruence. }
  subst n1. unfold broadcast_shape in E2.
  destruct (4 =? length (nth i (pop s) [])) eqn:Ea; [congruence|].
  simpl in E2. destruct (length (nth i (pop s) []) =? 1); congruence.
Qed.

(** A trial of four entries is stored as it is. *)
Lemma setrow_four (a a' : ndarray2) (i : nat) (v : ndarray1) :
  length v = 4 -> setrow a i v = Ok a' -> a' = replace_nth i v a.
Proof.
  intros Hv. unfold setrow. intros E.
  inv_bind E as r _.
  destruct (length v =? length r); [congruence|].
  rewrite Hv in E. simpl in E. discriminate.
Qed.

Lemma within_nth (p : ndarray2) (k : nat) :
  Forall (fun r => within bs r = true) p -> within bs (nth k p []) = true.
Proof.
  intros Hp. destruct (Nat.lt_ge_cases k (length p)) as [Hk|Hk].
  - rewrite Forall_forall in Hp. apply Hp. apply nth_In. assumption.
  - rewrite nth_overflow by assumption. reflexivity.
Qed.

(** One inner iteration keeps the population and the best-fit vector
    within the bounds. *)
Lemma rows_within_inner (i : nat) (s s' : state) :
  Forall (fun b => finite_bound b = true) bs ->
  rows_within bs s ->
  inner self gl i s = Ok s' ->
  rows_within bs s'.
Proof.
  intros Hfb [Hpop Hbest] E. unfold inner in E.
  inv_bind E as [[t1 trial] g3] Et.
  destruct (make_trial_inv i s t1 trial g3 Et) as [Hlen [g2 Hrep]].
  assert (Htrial : within bs trial = true).
  { exact (bound_repair_inside gl bs (pop s) module_bounds Hfb Hpop
             t1 0 g2 trial g3 Hrep). }
  destruct (func self trial (data self)
            <? func self (nth i (pop s) []) (data self))%float.
  - inv_bind E as p' Ep.
    apply (setrow_four _ _ _ _ Hlen) in Ep. subst p'.
    assert (Hp' : Forall (fun r => within bs r = true)
                    (replace_nth i trial (pop s))).
    { apply Forall_forall. intros r Hin. apply In_replace_nth in Hin.
      destruct Hin as [->|Hin]; [assumption|].
      rewrite Forall_forall in Hpop. auto. }
    destruct (func self trial (data self) <? lst_err s)%float;
      injection E as <-; split; simpl; try assumption.
    unfold best_vector in *. simpl.
    destruct (bestfit s) as [k|v]; simpl in *; [|assumption].
    apply within_nth. assumption.
  - injection E as <-. split; assumption.
Qed.

(** The state after [n] more generations, started from a state reached
    after [m], is the state after [m + n] generations. *)
Lemma generations_add (m n : nat) (s : state) :
  generations self gl (m + n) s
  = match generations self gl m s with
    | Completed s' => generations self gl n s'
    | Interrupted e s' => Interrupted e s'
    end.
Proof.
  revert s. induction m as [|m IH]; intros s; simpl; [reflexivity|].
  destruct (members self gl (seq 0 (length (pop s))) s) as [s'|e s'];
    [apply IH | reflexivity].
Qed.

End Bounds.

Lemma forallb_Forall {A : Type} (f : A -> bool) (l : list A) :
  forallb f l = true -> Forall (fun x => f x = true) l.
Proof.
  intros E. apply Forall_forall. intros x Hx.
  rewrite forallb_forall in E. auto.
Qed.

(** C5 fails as stated: the notebook's configuration with the guess
    [(1e7, 1.5, 0.5, 0.5)], whose last entry is outside its bound
    [(0.0, 0.1)], and an evaluator that is smallest at the guess.  After
    three generations the guess is still member 0 and the best-fit
    vector, and no member of the population satisfies the bounds. *)
Lemma guess_outside_bounds_is_retained :
  let gv := [1.0e7; 1.5; 0.5; 0.5]%float in
  let self := mkDE Notebook.sq_dist 0.2%float 0.6%float 4 5 3 gv
                (Some Notebook.bounds) (Some gv) in
  exists s0 s,
    g_bounds Notebook.globals = bounds self /\
    diff_evolution_solver self Notebook.globals Notebook.tape
    = Ok (s0, Completed s) /\
    nth_error (pop s) 0 = Some gv /\
    best_vector s = gv /\
    within Notebook.bounds gv = false /\
    forallb (fun r => negb (within Notebook.bounds r)) (pop s) = true.
Proof.
  cbv zeta. do 2 eexists.
  split; [reflexivity|].
  split; [vm_compute; reflexivity|].
  repeat split; vm_compute; reflexivity.
Qed.

(** Nor do the random draws always start inside the bounds: with the
    bounds [(-1e308, 1e308)] the width [high - low] overflows to
    infinity, every rescaled draw is infinite, and the population stays
    so through the generation. *)
Example wide_bounds_overflow :
  let wide := [(-1e308, 1e308); (-1e308, 1e308);
               (-1e308, 1e308); (-1e308, 1e308)]%float in
  let self := mkDE Notebook.sq_dist 0.2%float 0.6%float 4 3 1
                Notebook.target (Some wide) None in
  exists s0 s,
    diff_evolution_solver self (mkGlobals (Some 0.2%float) (Some wide))
      Notebook.tape = Ok (s0, Completed s) /\
    pop s = repeat (repeat infinity 4) 3 /\
    forallb (fun r => negb (within wide r)) (pop s) = true.
Proof.
  cbv zeta. do 2 eexists.
  split; [vm_compute; reflexivity|].
  split; vm_compute; reflexivity.
Qed.

(** Nor can a bound with [low > high] be satisfied: with the bounds
    [(1, 0)] no member of the population is within them after the
    generation. *)
Example inverted_bounds_unsatisfied :
  let inverted := [(1, 0); (1, 0); (1, 0); (1, 0)]%float in
  let self := mkDE Notebook.sq_dist 0.2%float 0.6%float 4 3 1
                Notebook.target (Some inverted) None in
  exists s0 s,
    diff_evolution_solver self (mkGlobals (Some 0.2%float) (Some inverted))
      Notebook.tape = Ok (s0, Completed s) /\
    forallb (fun r => negb (within inverted r)) (pop s) = true.
Proof.
  cbv zeta. do 2 eexists.
  split; vm_compute; reflexivity.
Qed.

(** * The initial population *)

Lemma map_nth_seq {A : Type} (d : A) (v : list A) :
  map (fun k => nth k v d) (seq 0 (length v)) = v.
Proof.
  apply nth_ext with (d := d) (d' := d).
  - rewrite length_map, length_seq. reflexivity.
  - intros n Hn. rewrite length_map, length_seq in Hn.
    rewrite nth_indep with (d' := nth 0 v d)
      by (rewrite length_map, length_seq; assumption).
    rewrite map_nth with (f := fun k => nth k v d).
    rewrite seq_nth by assumption. reflexivity.
Qed.

Lemma nth_map_seq {A : Type} (d : A) (f : nat -> A) (n k : nat) :
  k < n -> nth k (map f (seq 0 n)) d = f k.
Proof.
  intros Hk.
  rewrite nth_indep with (d' := f 0)
    by (rewrite length_map, length_seq; assumption).
  rewrite map_nth. rewrite seq_nth by assumption. reflexivity.
Qed.

Section Draws.
Context {G : Type} `{RandomState G}.

Lemma skip_add (a b : nat) (g : G) : skip (a + b) g = skip b (skip a g).
Proof.
  revert g. induction a as [|a IH]; intros g; simpl; [reflexivity|]. apply IH.
Qed.

Lemma nth_double_skip (a k : nat) (g : G) :
  nth_double (skip a g) k = nth_double g (a + k).
Proof.
  unfold nth_double. rewrite (Nat.add_comm a k), skip_add.
  revert g. induction k as [|k IH]; intros g; simpl.
  - reflexivity.
  - rewrite <- IH. clear IH. f_equal. f_equal.
    revert g. induction a as [|a IHa]; intros g; simpl; [reflexivity|].
    apply IHa.
Qed.

Lemma rand1_spec (n : nat) (g : G) :
  np_random_rand1 n g = (map (nth_double g) (seq 0 n), skip n g).
Proof.
  revert g. induction n as [|n IH]; intros g; simpl; [reflexivity|].
  destruct (rk_double g) as [u g1] eqn:Eu. rewrite IH.
  unfold nth_double at 2. simpl. rewrite Eu. simpl.
  f_equal. f_equal. rewrite <- seq_shift, map_map.
  apply map_ext. intros k. unfold nth_double. simpl. rewrite Eu. reflexivity.
Qed.

Lemma rand_rows_spec (d0 d1 : nat) (g : G) :
  rand_rows d0 d1 g
  = (map (fun j => map (fun i => nth_double g (j * d1 + i)) (seq 0 d1))
       (seq 0 d0),
     skip (d0 * d1) g).
Proof.
  revert g. induction d0 as [|d0 IH]; intros g; simpl; [reflexivity|].
  rewrite rand1_spec, IH. f_equal.
  - f_equal. rewrite <- seq_shift, map_map. apply map_ext. intros j.
    apply map_ext. intros i. rewrite nth_double_skip. f_equal. lia.
  - rewrite skip_add. reflexivity.
Qed.

End Draws.

(** [scale_rows] rescales row [j] with bound [ii + j]. *)
Lemma scale_rows_spec (bs : list (float * float)) (rows : ndarray2) :
  forall (ii : nat) (rows' : ndarray2),
    scale_rows bs ii rows = Ok rows' ->
    length rows' = length rows /\
    forall j, j < length rows ->
      nth j rows' []
      = map (rescale (nth (ii + j) bs (0, 0)%float)) (nth j rows []).
Proof.
  induction rows as [|r rows IH]; intros ii rows' E; simpl in E.
  - injection E as <-. split; [reflexivity|]. simpl. lia.
  - inv_bind E as b Eb.
    inv_bind E as rest Er.
    injection E as <-. destruct (IH _ _ Er) as [Hl Hj].
    split; [simpl; congruence|].
    intros [|j] Hlt; simpl.
    + apply getrow_ok in Eb. destruct Eb as [Eb _].
      rewrite Nat.add_0_r. rewrite (nth_error_nth _ _ _ Eb). reflexivity.
    + rewrite Hj by (simpl in Hlt; lia).
      rewrite Nat.add_succ_r. reflexivity.
Qed.

Lemma scale_rows_ok (bs : list (float * float)) (rows : ndarray2) :
  forall ii, ii + length rows <= length bs ->
    exists rows', scale_rows bs ii rows = Ok rows'.
Proof.
  induction rows as [|r rows IH]; intros ii Hl; simpl in *; [eauto|].
  unfold getrow. destruct (nth_error bs ii) as [b|] eqn:Eb.
  - simpl. destruct (IH (S ii)) as [rest Er]; [lia|].
    rewrite Er. simpl. eauto.
  - apply nth_error_None in Eb. lia.
Qed.

Lemma transpose_row (ncols : nat) (a : ndarray2) (i : nat) :
  i < ncols ->
  nth_error (transpose ncols a) i = Some (map (fun r => nth i r 0%float) a).
Proof.
  intros Hi. unfold transpose.
  rewrite nth_error_map, nth_error_seq.
  destruct (Nat.ltb_spec i ncols); [reflexivity | lia].
Qed.

(** After [pop[:, 0] = v], with [v] one entry per row, column 0 is
    [v]. *)
Lemma set_column0_first (a a' : ndarray2) (ncols : nat) (v : ndarray1) :
  length v = length a ->
  set_column0 a ncols v = Ok a' ->
  map (fun r => nth 0 r 0%float) a' = v.
Proof.
  intros Hl. unfold set_column0.
  destruct (ncols =? 0); [discriminate|].
  rewrite Hl, Nat.eqb_refl. simpl. intros [= <-].
  rewrite map_map. simpl. rewrite <- Hl.
  rewrite <- (map_nth_seq 0%float v) at 2.
  apply map_ext_in. intros k Hk. apply in_seq in Hk.
  apply bget_nth. lia.
Qed.

Section InitialPopulation.
Context {G : Type} `{RandomState G}.
Variable Data : Type.
Variable self : DifferentialEvolution Data.

Lemma population_with_guess (g : G) (gv : ndarray1) :
  guess self = Some gv ->
  length gv = Z.to_nat (nparam self) ->
  (0 < nparam self)%Z ->
  (0 < npop self)%Z ->
  (truthy (bounds self) = true ->
   Z.to_nat (nparam self) <= length (tuple_of (bounds self))) ->
  exists p g',
    population_generator self g = Ok (p, g') /\
    nth_error p 0 = Some gv /\
    length p = Z.to_nat (npop self).
Proof.
  intros Hg Hlen Hnp Hnpop Hb. unfold population_generator, np_random_rand2.
  destruct (nparam self <? 0)%Z eqn:E1; [lia|].
  destruct (npop self <? 0)%Z eqn:E2; [lia|].
  simpl. rewrite rand_rows_spec.
  set (rows := map _ (seq 0 (Z.to_nat (nparam self)))).
  assert (Hrows : length rows = Z.to_nat (nparam self))
    by (unfold rows; rewrite length_map, length_seq; reflexivity).
  clearbody rows.
  assert (Htruthy : truthy (guess self) = true).
  { rewrite Hg. destruct gv; [simpl in Hlen; lia | reflexivity]. }
  assert (Hset : forall a, length a = Z.to_nat (nparam self) ->
            exists a', apply_guess self a = Ok a' /\
                       map (fun r => nth 0 r 0%float) a' = gv).
  { intros a Ha. unfold apply_guess. rewrite Htruthy, Hg. simpl.
    destruct (set_column0 a (Z.to_nat (npop self)) gv) as [a'|e] eqn:Es.
    - exists a'. split; [reflexivity|].
      apply (set_column0_first a a' (Z.to_nat (npop self)) gv);
        [congruence | assumption].
    - unfold set_column0 in Es.
      destruct (Z.to_nat (npop self) =? 0) eqn:E0;
        [apply Nat.eqb_eq in E0; lia|].
      rewrite Hlen, Ha, Nat.eqb_refl in Es. discriminate. }
  assert (Hfin : forall a', map (fun r => nth 0 r 0%float) a' = gv ->
            nth_error (transpose (Z.to_nat (npop self)) a') 0 = Some gv /\
            length (transpose (Z.to_nat (npop self)) a')
            = Z.to_nat (npop self)).
  { intros a' Ha'. split.
    - rewrite transpose_row by lia. rewrite Ha'. reflexivity.
    - unfold transpose. rewrite length_map, length_seq. reflexivity. }
  destruct (truthy (bounds self)) eqn:Etb.
  - destruct (scale_rows_ok (tuple_of (bounds self)) rows 0) as [pop1 E];
      [unfold ndarray1 in *; simpl; rewrite Hrows; auto|].
    rewrite E. simpl.
    destruct (scale_rows_spec _ _ _ _ E) as [Hl1 _].
    unfold ndarray1 in *.
    destruct pop1 as [|r pop1]; [simpl in Hl1; lia|].
    destruct (Hset (r :: pop1)) as [a' [Ea Hc]]; [congruence|].
    rewrite Ea. simpl. eexists. eexists. split; [reflexivity|].
    apply Hfin. assumption.
  - destruct (Hset rows Hrows) as [a' [Ea Hc]].
    rewrite Ea. simpl. eexists. eexists. split; [reflexivity|].
    apply Hfin. assumption.
Qed.

Lemma population_without_guess (g : G) (p : ndarray2) (g' : G) :
  truthy (guess self) = false ->
  population_generator self g = Ok (p, g') ->
  forall i j,
    i < Z.to_nat (npop self) ->
    j < Z.to_nat (nparam self) ->
    nth j (nth i p []) 0%float
    = placed self j (nth_double g (j * Z.to_nat (npop self) + i)).
Proof.
  intros Hg E i j Hi Hj. unfold population_generator, np_random_rand2 in E.
  unfold ndarray2, ndarray1 in *.
  destruct ((nparam self <? 0) || (npop self <? 0))%Z; [discriminate|].
  simpl in E. rewrite rand_rows_spec in E.
  set (d1 := Z.to_nat (npop self)) in *.
  set (d0 := Z.to_nat (nparam self)) in *.
  set (rows := map _ (seq 0 d0)) in E.
  assert (Hrow : nth j rows []
                 = map (fun i => nth_double g (j * d1 + i)) (seq 0 d1)).
  { unfold rows.
    apply (nth_map_seq []
             (fun j => map (fun i => nth_double g (j * d1 + i)) (seq 0 d1))
             d0 j Hj). }
  assert (Hrows : length rows = d0)
    by (unfold rows; rewrite length_map, length_seq; reflexivity).
  assert (Hfin : forall a, length a = d0 ->
            nth j (nth i (transpose d1 a) []) 0%float
            = nth i (nth j a []) 0%float).
  { intros a Ha.
    rewrite (nth_error_nth _ _ _ (transpose_row d1 a i Hi)).
    unfold ndarray2, ndarray1 in *.
    rewrite nth_indep with (d' := nth i [] 0%float)
      by (rewrite length_map; lia).
    rewrite map_nth with (f := fun r => nth i r 0%float). reflexivity. }
  unfold placed, apply_guess in *. rewrite Hg in E.
  destruct (truthy (bounds self)) eqn:Etb.
  - inv_bind E as pop1 Es.
    destruct (scale_rows_spec _ _ _ _ Es) as [Hl1 Hsc].
    unfold ndarray2, ndarray1 in *.
    destruct pop1 as [|r pop1]; [simpl in Hl1; lia|].
    simpl in E. injection E as <- <-.
    rewrite Hfin by congruence.
    rewrite Hsc by lia. rewrite Hrow. simpl.
    rewrite nth_indep with (d' := rescale (nth j (tuple_of (bounds self))
                                             (0, 0)%float) 0%float)
      by (rewrite !length_map, length_seq; assumption).
    rewrite map_nth. f_equal.
    apply (nth_map_seq 0%float (fun i => nth_double g (j * d1 + i)) d1 i Hi).
  - cbn [bind] in E. injection E as <- <-.
    rewrite Hfin by assumption. unfold ndarray2, ndarray1 in *.
    rewrite Hrow.
    apply (nth_map_seq 0%float (fun i => nth_double g (j * d1 + i)) d1 i Hi).
Qed.

(** Initialization succeeds on every well-formed configuration. *)
Lemma population_generator_ok (g : G) :
  well_formed self ->
  exists p g',
    population_generator self g = Ok (p, g') /\
    length p = Z.to_nat (npop self).
Proof.
  intros (Hnp & Hnpop & Hb & Hg).
  destruct (truthy (guess self)) eqn:Etg.
  - destruct (guess self) as [gv|] eqn:Eg; [|discriminate].
    destruct (population_with_guess g gv Eg) as (p & g' & E & _ & Hl);
      try lia; try assumption.
    + apply Hg. reflexivity.
    + exists p, g'. auto.
  - unfold population_generator, np_random_rand2, apply_guess.
    destruct (nparam self <? 0)%Z eqn:E1; [lia|].
    destruct (npop self <? 0)%Z eqn:E2; [lia|].
    rewrite Etg. simpl. rewrite rand_rows_spec.
    set (rows := map _ (seq 0 (Z.to_nat (nparam self)))).
    assert (Hrows : length rows = Z.to_nat (nparam self))
      by (unfold rows; rewrite length_map, length_seq; reflexivity).
    clearbody rows.
    destruct (truthy (bounds self)) eqn:Etb.
    + destruct (scale_rows_ok (tuple_of (bounds self)) rows 0) as [pop1 E];
        [unfold ndarray1 in *; simpl; rewrite Hrows; auto|].
      rewrite E. simpl.
      destruct (scale_rows_spec _ _ _ _ E) as [Hl1 _].
      unfold ndarray1 in *.
      destruct pop1 as [|r pop1]; [simpl in Hl1; lia|].
      simpl. eexists. eexists. split; [reflexivity|].
      unfold transpose. rewrite length_map, length_seq. reflexivity.
    + simpl. eexists. eexists. split; [reflexivity|].
      unfold transpose. rewrite length_map, length_seq. reflexivity.
Qed.

(** C9: with a guess of [nparam] entries, in a configuration with
    positive sizes and (when bounds are given) a bound for every
    parameter, initialization succeeds and member 0 of the population is
    the guess, with and without bounds; without a guess, entry [j] of
    member [i] is the draw number [j * npop + i] of the generator,
    rescaled into its bound when bounds are given. *)
Theorem guess_is_member_zero (g : G) :
  (forall gv,
      guess self = Some gv ->
      length gv = Z.to_nat (nparam self) ->
      (0 < nparam self)%Z ->
      (0 < npop self)%Z ->
      (truthy (bounds self) = true ->
       Z.to_nat (nparam self) <= length (tuple_of (bounds self))) ->
      exists p g',
        population_generator self g = Ok (p, g') /\
        nth_error p 0 = Some gv /\
        length p = Z.to_nat (npop self)) /\
  (truthy (guess self) = false ->
   forall p g',
     population_generator self g = Ok (p, g') ->
     forall i j,
       i < Z.to_nat (npop self) ->
       j < Z.to_nat (nparam self) ->
       nth j (nth i p []) 0%float
       = placed self j (nth_double g (j * Z.to_nat (npop self) + i))).
Proof.
  split.
  - intros gv. apply population_with_guess.
  - intros Hg p g'. apply population_without_guess. assumption.
Qed.

End InitialPopulation.

(** ** The initial population and the bounds *)

(** An array of one row per parameter, [ncols] entries a row, each row
    within the bound of its parameter. *)
Definition boxed (bs : list (float * float)) (ncols : nat) (a : ndarray2)
  : Prop :=
  forall k r, nth_error a k = Some r ->
    length r = ncols /\
    exists b, nth_error bs k = Some b /\
              Forall (fun x => inside b x = true) r.

Definition unit_draw (x : float) : Prop :=
  (0 <=? x)%float = true /\ (x <? 1)%float = true.

(** Line 80 puts a draw from [[0, 1)] between the ends of its bound. *)
Lemma rescale_inside (b : float * float) (u : float) :
  finite_bound b = true -> unit_draw u -> inside b (rescale b u) = true.
Proof.
  unfold finite_bound, unit_draw, rescale, inside.
  intros Hb [Hu0 Hu1]. apply andb_prop in Hb. destruct Hb as [Hle Hw].
  destruct (leb_not_nan _ _ Hle) as [Hlo Hhi].
  destruct (Binary64.lerp_between (fst b) (snd b) (fst b) (snd b) u Hw
              (float_le_refl _ Hlo) Hle (float_le_refl _ Hhi) Hu0 Hu1)
    as [H1 H2].
  rewrite H1, H2. reflexivity.
Qed.

Lemma scale_rows_boxed (bs : list (float * float)) (ncols : nat)
  (rows : ndarray2) :
  Forall (fun b => finite_bound b = true) bs ->
  Forall (fun r => length r = ncols /\ Forall unit_draw r) rows ->
  forall (ii : nat) (rows' : ndarray2),
    scale_rows bs ii rows = Ok rows' ->
    forall k r, nth_error rows' k = Some r ->
      length r = ncols /\
      exists b, nth_error bs (ii + k) = Some b /\
                Forall (fun x => inside b x = true) r.
Proof.
  intros Hfb Hrows. induction Hrows as [|r0 rows [Hl Hu] _ IH];
    intros ii rows' E k r Er; simpl in E.
  - injection E as <-. destruct k; discriminate.
  - inv_bind E as b Eb. inv_bind E as rest Erest. injection E as <-.
    apply getrow_ok in Eb. destruct Eb as [Eb _].
    destruct k as [|k]; simpl in Er.
    + injection Er as <-. split; [rewrite length_map; assumption|].
      exists b. rewrite Nat.add_0_r. split; [assumption|].
      apply Forall_forall. intros x Hx. apply in_map_iff in Hx.
      destruct Hx as (u & <- & Hin). apply rescale_inside.
      * rewrite Forall_forall in Hfb. apply Hfb.
        eapply nth_error_In. eassumption.
      * rewrite Forall_forall in Hu. auto.
    + rewrite Nat.add_succ_r. apply (IH (S ii) rest Erest k r Er).
Qed.

Lemma set_column0_boxed (bs : list (float * float)) (ncols : nat)
  (a a' : ndarray2) (v : ndarray1) :
  boxed bs ncols a ->
  within bs (map (bget 0%float v) (seq 0 (length a))) = true ->
  set_column0 a ncols v = Ok a' ->
  boxed bs ncols a'.
Proof.
  intros Ha Hv. unfold set_column0.
  destruct (ncols =? 0) eqn:En; [discriminate|]. apply Nat.eqb_neq in En.
  destruct ((length v =? length a) || (length v =? 1)); [|discriminate].
  intros [= <-].
  intros k r Er. rewrite nth_error_map, nth_error_seq in Er.
  destruct (Nat.ltb_spec k (length a)) as [Hk|Hk]; [|discriminate].
  simpl in Er. injection Er as <-.
  destruct (nth_error a k) as [r0|] eqn:E0;
    [|apply nth_error_None in E0; lia].
  rewrite (nth_error_nth _ _ _ E0).
  destruct (Ha k r0 E0) as (Hlr & b & Eb & Hin).
  split.
  - destruct r0; simpl in *; lia.
  - exists b. split; [assumption|]. constructor.
    + assert (Ex : nth_error (map (bget 0%float v) (seq 0 (length a))) k
                   = Some (bget 0%float v k)).
      { rewrite nth_error_map, nth_error_seq.
        destruct (Nat.ltb_spec k (length a)); [reflexivity | lia]. }
      destruct (within_inv bs _ Hv k _ Ex) as (b' & Eb' & Hx). congruence.
    + destruct r0 as [|y r0]; [constructor|]. inversion Hin. assumption.
Qed.

(** The members are the columns of a boxed array. *)
Lemma transpose_within (bs : list (float * float)) (ncols : nat)
  (a : ndarray2) :
  boxed bs ncols a ->
  Forall (fun r => within bs r = true) (transpose ncols a).
Proof.
  intros Ha. unfold boxed, ndarray2, ndarray1 in *.
  apply Forall_forall. intros row Hrow. unfold transpose in Hrow.
  apply in_map_iff in Hrow. destruct Hrow as (i & <- & Hi).
  apply in_seq in Hi. apply within_intro. intros k x Ex.
  rewrite nth_error_map in Ex.
  destruct (nth_error a k) as [r|] eqn:Er; simpl in Ex; [|discriminate].
  injection Ex as <-.
  destruct (Ha k r Er) as (Hlr & b & Eb & Hin).
  exists b. split; [assumption|].
  rewrite Forall_forall in Hin. apply Hin. apply nth_In. lia.
Qed.

Section InitialBounds.
Context {G : Type} `{RandomState G}.
Variable Data : Type.
Variable self : DifferentialEvolution Data.
Variable gl : Globals.
Variable bs : list (float * float).
Hypothesis module_bounds : g_bounds gl = Some bs.
Hypothesis configured : bounds self = Some bs.
Hypothesis supplied : bs <> [].
Hypothesis finite : Forall (fun b => finite_bound b = true) bs.
Hypothesis guess_ok : guess_inside self bs.

Lemma rand_rows_unit (d0 d1 : nat) (g : G) :
  Forall (fun r => length r = d1 /\ Forall unit_draw r)
    (fst (rand_rows d0 d1 g)).
Proof.
  rewrite rand_rows_spec. simpl. apply Forall_forall. intros r Hr.
  apply in_map_iff in Hr. destruct Hr as (j & <- & _).
  split; [rewrite length_map, length_seq; reflexivity|].
  apply Forall_forall. intros x Hx. apply in_map_iff in Hx.
  destruct Hx as (i & <- & _). unfold nth_double. apply rk_double_range.
Qed.

(** Lines 78 to 83: every member of the initial population satisfies
    the bounds. *)
Lemma population_within (g : G) (p : ndarray2) (g' : G) :
  population_generator self g = Ok (p, g') ->
  Forall (fun r => within bs r = true) p.
Proof.
  unfold population_generator, np_random_rand2, apply_guess. intros E.
  destruct ((nparam self <? 0)%Z || (npop self <? 0)%Z); [discriminate|].
  cbn [bind] in E.
  pose proof (rand_rows_unit (Z.to_nat (nparam self))
                (Z.to_nat (npop self)) g) as Hu.
  assert (Hl : length (fst (rand_rows (Z.to_nat (nparam self))
                                 (Z.to_nat (npop self)) g))
               = Z.to_nat (nparam self)).
  { rewrite rand_rows_spec. simpl. rewrite length_map, length_seq.
    reflexivity. }
  destruct (rand_rows (Z.to_nat (nparam self)) (Z.to_nat (npop self)) g)
    as [rows g1]. simpl in Hu, Hl.
  assert (Ht : truthy (bounds self) = true).
  { rewrite configured. destruct bs; [congruence | reflexivity]. }
  rewrite Ht in E. rewrite configured in E. simpl tuple_of in E.
  inv_bind E as pop1 Es.
  assert (Hbox : boxed bs (Z.to_nat (npop self)) pop1).
  { intros k r Er.
    exact (scale_rows_boxed bs _ rows finite Hu 0 pop1 Es k r Er). }
  assert (Hl1 : length pop1 = Z.to_nat (nparam self)).
  { destruct (scale_rows_spec _ _ _ _ Es) as [-> _]. assumption. }
  destruct pop1 as [|r pop1].
  - destruct (truthy (guess self)); [discriminate|].
    injection E as <- _. constructor.
  - destruct (truthy (guess self)) eqn:Etg.
    + pose proof (guess_ok Etg) as Hgw. rewrite <- Hl1 in Hgw.
      inv_bind E as pop2 Eg. injection E as <- _.
      apply transpose_within.
      exact (set_column0_boxed bs _ (r :: pop1) pop2
               (tuple_of (guess self)) Hbox Hgw Eg).
    + cbn [bind] in E. injection E as <- _.
      apply transpose_within. assumption.
Qed.

(** C5, as the code has it.  Take a run in which the module-level
    [bounds] is the bounds the engine was configured with, every bound
    has [low <= high] and a finite width [high - low], and the guess,
    if there is one, satisfies the bounds at the shape of a member.
    Then every member of the initial population satisfies the bounds,
    bound repair puts every entry of a trial vector within its bound,
    and at the end of every generation, and wherever a run is
    interrupted, every member of the population and the best-fit vector
    satisfy [low_j <= x_j <= high_j] at every index. *)
Theorem bounds_hold_for_finite_bounds (g : G) (s0 : state) (n : nat) :
  solver_setup self g = Ok s0 ->
  rows_within bs (final (generations self gl n s0)).
Proof.
  intros E0.
  destruct (solver_setup_inv Data self g s0 E0)
    as (p & g1 & k & err & Ep & _ & _ & ->).
  pose proof (population_within g p g1 Ep) as Hp.
  apply (generations_preserves Data self gl (rows_within bs)).
  - intros i s s' Hs E.
    exact (rows_within_inner Data self gl bs module_bounds i s s' finite Hs E).
  - split; [assumption|]. unfold best_vector. simpl.
    apply within_nth. assumption.
Qed.

End InitialBounds.

(** The notebook's configuration with its bounds and its guess, five
    members and three generations. *)
Lemma bounds_hold_for_finite_bounds_witness :
  let self := Notebook.engine Notebook.sq_dist 4 5 3
                (Some Notebook.bounds) (Some Notebook.guess) in
  exists s0,
    g_bounds Notebook.globals = Some Notebook.bounds /\
    bounds self = Some Notebook.bounds /\
    Notebook.bounds <> [] /\
    Forall (fun b => finite_bound b = true) Notebook.bounds /\
    guess_inside self Notebook.bounds /\
    solver_setup self Notebook.tape = Ok s0 /\
    rows_within Notebook.bounds
      (final (generations self Notebook.globals 3 s0)).
Proof.
  cbv zeta.
  destruct (solver_setup
              (Notebook.engine Notebook.sq_dist 4 5 3
                 (Some Notebook.bounds) (Some Notebook.guess)) Notebook.tape)
    as [s0|e] eqn:E0; [|vm_compute in E0; discriminate].
  exists s0.
  assert (Hne : Notebook.bounds <> []) by discriminate.
  assert (Hfin : Forall (fun b => finite_bound b = true) Notebook.bounds)
    by (repeat constructor).
  assert (Hg : guess_inside
                 (Notebook.engine Notebook.sq_dist 4 5 3
                    (Some Notebook.bounds) (Some Notebook.guess))
                 Notebook.bounds)
    by (intros _; reflexivity).
  repeat (split; [first [reflexivity | assumption]|]).
  exact (bounds_hold_for_finite_bounds ndarray1
           (Notebook.engine Notebook.sq_dist 4 5 3
              (Some Notebook.bounds) (Some Notebook.guess))
           Notebook.globals Notebook.bounds eq_refl eq_refl Hne Hfin Hg
           Notebook.tape s0 3 E0).
Defined.

(** The notebook's configuration with its guess, bounded and unbounded,
    and without a guess. *)
Lemma guess_is_member_zero_witness :
  let self_b := Notebook.engine Notebook.sq_dist 4 10 3
                  (Some Notebook.bounds) (Some Notebook.guess) in
  let self_u := Notebook.engine Notebook.sq_dist 4 10 3
                  None (Some Notebook.guess) in
  let self_n := Notebook.engine Notebook.sq_dist 4 10 3
                  (Some Notebook.bounds) None in
  (exists p g',
      population_generator self_b Notebook.tape = Ok (p, g') /\
      nth_error p 0 = Some Notebook.guess /\
      length p = Z.to_nat (npop self_b)) /\
  (exists p g',
      population_generator self_u Notebook.tape = Ok (p, g') /\
      nth_error p 0 = Some Notebook.guess /\
      length p = Z.to_nat (npop self_u)) /\
  (forall p g',
      population_generator self_n Notebook.tape = Ok (p, g') ->
      forall i j,
        i < Z.to_nat (npop self_n) ->
        j < Z.to_nat (nparam self_n) ->
        nth j (nth i p []) 0%float
        = placed self_n j
            (nth_double Notebook.tape (j * Z.to_nat (npop self_n) + i))).
Proof.
  cbv zeta. split; [|split].
  - apply (proj1 (guess_is_member_zero ndarray1
                    (Notebook.engine Notebook.sq_dist 4 10 3
                       (Some Notebook.bounds) (Some Notebook.guess))
                    Notebook.tape) Notebook.guess);
      [reflexivity | reflexivity | reflexivity | reflexivity
      | intros _; simpl; lia].
  - apply (proj1 (guess_is_member_zero ndarray1
                    (Notebook.engine Notebook.sq_dist 4 10 3
                       None (Some Notebook.guess))
                    Notebook.tape) Notebook.guess);
      [reflexivity | reflexivity | reflexivity | reflexivity
      | intros E; discriminate E].
  - apply (proj2 (guess_is_member_zero ndarray1
                    (Notebook.engine Notebook.sq_dist 4 10 3
                       (Some Notebook.bounds) None)
                    Notebook.tape)).
    reflexivity.
Defined.

(** * Determinism *)

Section Determinism.
Context {G : Type} `{RandomState G}.
Variable Data : Type.


End Determinism.

(** Two runs of the notebook's configuration with seed 0, the second one
    started after the generator has already produced doubles: same
    population, same trials, same stream. *)
Example seeded_runs_agree_example :
  let run g := fresh_run Notebook.sq_dist 0.2%float 0.6%float
                 4 5 3 Notebook.target (Some Notebook.bounds) None
                 (Some 0%Z) Notebook.globals g in
  run Notebook.tape = run (skip 17 Notebook.tape) /\
  is_ok (run Notebook.tape) = true.
Proof. cbv zeta. split; vm_compute; reflexivity. Qed.


(** * A population of one member *)

Lemma argmin_from_bound (xs : list float) :
  forall (mp : float) (mi i : nat),
    mi < i -> argmin_from mp mi i xs < i + length xs.
Proof.
  induction xs as [|x xs IH]; intros mp mi i Hmi; simpl; [lia|].
  destruct (negb (mp <=? x)%float).
  - destruct (is_nan x); [lia|].
    specialize (IH x i (S i)). lia.
  - specialize (IH mp mi (S i)). lia.
Qed.

Lemma np_argmin_lt (xs : list float) (k : nat) :
  np_argmin xs = Ok k -> k < length xs.
Proof.
  unfold np_argmin. destruct xs as [|x xs]; [discriminate|].
  intros [= <-]. simpl. destruct (is_nan x); [lia|].
  pose proof (argmin_from_bound xs x 0 1). lia.
Qed.

Section SingleMember.
Context {G : Type} `{RandomState G}.
Variable Data : Type.

(** The setup succeeds on every well-formed configuration. *)
Lemma solver_setup_ok (self : DifferentialEvolution Data) (g : G) :
  well_formed self -> exists s0, solver_setup self g = Ok s0.
Proof.
  intros Hwf.
  destruct (population_generator_ok Data self g Hwf) as (p & g1 & Ep & Hl).
  destruct Hwf as (_ & Hnpop & _).
  unfold solver_setup, least_error_idx. rewrite Ep. simpl.
  destruct (npop self <? 0)%Z eqn:E1; [lia|].
  rewrite Hl, Nat.ltb_irrefl, Nat.sub_diag. simpl. rewrite app_nil_r.
  destruct (np_argmin (map (fun row => func self row (data self)) p))
    as [k|e] eqn:Ea.
  - simpl. apply np_argmin_lt in Ea. rewrite length_map in Ea.
    unfold getrow. destruct (nth_error p k) as [r|] eqn:Er.
    + simpl. eauto.
    + apply nth_error_None in Er. lia.
  - destruct p as [|r p]; [simpl in Hl; lia | discriminate].
Qed.

(** C10: a well-formed configuration with [npop = 1] passes construction
    (only the seed is looked at) and setup, and with [niter >= 1] the
    run stops in its first inner iteration: drawing two distinct
    positions out of one raises [ValueError], before anything is
    yielded, and [result] raises it too. *)
Theorem npop_one_fails_in_first_iteration
  (f : ndarray1 -> Data -> float) (km kc : float) (np ni : Z) (d : Data)
  (b : option (list (float * float))) (gs : option ndarray1)
  (seed : option Z) (g : G) (gl : Globals) :
  seed_ok seed = true ->
  (1 <= ni)%Z ->
  well_formed (mkDE f km kc np 1 ni d b gs) ->
  exists self g' s0,
    __init__ f km kc np 1 ni d b gs seed g = Ok (self, g') /\
    solver_setup self g' = Ok s0 /\
    inner self gl 0 s0 = Raise choice_error /\
    diff_evolution_solver self gl g' = Ok (s0, Interrupted choice_error s0) /\
    emitted s0 = [] /\
    result self gl g' = Raise choice_error.
Proof.
  intros Hseed Hni Hwf.
  set (self := mkDE f km kc np 1 ni d b gs) in *.
  assert (Hg : exists g', np_random_seed seed g = Ok g').
  { unfold np_random_seed, seed_ok in *. destruct seed as [s|]; [|eauto].
    rewrite Hseed. eauto. }
  destruct Hg as [g' Hg].
  destruct (solver_setup_ok self g' Hwf) as [s0 Hs0].
  exists self, g', s0.
  split; [unfold __init__; fold self; rewrite Hg; reflexivity|].
  split; [assumption|].
  assert (Hn : npop self = 1%Z) by reflexivity.
  assert (Hi : niter self = ni) by reflexivity.
  clearbody self.
  pose proof (inner_npop_one Data self gl 0 s0 Hn) as Hin.
  destruct (solver_setup_inv Data self g' s0 Hs0)
    as (p & g1 & k & err & _ & _ & Hk & Hst).
  assert (Hrun : diff_evolution_solver self gl g'
                 = Ok (s0, Interrupted choice_error s0)).
  { unfold diff_evolution_solver. rewrite Hs0. cbn [bind]. rewrite Hi.
    destruct (Z.to_nat ni) as [|n] eqn:En; [lia|]. simpl.
    assert (Hp : pop s0 = p) by (rewrite Hst; reflexivity).
    rewrite Hp. destruct p as [|r p]; [simpl in Hk; lia|].
    simpl. rewrite Hin. reflexivity. }
  repeat split; try assumption.
  - rewrite Hst. reflexivity.
  - unfold result. rewrite Hrun. reflexivity.
Qed.

End SingleMember.

(** The notebook's configuration with [npop = 1] and three generations. *)
Lemma npop_one_fails_in_first_iteration_witness :
  seed_ok (Some 0%Z) = true /\ (1 <= 3)%Z /\
  well_formed (mkDE Notebook.sq_dist 0.2%float 0.6%float 4 1 3
                 Notebook.target (Some Notebook.bounds)
                 (Some Notebook.guess)) /\
  exists self g' s0,
    __init__ Notebook.sq_dist 0.2%float 0.6%float 4 1 3 Notebook.target
             (Some Notebook.bounds) (Some Notebook.guess) (Some 0%Z)
             Notebook.tape = Ok (self, g') /\
    solver_setup self g' = Ok s0 /\
    inner self Notebook.globals 0 s0 = Raise choice_error /\
    diff_evolution_solver self Notebook.globals g'
    = Ok (s0, Interrupted choice_error s0) /\
    emitted s0 = [] /\
    result self Notebook.globals g' = Raise choice_error.
Proof.
  assert (Hwf : well_formed (mkDE Notebook.sq_dist 0.2%float 0.6%float 4 1 3
                               Notebook.target (Some Notebook.bounds)
                               (Some Notebook.guess))).
  { unfold well_formed. simpl. repeat split; try lia; intros _; lia. }
  split; [reflexivity|]. split; [lia|]. split; [exact Hwf|].
  apply (npop_one_fails_in_first_iteration _ Notebook.sq_dist 0.2%float
           0.6%float 4 3 Notebook.target (Some Notebook.bounds)
           (Some Notebook.guess) (Some 0%Z) Notebook.tape Notebook.globals);
    [reflexivity | lia | exact Hwf].
Defined.

(** * More on the order of costs *)

Ltac sf_cases :=
  unfold SFeqb, SFleb, SFltb, SFcompare;
  repeat match goal with
         | x : spec_float |- _ => destruct x as [[|]|[|]| |[|] ? ?]
         end;
  try discriminate; try reflexivity;
  change (Pos.compare_cont Eq) with Pos.compare;
  intros;
  repeat match goal with
         | |- context [Z.compare ?a ?b] => destruct (Z.compare_spec a b)
         | H : context [Z.compare ?a ?b] |- _ => destruct (Z.compare_spec a b)
         end;
  try discriminate; try reflexivity; try lia; subst;
  repeat match goal with
         | |- context [Pos.compare ?a ?b] => destruct (Pos.compare_spec a b)
         | H : context [Pos.compare ?a ?b] |- _ =>
             destruct (Pos.compare_spec a b)
         end;
  simpl in *; try discriminate; try reflexivity; try lia.

Lemma SFltb_leb (x y : spec_float) : SFltb x y = true -> SFleb x y = true.
Proof. sf_cases. Qed.

Lemma SFltb_leb_trans (x y z : spec_float) :
  SFltb x y = true -> SFleb y z = true -> SFltb x z = true.
Proof. sf_cases. Qed.

Lemma SFleb_false_ltb (x y : spec_float) :
  SFeqb x x = true -> SFeqb y y = true ->
  SFleb x y = false -> SFltb y x = true.
Proof. sf_cases. Qed.

Lemma SFltb_false_leb (x y : spec_float) :
  SFeqb x x = true -> SFeqb y y = true ->
  SFltb x y = false -> SFleb y x = true.
Proof. sf_cases. Qed.

Lemma float_lt_le (x y : float) :
  (x <? y)%float = true -> (x <=? y)%float = true.
Proof. rewrite FloatAxioms.ltb_spec, FloatAxioms.leb_spec. apply SFltb_leb. Qed.

Lemma float_lt_le_trans (x y z : float) :
  (x <? y)%float = true -> (y <=? z)%float = true -> (x <? z)%float = true.
Proof.
  rewrite !FloatAxioms.ltb_spec, FloatAxioms.leb_spec. apply SFltb_leb_trans.
Qed.

Lemma float_not_le_lt (x y : float) :
  is_nan x = false -> is_nan y = false ->
  (x <=? y)%float = false -> (y <? x)%float = true.
Proof.
  intros Hx Hy. rewrite FloatAxioms.ltb_spec, FloatAxioms.leb_spec.
  apply SFleb_false_ltb; apply not_nan_eqb; assumption.
Qed.

Lemma float_not_lt_le (x y : float) :
  is_nan x = false -> is_nan y = false ->
  (x <? y)%float = false -> (y <=? x)%float = true.
Proof.
  intros Hx Hy. rewrite FloatAxioms.ltb_spec, FloatAxioms.leb_spec.
  apply SFltb_false_leb; apply not_nan_eqb; assumption.
Qed.

(** * Cost ranking *)

(** The scan of [np.argmin] over a list without NaN, after the prefix
    [pre]: the index returned holds a least entry, and every entry
    before it is strictly greater. *)
Lemma argmin_from_spec (xs : list float) :
  forall (pre : list float) (mp : float) (mi : nat),
    mi < length pre ->
    nth mi pre 0%float = mp ->
    Forall (fun x => is_nan x = false) pre ->
    Forall (fun x => is_nan x = false) xs ->
    (forall j, j < length pre -> (mp <=? nth j pre 0)%float = true) ->
    (forall j, j < mi -> (mp <? nth j pre 0)%float = true) ->
    let k := argmin_from mp mi (length pre) xs in
    k < length (pre ++ xs) /\
    (forall j, j < length (pre ++ xs) ->
               (nth k (pre ++ xs) 0 <=? nth j (pre ++ xs) 0)%float = true) /\
    (forall j, j < k ->
               (nth k (pre ++ xs) 0 <? nth j (pre ++ xs) 0)%float = true).
Proof.
  induction xs as [|x xs IH]; intros pre mp mi Hmi Hmp Hpre Hxs Hle Hlt.
  - simpl. rewrite app_nil_r. rewrite Hmp. auto.
  - inversion Hxs as [|? ? Hx Hxs']; subst.
    assert (Hnan : is_nan (nth mi pre 0%float) = false).
    { rewrite Forall_forall in Hpre. apply Hpre. apply nth_In. assumption. }
    assert (Hpre' : Forall (fun x => is_nan x = false) (pre ++ [x])).
    { apply Forall_app. split; [assumption|]. constructor; auto. }
    assert (Hlen : length (pre ++ [x]) = S (length pre)).
    { rewrite length_app. simpl. lia. }
    replace (pre ++ x :: xs) with ((pre ++ [x]) ++ xs)
      by (rewrite <- app_assoc; reflexivity).
    simpl. rewrite Hx.
    destruct (nth mi pre 0 <=? x)%float eqn:E; simpl.
    + rewrite <- Hlen. apply IH; try assumption.
      * rewrite Hlen. lia.
      * rewrite app_nth1 by assumption. reflexivity.
      * intros j Hj. rewrite Hlen in Hj.
        destruct (Nat.eq_dec j (length pre)) as [->|Hne].
        -- rewrite nth_middle. assumption.
        -- rewrite app_nth1 by lia. apply Hle. lia.
      * intros j Hj. rewrite app_nth1 by lia. apply Hlt. assumption.
    + assert (Hxm : (x <? nth mi pre 0)%float = true)
        by (apply float_not_le_lt; assumption).
      rewrite <- Hlen. apply IH; try assumption.
      * rewrite Hlen. lia.
      * apply nth_middle.
      * intros j Hj. rewrite Hlen in Hj.
        destruct (Nat.eq_dec j (length pre)) as [->|Hne].
        -- rewrite nth_middle. apply float_le_refl. assumption.
        -- rewrite app_nth1 by lia. apply float_lt_le.
           eapply float_lt_le_trans; [exact Hxm|]. apply Hle. lia.
      * intros j Hj. rewrite app_nth1 by lia.
        eapply float_lt_le_trans; [exact Hxm|]. apply Hle. lia.
Qed.

Lemma np_argmin_spec (xs : list float) (k : nat) :
  np_argmin xs = Ok k ->
  Forall (fun x => is_nan x = false) xs ->
  k < length xs /\
  (forall j, j < length xs -> (nth k xs 0 <=? nth j xs 0)%float = true) /\
  (forall j, j < k -> (nth k xs 0 <? nth j xs 0)%float = true).
Proof.
  unfold np_argmin. destruct xs as [|x xs]; [discriminate|].
  intros [= <-] Hall. inversion Hall as [|? ? Hx Hxs]; subst.
  rewrite Hx.
  apply (argmin_from_spec xs [x] x 0); simpl; auto.
  - intros j Hj. replace j with 0 by lia. apply float_le_refl. assumption.
  - intros j Hj. lia.
Qed.

Lemma SFltb_nan_r (x y : spec_float) : SFeqb y y = false -> SFltb x y = false.
Proof. sf_cases. Qed.

Lemma float_lt_nan_r (x y : float) :
  is_nan y = true -> (x <? y)%float = false.
Proof.
  unfold is_nan. rewrite FloatAxioms.ltb_spec, FloatAxioms.eqb_spec.
  intros Hy. apply SFltb_nan_r.
  destruct (SFeqb (Prim2SF y) (Prim2SF y)); [discriminate | reflexivity].
Qed.

(** With a NaN among the entries, the scan stops at the first one. *)
Lemma argmin_from_nan (xs : list float) :
  forall (mp : float) (mi i : nat),
    Exists (fun x => is_nan x = true) xs ->
    exists k, argmin_from mp mi i xs = i + k /\ is_nan (nth k xs 0%float) = true.
Proof.
  induction xs as [|x xs IH]; intros mp mi i Hex.
  - inversion Hex.
  - simpl. destruct (is_nan x) eqn:Hx.
    + assert (E : (mp <=? x)%float = false).
      { destruct (mp <=? x)%float eqn:E; [|reflexivity].
        unfold is_nan in Hx. rewrite FloatAxioms.leb_spec in E.
        rewrite FloatAxioms.eqb_spec in Hx. revert E Hx.
        generalize (Prim2SF mp) (Prim2SF x). intros a b. sf_cases. }
      rewrite E. simpl. exists 0. rewrite Nat.add_0_r. auto.
    + inversion Hex as [? ? Hx'|? ? Hex']; subst; [congruence|].
      destruct (negb (mp <=? x)%float).
      * destruct (IH x i (S i) Hex') as [k [Ek Hk]].
        exists (S k). rewrite Ek. split; [lia | assumption].
      * destruct (IH mp mi (S i) Hex') as [k [Ek Hk]].
        exists (S k). rewrite Ek. split; [lia | assumption].
Qed.

Lemma np_argmin_nan (xs : list float) (k : nat) :
  np_argmin xs = Ok k ->
  Exists (fun x => is_nan x = true) xs ->
  is_nan (nth k xs 0%float) = true.
Proof.
  unfold np_argmin. destruct xs as [|x xs]; [discriminate|].
  intros [= <-] Hex. destruct (is_nan x) eqn:Hx; [exact Hx|].
  inversion Hex as [? ? Hx'|? ? Hex']; subst; [congruence|].
  destruct (argmin_from_nan xs x 0 1 Hex') as [j [Ej Hj]].
  rewrite Ej. exact Hj.
Qed.

Section CostRanking.
Context {G : Type} `{RandomState G}.
Variable Data : Type.
Variable self : DifferentialEvolution Data.

Lemma least_error_idx_spec (p : ndarray2) (k : nat) (err : float) :
  length p = Z.to_nat (npop self) ->
  Forall (fun row => is_nan (cost_of self row) = false) p ->
  least_error_idx self p = Ok (k, err) ->
  k < length p /\
  err = cost_of self (nth k p []) /\
  (forall j, j < length p ->
             (err <=? cost_of self (nth j p []))%float = true) /\
  (forall j, j < k -> (err <? cost_of self (nth j p []))%float = true).
Proof.
  intros Hl Hnan E. unfold least_error_idx in E.
  destruct (npop self <? 0)%Z; [discriminate|].
  destruct (Z.to_nat (npop self) <? length p); [discriminate|].
  rewrite Hl, Nat.sub_diag in E. simpl in E. rewrite app_nil_r in E.
  set (costs := map (fun row => func self row (data self)) p) in *.
  inv_bind E as k' Ea. injection E as -> <-.
  assert (Hc : Forall (fun x => is_nan x = false) costs).
  { unfold costs. apply Forall_map. exact Hnan. }
  assert (Hlc : length costs = length p) by (unfold costs; apply length_map).
  assert (Hn : forall j, j < length p ->
                 nth j costs 0%float = cost_of self (nth j p [])).
  { intros j Hj. unfold costs, cost_of.
    rewrite nth_indep with (d' := func self [] (data self))
      by (rewrite length_map; assumption).
    apply (map_nth (fun row => func self row (data self))). }
  destruct (np_argmin_spec costs k Ea Hc) as (Hk & Hle & Hlt).
  rewrite Hlc in *. repeat split.
  - assumption.
  - apply Hn. assumption.
  - intros j Hj. rewrite <- !Hn by assumption. apply Hle. assumption.
  - intros j Hj. rewrite <- !Hn by lia. apply Hlt. assumption.
Qed.

(** X1: on a population of [npop] members whose costs are not NaN,
    [least_error_idx] returns the index and the cost of a member of
    least cost, and of the first such member: no member costs less, and
    every member before it costs strictly more. *)
Theorem least_error_idx_first_minimum (p : ndarray2) (k : nat) (err : float) :
  length p = Z.to_nat (npop self) ->
  Forall (fun row => is_nan (cost_of self row) = false) p ->
  least_error_idx self p = Ok (k, err) ->
  k < length p /\
  err = cost_of self (nth k p []) /\
  (forall j, j < length p ->
             (err <=? cost_of self (nth j p []))%float = true) /\
  (forall j, j < k -> (err <? cost_of self (nth j p []))%float = true).
Proof. apply least_error_idx_spec. Qed.

(** With a NaN among the costs, the cost returned is NaN. *)
Lemma least_error_idx_nan (p : ndarray2) (k : nat) (err : float) :
  length p = Z.to_nat (npop self) ->
  Exists (fun row => is_nan (cost_of self row) = true) p ->
  least_error_idx self p = Ok (k, err) ->
  is_nan err = true.
Proof.
  intros Hl Hnan E. unfold least_error_idx in E.
  destruct (npop self <? 0)%Z; [discriminate|].
  destruct (Z.to_nat (npop self) <? length p); [discriminate|].
  rewrite Hl, Nat.sub_diag in E. simpl in E. rewrite app_nil_r in E.
  inv_bind E as k' Ea. injection E as -> <-.
  apply (np_argmin_nan _ _ Ea).
  apply Exists_exists in Hnan. destruct Hnan as [row [Hin Hrow]].
  apply Exists_exists. exists (func self row (data self)).
  split; [|exact Hrow].
  apply in_map_iff. exists row. auto.
Qed.

End CostRanking.

(** * One inner iteration, taken apart *)

Section InnerCases.
Context {G : Type} `{RandomState G}.
Variable Data : Type.
Variable self : DifferentialEvolution Data.
Variable gl : Globals.

Lemma bound_repair_same_length (p : ndarray2) (t : ndarray1) :
  forall (j : nat) (g : G) (t' : ndarray1) (g' : G),
    bound_repair gl p j t g = Ok (t', g') -> length t' = length t.
Proof.
  induction t as [|x t IH]; intros j g t' g' E; simpl in E.
  - injection E as <- <-. reflexivity.
  - inv_bind E as bs Ebs. inv_bind E as b Eb.
    destruct (negb (inside b x)).
    + inv_bind E as [y g1] Ey. inv_bind E as [rest g2] Er.
      injection E as <- <-. simpl. f_equal. eapply IH. eassumption.
    + inv_bind E as [rest g2] Er.
      injection E as <- <-. simpl. f_equal. eapply IH. eassumption.
Qed.

(** A trial vector that reaches line 115 has four entries, whatever
    [nparam] is. *)
Lemma make_trial_length (i : nat) (s : state) (t1 trial : ndarray1) (g3 : G) :
  make_trial self gl i s = Ok (t1, trial, g3) -> length trial = 4.
Proof.
  unfold make_trial. intros E.
  inv_bind E as [[r0 r1] g1] Ech.
  inv_bind E as t0 Em.
  inv_bind E as [t1' g2] Ec.
  inv_bind E as [tr g3'] Eb.
  injection E as <- <- <-.
  rewrite (bound_repair_same_length _ _ _ _ _ _ Eb).
  unfold crossover in Ec.
  pose proof (rand1_length 3 g1) as Hr.
  destruct (np_random_rand1 3 g1) as [us gx]. simpl in Hr.
  inv_bind Ec as t Ew. injection Ec as <- <-.
  unfold np_where in Ew. rewrite length_app, length_map, Hr in Ew.
  simpl in Ew.
  inv_bind Ew as n1 E1. inv_bind Ew as n E2.
  injection Ew as <-. rewrite length_map, length_seq.
  assert (Hn1 : n1 = 4).
  { unfold broadcast_shape in E1.
    destruct (4 =? length t0) eqn:Ea; [congruence|]. simpl in E1.
    destruct (length t0 =? 1); congruence. }
  subst n1. unfold broadcast_shape in E2.
  destruct (4 =? length (nth i (pop s) [])) eqn:Ea; [congruence|].
  simpl in E2. destruct (length (nth i (pop s) []) =? 1); congruence.
Qed.

Lemma nth_replace_nth_eq {A : Type} (d v : A) (l : list A) (i : nat) :
  i < length l -> nth i (replace_nth i v l) d = v.
Proof.
  revert i. induction l as [|x l IH]; intros i Hi; simpl in *; [lia|].
  destruct i as [|i]; simpl; [reflexivity|]. apply IH. lia.
Qed.

(** The three ways an inner iteration can end, in a state whose stored
    cost is the evaluator's value at the best-fit vector: the trial
    replaces member [i] and becomes the best-fit, it replaces member [i]
    only, or it is dropped. *)
Inductive inner_case (i : nat) (s s' : @state G) : Prop :=
| new_best (t1 trial : ndarray1) :
    (cost_of self trial <? cost_of self (nth i (pop s) []))%float = true ->
    (cost_of self trial <? lst_err s)%float = true ->
    i < length (pop s) ->
    pop s' = replace_nth i trial (pop s) ->
    bestfit s' = Owned trial ->
    lst_err s' = cost_of self trial ->
    emitted s' = emitted s ++ [(trial, cost_of self trial)] ->
    trace s' = trace s ++ [mkObs t1 trial trial (cost_of self trial)] ->
    inner_case i s s'
| new_member (t1 trial : ndarray1) :
    (cost_of self trial <? cost_of self (nth i (pop s) []))%float = true ->
    (cost_of self trial <? lst_err s)%float = false ->
    i < length (pop s) ->
    pop s' = replace_nth i trial (pop s) ->
    best_vector s' = best_vector s ->
    lst_err s' = lst_err s ->
    emitted s' = emitted s ->
    trace s' = trace s ++ [mkObs t1 trial (best_vector s) (lst_err s)] ->
    inner_case i s s'
| dropped (t1 trial : ndarray1) :
    (cost_of self trial <? cost_of self (nth i (pop s) []))%float = false ->
    pop s' = pop s ->
    bestfit s' = bestfit s ->
    lst_err s' = lst_err s ->
    emitted s' = emitted s ->
    trace s' = trace s ++ [mkObs t1 trial (best_vector s) (lst_err s)] ->
    inner_case i s s'.

Lemma inner_cases (i : nat) (s s' : state) :
  cost_of self (best_vector s) = lst_err s ->
  inner self gl i s = Ok s' ->
  inner_case i s s'.
Proof.
  intros Hb E. unfold inner in E.
  inv_bind E as [[t1 trial] g3] Et.
  pose proof (make_trial_length i s t1 trial g3 Et) as Hlen.
  fold (cost_of self trial) in E. fold (cost_of self (nth i (pop s) [])) in E.
  destruct (cost_of self trial <? cost_of self (nth i (pop s) []))%float
    eqn:Hlt.
  - inv_bind E as p' Ep.
    assert (Hi : i < length (pop s)).
    { unfold setrow in Ep. inv_bind Ep as r Er.
      apply getrow_ok in Er. apply Er. }
    apply (setrow_four _ _ _ _ Hlen) in Ep. subst p'.
    destruct (cost_of self trial <? lst_err s)%float eqn:Hbest.
    + injection E as <-. apply (new_best i s _ t1 trial); auto.
    + injection E as <-. apply (new_member i s _ t1 trial); auto.
      * unfold best_vector. simpl.
        destruct (bestfit s) as [k|v] eqn:Ebf; simpl; [|reflexivity].
        destruct (Nat.eq_dec k i) as [->|Hne].
        -- exfalso. unfold best_vector in Hb. rewrite Ebf in Hb.
           simpl in Hb. rewrite Hb in Hlt. congruence.
        -- apply nth_replace_nth_neq. assumption.
      * simpl. f_equal. f_equal. f_equal.
        unfold best_vector.
        destruct (bestfit s) as [k|v] eqn:Ebf; simpl; [|reflexivity].
        destruct (Nat.eq_dec k i) as [->|Hne].
        -- exfalso. unfold best_vector in Hb. rewrite Ebf in Hb.
           simpl in Hb. rewrite Hb in Hlt. congruence.
        -- apply nth_replace_nth_neq. assumption.
  - injection E as <-. apply (dropped i s _ t1 trial); auto.
Qed.

End InnerCases.

(** * Selection *)

Lemma last_map_fst {A B : Type} (ys : list (A * B)) (y : A * B) (d : A) :
  last (map fst (y :: ys)) d = fst (last ys y).
Proof.
  revert y. induction ys as [|z ys IH]; intros y; [reflexivity|].
  change (last (map fst (z :: ys)) d = fst (last (z :: ys) y)).
  rewrite IH, (last_cons_indep ys z y z). destruct ys; reflexivity.
Qed.

Section Selection.
Context {G : Type} `{RandomState G}.
Variable Data : Type.
Variable self : DifferentialEvolution Data.
Variable gl : Globals.

(** The population keeps its size, and no member's cost ever rises above
    what it was in the state [s0]. *)
Definition greedy_inv (s0 s : @state G) : Prop :=
  length (pop s) = length (pop s0) /\
  forall k, not_above (cost_of self (nth k (pop s0) []))
                      (cost_of self (nth k (pop s) [])).

Lemma greedy_replace (s0 s : state) (i : nat) (trial : ndarray1) :
  greedy_inv s0 s ->
  i < length (pop s) ->
  (cost_of self trial <? cost_of self (nth i (pop s) []))%float = true ->
  length (replace_nth i trial (pop s)) = length (pop s0) /\
  forall k, not_above (cost_of self (nth k (pop s0) []))
                      (cost_of self (nth k (replace_nth i trial (pop s)) [])).
Proof.
  intros [Hl Hk] Hi Hlt. split; [rewrite replace_nth_length; exact Hl|].
  intros k. destruct (Nat.eq_dec k i) as [->|Hne].
  - rewrite nth_replace_nth_eq by assumption.
    eapply not_above_trans; [apply Hk|]. right. exact Hlt.
  - rewrite nth_replace_nth_neq by assumption. apply Hk.
Qed.

Lemma greedy_inner (c0 : float) (s0 : state) (i : nat) (s s' : state) :
  cost_inv self c0 s /\ greedy_inv s0 s ->
  inner self gl i s = Ok s' ->
  cost_inv self c0 s' /\ greedy_inv s0 s'.
Proof.
  intros [Hc Hg] E. split; [eapply cost_inv_inner; eassumption|].
  destruct (inner_cases Data self gl i s s' (inv_best _ _ _ Hc) E)
    as [t1 trial Hlt _ Hi Hp _ _ _ _|t1 trial Hlt _ Hi Hp _ _ _ _
       |t1 trial _ Hp _ _ _ _].
  - unfold greedy_inv. rewrite Hp. apply greedy_replace; assumption.
  - unfold greedy_inv. rewrite Hp. apply greedy_replace; assumption.
  - unfold greedy_inv. rewrite Hp. exact Hg.
Qed.

(** X2: greedy selection.  In every run, completed or interrupted, the
    population keeps its size and the cost of each member at the end is
    the cost it started with or a strictly lower one. *)
Theorem selection_never_raises_a_cost (g : G) (s0 : state) (o : outcome) :
  diff_evolution_solver self gl g = Ok (s0, o) ->
  length (pop (final o)) = length (pop s0) /\
  forall k, not_above (cost_of self (nth k (pop s0) []))
                      (cost_of self (nth k (pop (final o)) [])).
Proof.
  unfold diff_evolution_solver. intros E.
  inv_bind E as s1 E1. injection E as -> <-.
  apply (generations_preserves Data self gl
           (fun s => cost_inv self (lst_err s0) s /\ greedy_inv s0 s)
           (greedy_inner (lst_err s0) s0)).
  split; [apply (cost_inv_setup Data self g s0 E1)|].
  split; [reflexivity|]. intros k. left. reflexivity.
Qed.

(** ** The best-fit vector is the cheapest member *)

Hypothesis cost_not_nan : forall v, is_nan (cost_of self v) = false.

Definition elite_inv (s : @state G) : Prop :=
  (exists j, j < length (pop s) /\ nth j (pop s) [] = best_vector s) /\
  forall j, j < length (pop s) ->
            (lst_err s <=? cost_of self (nth j (pop s) []))%float = true.

Lemma elite_inner (c0 : float) (i : nat) (s s' : state) :
  cost_inv self c0 s /\ elite_inv s ->
  inner self gl i s = Ok s' ->
  cost_inv self c0 s' /\ elite_inv s'.
Proof.
  intros [Hc [[j0 [Hj0 Hmem]] Hmin]] E.
  split; [eapply cost_inv_inner; eassumption|].
  pose proof (inv_best _ _ _ Hc) as Hb.
  destruct (inner_cases Data self gl i s s' Hb E)
    as [t1 trial Hlt Hbest Hi Hp Hbf Hle _ _
       |t1 trial Hlt Hbest Hi Hp Hbv Hle _ _
       |t1 trial _ Hp Hbf Hle _ _].
  - split.
    + exists i. rewrite Hp, replace_nth_length. split; [assumption|].
      unfold best_vector. rewrite Hbf, Hp. simpl.
      apply nth_replace_nth_eq. assumption.
    + intros j Hj. rewrite Hp, replace_nth_length in Hj. rewrite Hle, Hp.
      destruct (Nat.eq_dec j i) as [->|Hne].
      * rewrite nth_replace_nth_eq by assumption.
        apply float_le_refl, cost_not_nan.
      * rewrite nth_replace_nth_neq by assumption.
        apply float_lt_le. eapply float_lt_le_trans; [exact Hbest|].
        apply Hmin. assumption.
  - split.
    + exists j0. rewrite Hp, replace_nth_length. split; [assumption|].
      rewrite Hbv. destruct (Nat.eq_dec j0 i) as [->|Hne].
      * exfalso. rewrite Hmem, Hb in Hlt. congruence.
      * rewrite nth_replace_nth_neq by assumption. exact Hmem.
    + intros j Hj. rewrite Hp, replace_nth_length in Hj. rewrite Hle, Hp.
      destruct (Nat.eq_dec j i) as [->|Hne].
      * rewrite nth_replace_nth_eq by assumption.
        apply float_not_lt_le; [apply cost_not_nan| |exact Hbest].
        rewrite <- Hb. apply cost_not_nan.
      * rewrite nth_replace_nth_neq by assumption. apply Hmin. assumption.
  - split.
    + exists j0. rewrite Hp. split; [assumption|].
      unfold best_vector. rewrite Hbf, Hp. exact Hmem.
    + intros j Hj. rewrite Hp in Hj. rewrite Hle, Hp. apply Hmin. assumption.
Qed.

Lemma elite_setup (g : G) (s0 : state) :
  solver_setup self g = Ok s0 ->
  elite_inv s0.
Proof.
  intros E.
  destruct (solver_setup_inv Data self g s0 E)
    as (p & g1 & k & err & Ep & El & Hk & ->).
  assert (Hlen : length p = Z.to_nat (npop self)).
  { unfold least_error_idx in El.
    destruct (npop self <? 0)%Z; [discriminate|].
    destruct (Z.to_nat (npop self) <? length p) eqn:E1; [discriminate|].
    apply Nat.ltb_ge in E1.
    destruct (Nat.eq_dec (length p) (Z.to_nat (npop self))) as [|Hne];
      [assumption|exfalso].
    unfold population_generator in Ep.
    inv_bind Ep as [a g2] Er.
    assert (Ht : forall a', length (transpose (Z.to_nat (npop self)) a')
                            = Z.to_nat (npop self)).
    { intros a'. unfold transpose. rewrite length_map, length_seq.
      reflexivity. }
    destruct (truthy (bounds self)).
    - inv_bind Ep as pop1 Es. destruct pop1 as [|r pop1].
      + destruct (truthy (guess self)); [discriminate|].
        injection Ep as <- <-. simpl in Hk. lia.
      + inv_bind Ep as pop2 Eg. injection Ep as <- <-.
        rewrite Ht in Hne. lia.
    - inv_bind Ep as pop2 Eg. injection Ep as <- <-.
      rewrite Ht in Hne. lia. }
  assert (Hall : Forall (fun row => is_nan (cost_of self row) = false) p).
  { apply Forall_forall. intros row _. apply cost_not_nan. }
  destruct (least_error_idx_spec Data self p k err Hlen Hall El)
    as (_ & Herr & Hle & _).
  split; simpl.
  - exists k. unfold best_vector. simpl. auto.
  - exact Hle.
Qed.

(** X3: elitism.  With an evaluator that never returns NaN, in every
    run, completed or interrupted, the best-fit vector is a member of
    the population, its cost is the stored least error, and no member of
    the population costs less. *)
Theorem best_fit_is_cheapest_member (g : G) (s0 : state) (o : outcome) :
  diff_evolution_solver self gl g = Ok (s0, o) ->
  (exists j, j < length (pop (final o)) /\
             nth j (pop (final o)) [] = best_vector (final o)) /\
  cost_of self (best_vector (final o)) = lst_err (final o) /\
  forall j, j < length (pop (final o)) ->
            (cost_of self (best_vector (final o))
             <=? cost_of self (nth j (pop (final o)) []))%float = true.
Proof.
  unfold diff_evolution_solver. intros E.
  inv_bind E as s1 E1. injection E as -> <-.
  pose proof (generations_preserves Data self gl
                (fun s => cost_inv self (lst_err s0) s /\ elite_inv s)
                (elite_inner (lst_err s0)) (Z.to_nat (niter self)) s0
                (conj (cost_inv_setup Data self g s0 E1)
                      (elite_setup g s0 E1)))
    as [Hc [Hmem Hmin]].
  split; [exact Hmem|]. split; [exact (inv_best _ _ _ Hc)|].
  intros j Hj. rewrite (inv_best _ _ _ Hc). apply Hmin. assumption.
Qed.

End Selection.

(** * What [result] returns *)

Section ResultValue.
Context {G : Type} `{RandomState G}.
Variable Data : Type.
Variable self : DifferentialEvolution Data.
Variable gl : Globals.

(** The last vector yielded, if any, is the best-fit vector, and the
    best-fit vector is a member of the population. *)
Definition last_yield_inv (s : @state G) : Prop :=
  last (map fst (emitted s)) (best_vector s) = best_vector s /\
  exists j, j < length (pop s) /\ nth j (pop s) [] = best_vector s.

Lemma last_yield_inner (c0 : float) (i : nat) (s s' : state) :
  cost_inv self c0 s /\ last_yield_inv s ->
  inner self gl i s = Ok s' ->
  cost_inv self c0 s' /\ last_yield_inv s'.
Proof.
  intros [Hc [Hlast [j0 [Hj0 Hmem]]]] E.
  split; [eapply cost_inv_inner; eassumption|].
  pose proof (inv_best _ _ _ Hc) as Hb.
  destruct (inner_cases Data self gl i s s' Hb E)
    as [t1 trial Hlt Hbest Hi Hp Hbf Hle Hem _
       |t1 trial Hlt Hbest Hi Hp Hbv Hle Hem _
       |t1 trial _ Hp Hbf Hle Hem _].
  - assert (Hbv : best_vector s' = trial)
      by (unfold best_vector; rewrite Hbf; reflexivity).
    split.
    + rewrite Hem, map_app, Hbv. simpl. apply last_snoc.
    + exists i. rewrite Hp, replace_nth_length. split; [assumption|].
      rewrite Hbv, <- Hp. rewrite Hp. apply nth_replace_nth_eq. assumption.
  - split.
    + rewrite Hem, Hbv. exact Hlast.
    + exists j0. rewrite Hp, replace_nth_length. split; [assumption|].
      rewrite Hbv. destruct (Nat.eq_dec j0 i) as [->|Hne].
      * exfalso. rewrite Hmem, Hb in Hlt. congruence.
      * rewrite nth_replace_nth_neq by assumption. exact Hmem.
  - assert (Hbv : best_vector s' = best_vector s)
      by (unfold best_vector; rewrite Hbf, Hp; reflexivity).
    split.
    + rewrite Hem, Hbv. exact Hlast.
    + exists j0. rewrite Hp, Hbv. auto.
Qed.

(** X4: when [result] returns a vector, the run has completed, the
    vector is the best-fit vector of the final state and a member of the
    final population, and its cost is the stored least error, strictly
    below the least error of the initial population. *)
Theorem result_is_final_best (g : G) (v : ndarray1) :
  result self gl g = Ok v ->
  exists s0 s,
    diff_evolution_solver self gl g = Ok (s0, Completed s) /\
    v = best_vector s /\
    (exists j, j < length (pop s) /\ nth j (pop s) [] = v) /\
    cost_of self v = lst_err s /\
    (cost_of self v <? lst_err s0)%float = true.
Proof.
  intros E.
  destruct (result_ok_inv Data self gl g v E) as (s0 & s & y & ys & Er & Hem & Hv).
  exists s0, s. split; [exact Er|].
  unfold diff_evolution_solver in Er.
  inv_bind Er as s1 E1. injection Er as -> Hs.
  assert (Hinit : last_yield_inv s0).
  { destruct (solver_setup_inv Data self g s0 E1)
      as (p & g1 & k & err & _ & _ & Hk & ->).
    split; [reflexivity|]. exists k. split; [exact Hk | reflexivity]. }
  pose proof (generations_preserves Data self gl
                (fun s => cost_inv self (lst_err s0) s /\ last_yield_inv s)
                (last_yield_inner (lst_err s0)) (Z.to_nat (niter self)) s0
                (conj (cost_inv_setup Data self g s0 E1) Hinit))
    as [Hc [Hlast Hmem]].
  rewrite Hs in Hc, Hlast, Hmem. simpl in Hc, Hlast, Hmem.
  assert (Hvb : v = best_vector s).
  { rewrite Hv, <- Hlast, Hem. symmetry. apply last_map_fst. }
  split; [exact Hvb|]. rewrite Hvb.
  split; [exact Hmem|]. split; [exact (inv_best _ _ _ Hc)|].
  rewrite (inv_best _ _ _ Hc), <- (inv_stream_last _ _ _ Hc).
  pose proof (chain_strongly_sorted below below_trans _ _
                (inv_stream _ _ _ Hc)) as Hss.
  rewrite Hem in *. simpl in *.
  inversion Hss as [|? ? _ Hall]; subst.
  rewrite Forall_forall in Hall. apply Hall.
  apply (last_cons_In (map snd ys) (snd y) (lst_err s0)).
Qed.

(** ** How long a run is *)

Lemma inner_lengths (i : nat) (s s' : state) :
  inner self gl i s = Ok s' ->
  length (trace s') = S (length (trace s)) /\
  length (pop s') = length (pop s) /\
  length (emitted s) <= length (emitted s') <= S (length (emitted s)).
Proof.
  unfold inner. intros E. inv_bind E as [[t1 trial] g3] Et.
  destruct (func self trial (data self)
            <? func self (nth i (pop s) []) (data self))%float.
  - inv_bind E as p' Ep. apply setrow_length in Ep.
    destruct (func self trial (data self) <? lst_err s)%float;
      injection E as <-; simpl; rewrite !length_app; simpl; lia.
  - injection E as <-. simpl. rewrite !length_app. simpl. lia.
Qed.

Lemma members_lengths (idxs : list nat) :
  forall s,
    let s' := final (members self gl idxs s) in
    length (pop s') = length (pop s) /\
    length (trace s') <= length (trace s) + length idxs /\
    length (emitted s') - length (emitted s)
    <= length (trace s') - length (trace s) /\
    length (emitted s) <= length (emitted s') /\
    length (trace s) <= length (trace s') /\
    (forall s2, members self gl idxs s = Completed s2 ->
                length (trace s2) = length (trace s) + length idxs).
Proof.
  induction idxs as [|i idxs IH]; intros s; simpl.
  - repeat split; try lia. intros s2 [= <-]. lia.
  - destruct (inner self gl i s) as [s1|e] eqn:E; simpl.
    + destruct (inner_lengths i s s1 E) as (Ht & Hp & He).
      destruct (IH s1) as (Hp' & Ht' & He' & Hm & Hm' & Hc).
      repeat split; try lia.
      intros s2 E2. rewrite (Hc s2 E2). lia.
    + repeat split; try lia. intros s2 E2. discriminate.
Qed.

Lemma generations_lengths (n : nat) :
  forall s,
    let s' := final (generations self gl n s) in
    length (pop s') = length (pop s) /\
    length (trace s') <= length (trace s) + n * length (pop s) /\
    length (emitted s') - length (emitted s)
    <= length (trace s') - length (trace s) /\
    length (emitted s) <= length (emitted s') /\
    length (trace s) <= length (trace s') /\
    (forall s2, generations self gl n s = Completed s2 ->
                length (trace s2) = length (trace s) + n * length (pop s)).
Proof.
  induction n as [|n IH]; intros s; simpl.
  - repeat split; try lia. intros s2 [= <-]. lia.
  - pose proof (members_lengths (seq 0 (length (pop s))) s) as Hm.
    simpl in Hm. rewrite length_seq in Hm.
    destruct (members self gl (seq 0 (length (pop s))) s) as [s1|e s1];
      simpl in *.
    + destruct Hm as (Hp & Ht & He & Hle & Hlt & Hc).
      specialize (Hc s1 eq_refl).
      destruct (IH s1) as (Hp' & Ht' & He' & Hle' & Hlt' & Hc').
      rewrite Hp in *.
      repeat split; try lia.
      intros s2 E2. rewrite (Hc' s2 E2). lia.
    + destruct Hm as (Hp & Ht & He & Hle & Hlt & Hc).
      repeat split; try lia. intros s2 E2. discriminate.
Qed.

(** X5: there is no early stop.  A run that completes has evaluated
    exactly [niter * npop] trial vectors, one per member and generation;
    an interrupted run fewer or as many; and the stream never has more
    elements than trials were evaluated. *)
Theorem run_length (g : G) (s0 : state) (o : outcome) :
  diff_evolution_solver self gl g = Ok (s0, o) ->
  length (pop s0) = Z.to_nat (npop self) /\
  length (trace (final o)) <= Z.to_nat (niter self) * Z.to_nat (npop self) /\
  length (emitted (final o)) <= length (trace (final o)) /\
  (forall s, o = Completed s ->
             length (trace s) = Z.to_nat (niter self) * Z.to_nat (npop self)).
Proof.
  unfold diff_evolution_solver. intros E.
  inv_bind E as s1 E1. injection E as -> <-.
  destruct (solver_setup_inv Data self g s0 E1)
    as (p & g1 & k & err & Ep & El & Hk & Hs).
  assert (Hlen : length (pop s0) = Z.to_nat (npop self)).
  { rewrite Hs. simpl. unfold least_error_idx in El.
    destruct (npop self <? 0)%Z; [discriminate|].
    destruct (Z.to_nat (npop self) <? length p) eqn:E2; [discriminate|].
    unfold population_generator in Ep.
    inv_bind Ep as [a g2] Er.
    assert (Ht : forall a', length (transpose (Z.to_nat (npop self)) a')
                            = Z.to_nat (npop self)).
    { intros a'. unfold transpose. rewrite length_map, length_seq.
      reflexivity. }
    destruct (truthy (bounds self)).
    - inv_bind Ep as pop1 Es. destruct pop1 as [|r pop1].
      + destruct (truthy (guess self)); [discriminate|].
        injection Ep as <- <-. simpl in Hk. lia.
      + inv_bind Ep as pop2 Eg. injection Ep as <- <-. apply Ht.
    - inv_bind Ep as pop2 Eg. injection Ep as <- <-. apply Ht. }
  destruct (generations_lengths (Z.to_nat (niter self)) s0)
    as (_ & Ht & He & _ & _ & Hc).
  assert (H0 : length (trace s0) = 0 /\ length (emitted s0) = 0)
    by (rewrite Hs; simpl; auto).
  destruct H0 as [Ht0 He0]. rewrite Ht0, He0, Hlen in *.
  split; [reflexivity|]. split; [lia|]. split; [lia|].
  intros s Ho. rewrite (Hc s Ho). lia.
Qed.

End ResultValue.

(** * The shape of the population *)

Lemma scale_rows_length (bs : list (float * float)) (rows : ndarray2) :
  forall (ii : nat) (rows' : ndarray2),
    scale_rows bs ii rows = Ok rows' -> length rows' = length rows.
Proof.
  intros ii rows' E. exact (proj1 (scale_rows_spec bs rows ii rows' E)).
Qed.

Lemma set_column0_length (a a' : ndarray2) (ncols : nat) (v : ndarray1) :
  set_column0 a ncols v = Ok a' -> length a' = length a.
Proof.
  unfold set_column0. destruct (ncols =? 0); [discriminate|].
  destruct ((length v =? length a) || (length v =? 1)); [|discriminate].
  intros [= <-]. rewrite length_map, length_seq. reflexivity.
Qed.

Lemma transpose_shape (ncols : nat) (a : ndarray2) :
  length (transpose ncols a) = ncols /\
  Forall (fun r => length r = length a) (transpose ncols a).
Proof.
  unfold transpose. split; [rewrite length_map, length_seq; reflexivity|].
  apply Forall_forall. intros r Hr. apply in_map_iff in Hr.
  destruct Hr as [i [<- _]]. apply length_map.
Qed.

Section Shape.
Context {G : Type} `{RandomState G}.
Variable Data : Type.
Variable self : DifferentialEvolution Data.

Lemma rand_rows_length (d0 d1 : nat) (g : G) :
  length (fst (rand_rows d0 d1 g)) = d0.
Proof.
  rewrite rand_rows_spec. simpl. rewrite length_map, length_seq. reflexivity.
Qed.

Lemma apply_guess_length (a a' : ndarray2) :
  apply_guess self a = Ok a' -> length a' = length a.
Proof.
  unfold apply_guess. destruct (truthy (guess self)).
  - apply set_column0_length.
  - intros [= <-]. reflexivity.
Qed.

(** What [population_generator] returns has [npop] rows of [nparam]
    entries, or no row at all when [np.array([])] came in between. *)
Lemma population_generator_shape (g : G) (p : ndarray2) (g' : G) :
  population_generator self g = Ok (p, g') ->
  (p = [] \/ length p = Z.to_nat (npop self)) /\
  Forall (fun r => length r = Z.to_nat (nparam self)) p.
Proof.
  unfold population_generator, np_random_rand2. intros E.
  destruct ((nparam self <? 0) || (npop self <? 0))%Z; [discriminate|].
  simpl in E.
  pose proof (rand_rows_length (Z.to_nat (nparam self))
                (Z.to_nat (npop self)) g) as Hr.
  destruct (rand_rows (Z.to_nat (nparam self)) (Z.to_nat (npop self)) g)
    as [rows g1]. simpl in Hr.
  assert (Hfin : forall a, length a = Z.to_nat (nparam self) ->
            (transpose (Z.to_nat (npop self)) a = [] \/
             length (transpose (Z.to_nat (npop self)) a)
             = Z.to_nat (npop self)) /\
            Forall (fun r => length r = Z.to_nat (nparam self))
              (transpose (Z.to_nat (npop self)) a)).
  { intros a Ha. destruct (transpose_shape (Z.to_nat (npop self)) a)
      as [Hl Hf]. rewrite Ha in Hf. auto. }
  destruct (truthy (bounds self)).
  - inv_bind E as pop1 Es. apply scale_rows_length in Es.
    destruct pop1 as [|r pop1].
    + destruct (truthy (guess self)); [discriminate|].
      injection E as <- <-. auto.
    + inv_bind E as pop2 Eg. apply apply_guess_length in Eg.
      injection E as <- <-. apply Hfin. congruence.
  - inv_bind E as pop2 Eg. apply apply_guess_length in Eg.
    injection E as <- <-. apply Hfin. congruence.
Qed.

Lemma setup_shape (g : G) (s0 : state) :
  solver_setup self g = Ok s0 ->
  length (pop s0) = Z.to_nat (npop self) /\
  pop s0 <> [] /\
  Forall (fun r => length r = Z.to_nat (nparam self)) (pop s0).
Proof.
  intros E. destruct (solver_setup_inv Data self g s0 E)
    as (p & g1 & k & err & Ep & _ & Hk & ->). simpl.
  destruct (population_generator_shape g p g1 Ep) as [[->|Hl] Hf].
  - simpl in Hk. lia.
  - repeat split; try assumption. intros ->. simpl in Hk. lia.
Qed.

End Shape.

(** * A cost that is not a number *)

Section NanCost.
Context {G : Type} `{RandomState G}.
Variable Data : Type.
Variable self : DifferentialEvolution Data.

Lemma nan_inner (gl : Globals) (i : nat) (s s' : state) :
  is_nan (lst_err s) = true /\ emitted s = [] ->
  inner self gl i s = Ok s' ->
  is_nan (lst_err s') = true /\ emitted s' = [].
Proof.
  intros [Hn He] E. unfold inner in E.
  inv_bind E as [[t1 trial] g3] Et.
  rewrite (float_lt_nan_r _ _ Hn) in E.
  destruct (func self trial (data self)
            <? func self (nth i (pop s) []) (data self))%float.
  - inv_bind E as p' Ep. injection E as <-. auto.
  - injection E as <-. auto.
Qed.

(** X6: if the evaluator returns NaN on some member of the initial
    population, the stored least error is NaN, and since no cost is
    below NaN the run yields nothing, however long it is: [result]
    raises. *)
Theorem nan_cost_silences_the_stream (g : G) (s0 : state) :
  solver_setup self g = Ok s0 ->
  Exists (fun row => is_nan (cost_of self row) = true) (pop s0) ->
  is_nan (lst_err s0) = true /\
  forall gl,
    emitted (final (generations self gl (Z.to_nat (niter self)) s0)) = [] /\
    exists e, result self gl g = Raise e.
Proof.
  intros E Hex.
  destruct (setup_shape Data self g s0 E) as (Hl & _ & _).
  destruct (solver_setup_inv Data self g s0 E)
    as (p & g1 & k & err & Ep & El & Hk & Hs).
  assert (Hnan : is_nan (lst_err s0) = true).
  { rewrite Hs in *. simpl in *.
    exact (least_error_idx_nan Data self p k err Hl Hex El). }
  split; [exact Hnan|]. intros gl.
  assert (He0 : emitted s0 = []) by (rewrite Hs; reflexivity).
  pose proof (generations_preserves Data self gl
                (fun s => is_nan (lst_err s) = true /\ emitted s = [])
                (nan_inner gl) (Z.to_nat (niter self)) s0 (conj Hnan He0))
    as [_ Hem].
  split; [exact Hem|].
  apply (result_empty_stream_raises Data self gl g s0
           (generations self gl (Z.to_nat (niter self)) s0)).
  - unfold diff_evolution_solver. rewrite E. reflexivity.
  - exact Hem.
Qed.

End NanCost.

(** * What an inner iteration needs *)

Lemma last_default_In {A : Type} (l : list A) (d : A) :
  In (last l d) (d :: l).
Proof.
  induction l as [|x l IH]; [left; reflexivity|].
  destruct l as [|x' l]; [right; left; reflexivity|].
  change (last (x :: x' :: l) d) with (last (x' :: l) d).
  destruct IH as [IH|IH]; [left; assumption | right; right; assumption].
Qed.

Lemma setrow_four_inv (a a' : ndarray2) (i : nat) (v : ndarray1) :
  length v = 4 ->
  setrow a i v = Ok a' ->
  exists r, nth_error a i = Some r /\ length r = 4 /\ a' = replace_nth i v a.
Proof.
  intros Hv. unfold setrow. intros E. inv_bind E as r Er.
  apply getrow_ok in Er. destruct Er as [Er _].
  destruct (length v =? length r) eqn:El.
  - apply Nat.eqb_eq in El. injection E as <-. exists r.
    repeat split; [assumption | congruence].
  - rewrite Hv in E. simpl in E. discriminate.
Qed.

Section Requirements.
Context {G : Type} `{RandomState G}.
Variable Data : Type.
Variable self : DifferentialEvolution Data.
Variable gl : Globals.

(** The loop of lines 112 to 114 looks up one module-level bound per
    entry of the trial. *)
Lemma bound_repair_needs (p : ndarray2) (t : ndarray1) :
  forall (j : nat) (g : G) (r : ndarray1 * G),
    bound_repair gl p j t g = Ok r ->
    t <> [] ->
    exists bs, g_bounds gl = Some bs /\ j + length t <= length bs.
Proof.
  induction t as [|x t IH]; intros j g r E Hne; [congruence|].
  simpl in E. inv_bind E as bs Ebs. inv_bind E as b Eb.
  unfold load_global in Ebs. destruct (g_bounds gl) as [bs'|] eqn:Eg;
    [|discriminate].
  injection Ebs as ->. apply getrow_ok in Eb. destruct Eb as [_ Hj].
  exists bs. split; [reflexivity|].
  destruct t as [|y t]; [simpl; lia|].
  assert (Hrec : exists bs', Some bs = Some bs' /\
                   S j + length (y :: t) <= length bs').
  { destruct (negb (inside b x)).
    - inv_bind E as [z g1] Ez. inv_bind E as r' Er.
      apply (IH (S j) g1 r' Er). discriminate.
    - inv_bind E as r' Er. apply (IH (S j) g r' Er). discriminate. }
  destruct Hrec as [bs' [[= <-] Hl]]. simpl in *. lia.
Qed.

Lemma inner_needs (i : nat) (s s' : state) :
  inner self gl i s = Ok s' ->
  (exists k, g_kmut gl = Some k) /\
  (exists bs, g_bounds gl = Some bs /\ 4 <= length bs) /\
  2 <= Z.to_nat (npop self) /\
  (length (nth i (pop s) []) = 4 \/ length (nth i (pop s) []) = 1).
Proof.
  unfold inner. intros E. inv_bind E as [[t1 trial] g3] Et. clear E.
  pose proof (make_trial_length Data self gl i s t1 trial g3 Et) as Hlen.
  unfold make_trial in Et.
  inv_bind Et as [[r0 r1] g1] Ech.
  inv_bind Et as t0 Em.
  inv_bind Et as [t1' g2] Ec.
  inv_bind Et as [tr g3'] Eb.
  injection Et as <- <- <-.
  split.
  { unfold mutation, load_global in Em. destruct (g_kmut gl) as [k|];
      [eauto | discriminate]. }
  split.
  { destruct (bound_repair_needs (pop s) t1' 0 g2 (tr, g3') Eb)
      as [bs [Hb Hl]].
    - intros ->. simpl in Eb. injection Eb as <- _. discriminate.
    - exists bs. split; [assumption|].
      rewrite <- (bound_repair_same_length gl _ _ _ _ _ _ Eb) in Hl.
      lia. }
  split.
  { apply choice_distinct in Ech. lia. }
  unfold crossover in Ec.
  pose proof (rand1_length 3 g1) as Hr.
  destruct (np_random_rand1 3 g1) as [us gx]. simpl in Hr.
  inv_bind Ec as t Ew. unfold np_where in Ew.
  rewrite length_app, length_map, Hr in Ew. simpl in Ew.
  inv_bind Ew as n1 E1. inv_bind Ew as n E2.
  assert (Hn1 : n1 = 4).
  { unfold broadcast_shape in E1.
    destruct (4 =? length t0) eqn:Ea; [congruence|]. simpl in E1.
    destruct (length t0 =? 1); congruence. }
  subst n1. unfold broadcast_shape in E2.
  destruct (4 =? length (nth i (pop s) [])) eqn:Ea.
  - apply Nat.eqb_eq in Ea. left. congruence.
  - simpl in E2.
    destruct (length (nth i (pop s) []) =? 1) eqn:E1';
      [|discriminate].
    apply Nat.eqb_eq in E1'. right. assumption.
Qed.

Lemma completed_first_inner (n : nat) (s0 s : state) :
  generations self gl (S n) s0 = Completed s ->
  pop s0 <> [] ->
  exists s1, inner self gl 0 s0 = Ok s1.
Proof.
  simpl. intros E Hne.
  destruct (pop s0) as [|r p] eqn:Ep; [congruence|].
  simpl in E. destruct (inner self gl 0 s0) as [s1|e]; [eauto|discriminate].
Qed.

(** X7: a run of at least one generation completes only if the module
    binds [kmut], binds [bounds] to at least four intervals (also when
    the engine itself was constructed with other bounds, or with none),
    the population has at least two members, and [nparam] is 4 or 1:
    the crossover mask and the repair loop are written for four
    parameters. *)
Theorem completed_run_requirements (g : G) (s0 s : state) :
  diff_evolution_solver self gl g = Ok (s0, Completed s) ->
  (1 <= niter self)%Z ->
  (exists k, g_kmut gl = Some k) /\
  (exists bs, g_bounds gl = Some bs /\ 4 <= length bs) /\
  (2 <= npop self)%Z /\
  (nparam self = 4 \/ nparam self = 1)%Z.
Proof.
  unfold diff_evolution_solver. intros E Hn.
  inv_bind E as s1 E1. injection E as -> Es.
  destruct (setup_shape Data self g s0 E1) as (Hl & Hne & Hf).
  destruct (Z.to_nat (niter self)) as [|n] eqn:En; [lia|].
  destruct (completed_first_inner n s0 s Es Hne) as [s1 Ein].
  destruct (inner_needs 0 s0 s1 Ein) as (Hk & Hb & Hp & Hrow).
  repeat split; try assumption; [lia|].
  assert (H0 : length (nth 0 (pop s0) []) = Z.to_nat (nparam self)).
  { rewrite Forall_forall in Hf. apply Hf. apply nth_In.
    destruct (pop s0); [congruence | simpl; lia]. }
  rewrite H0 in Hrow. lia.
Qed.

(** Every member has [n] entries, every yielded vector has four, and a
    member is only ever replaced when [n] is four. *)
Definition shape_inv (n : nat) (s : @state G) : Prop :=
  Forall (fun r => length r = n) (pop s) /\
  Forall (fun y => length (fst y) = 4) (emitted s) /\
  (emitted s <> [] -> n = 4).

Lemma shape_inner (n : nat) (i : nat) (s s' : state) :
  shape_inv n s -> inner self gl i s = Ok s' -> shape_inv n s'.
Proof.
  intros (Hp & He & Hn) E. unfold inner in E.
  inv_bind E as [[t1 trial] g3] Et.
  pose proof (make_trial_length Data self gl i s t1 trial g3 Et) as Hlen.
  destruct (func self trial (data self)
            <? func self (nth i (pop s) []) (data self))%float.
  - inv_bind E as p' Ep.
    destruct (setrow_four_inv _ _ _ _ Hlen Ep) as (r & Hr & Hr4 & ->).
    assert (Hn4 : n = 4).
    { rewrite Forall_forall in Hp. rewrite <- Hr4. symmetry. apply Hp.
      eapply nth_error_In. eassumption. }
    assert (Hp' : Forall (fun r => length r = n)
                    (replace_nth i trial (pop s))).
    { apply Forall_forall. intros x Hx. apply In_replace_nth in Hx.
      destruct Hx as [->|Hx]; [congruence|].
      rewrite Forall_forall in Hp. auto. }
    destruct (func self trial (data self) <? lst_err s)%float;
      injection E as <-; repeat split; simpl; auto.
    apply Forall_app. split; [assumption|]. constructor; auto.
  - injection E as <-. repeat split; assumption.
Qed.

(** X8: [result] can only return for [nparam = 4].  When it returns,
    the vector has four entries, the run had at least one generation
    and two members, and the module binds [kmut] and at least four
    [bounds]. *)
Theorem result_requirements (g : G) (v : ndarray1) :
  result self gl g = Ok v ->
  nparam self = 4%Z /\
  length v = 4 /\
  (2 <= npop self)%Z /\
  (1 <= niter self)%Z /\
  (exists k, g_kmut gl = Some k) /\
  (exists bs, g_bounds gl = Some bs /\ 4 <= length bs).
Proof.
  intros E.
  destruct (result_ok_inv Data self gl g v E)
    as (s0 & s & y & ys & Er & Hem & Hv).
  unfold diff_evolution_solver in Er.
  inv_bind Er as s1 E1. injection Er as -> Es.
  destruct (setup_shape Data self g s0 E1) as (Hl & Hne & Hf).
  destruct (solver_setup_inv Data self g s0 E1)
    as (p & g1 & k & err & _ & _ & _ & Hs0).
  assert (Hinit : shape_inv (Z.to_nat (nparam self)) s0).
  { repeat split; [assumption| |]; rewrite Hs0; simpl;
      [constructor | congruence]. }
  pose proof (generations_preserves Data self gl
                (shape_inv (Z.to_nat (nparam self))) (shape_inner _)
                (Z.to_nat (niter self)) s0 Hinit) as (Hp & He & Hn).
  rewrite Es in Hp, He, Hn. simpl in Hp, He, Hn.
  destruct (Z.to_nat (niter self)) as [|n] eqn:En.
  { simpl in Es. injection Es as <-. rewrite Hs0 in Hem. discriminate. }
  destruct (completed_first_inner n s0 s Es Hne) as [s1 Ein].
  destruct (inner_needs 0 s0 s1 Ein) as (Hk & Hb & Hnp & _).
  assert (H4 : Z.to_nat (nparam self) = 4)
    by (apply Hn; rewrite Hem; discriminate).
  repeat split; try assumption; try lia.
  rewrite Hv. rewrite Forall_forall in He.
  apply (He (last ys y)). rewrite Hem. apply last_default_In.
Qed.

End Requirements.

(** * When the population can be built *)

Lemma scale_rows_defined_iff (bs : list (float * float)) (rows : ndarray2) :
  forall ii,
    (exists rows', scale_rows bs ii rows = Ok rows') <->
    (rows = [] \/ ii + length rows <= length bs).
Proof.
  induction rows as [|r rows IH]; intros ii; simpl.
  - split; eauto.
  - unfold getrow. destruct (nth_error bs ii) as [b|] eqn:Eb; simpl.
    + assert (Hii : ii < length bs)
        by (apply nth_error_Some; congruence).
      destruct (scale_rows bs (S ii) rows) as [rest|e] eqn:Er; simpl.
      * assert (Hr : rows = [] \/ S ii + length rows <= length bs)
          by (apply IH; eauto).
        split; [|eauto]. intros _. right.
        destruct Hr as [->|Hr]; simpl; lia.
      * split; [intros [rows' E]; discriminate|].
        intros [E|Hl]; [discriminate|].
        assert (Hr : exists rows', scale_rows bs (S ii) rows = Ok rows')
          by (apply IH; right; lia).
        destruct Hr as [rows' E]. congruence.
    + apply nth_error_None in Eb.
      split; [intros [rows' E]; discriminate|].
      intros [E|Hl]; [discriminate | lia].
Qed.

Lemma set_column0_defined_iff (a : ndarray2) (ncols : nat) (v : ndarray1) :
  (exists a', set_column0 a ncols v = Ok a') <->
  (ncols <> 0 /\ (length v = length a \/ length v = 1)).
Proof.
  unfold set_column0. destruct (ncols =? 0) eqn:En.
  - apply Nat.eqb_eq in En.
    split; [intros [a' E]; discriminate | intros [Hn _]; lia].
  - apply Nat.eqb_neq in En.
    destruct (length v =? length a) eqn:E1; simpl.
    + apply Nat.eqb_eq in E1. split; eauto.
    + apply Nat.eqb_neq in E1. destruct (length v =? 1) eqn:E2.
      * apply Nat.eqb_eq in E2. split; eauto.
      * apply Nat.eqb_neq in E2.
        split; [intros [a' E]; discriminate|].
        intros [_ [Hl|Hl]]; congruence.
Qed.

Section PopulationDefined.
Context {G : Type} `{RandomState G}.
Variable Data : Type.
Variable self : DifferentialEvolution Data.

Lemma apply_guess_defined_iff (a : ndarray2) :
  (exists a', apply_guess self a = Ok a') <->
  (truthy (guess self) = true ->
   Z.to_nat (npop self) <> 0 /\
   (length (tuple_of (guess self)) = length a \/
    length (tuple_of (guess self)) = 1)).
Proof.
  unfold apply_guess. destruct (truthy (guess self)).
  - rewrite set_column0_defined_iff. split; auto.
  - split; [intros _ E; discriminate | eauto].
Qed.

(** The embedding puts no limit on the size of an array, so in it the
    conditions under which the population is built can be read off
    exactly. *)
Lemma population_generator_embedded_iff (g : G) :
  (exists p g', population_generator self g = Ok (p, g')) <->
  ((0 <= nparam self)%Z /\
   (0 <= npop self)%Z /\
   (truthy (bounds self) = true ->
    Z.to_nat (nparam self) <= length (tuple_of (bounds self))) /\
   (truthy (guess self) = true ->
    (0 < npop self)%Z /\
    (truthy (bounds self) = true -> (0 < nparam self)%Z) /\
    (length (tuple_of (guess self)) = Z.to_nat (nparam self) \/
     length (tuple_of (guess self)) = 1))).
Proof.
  unfold population_generator, np_random_rand2.
  destruct (nparam self <? 0)%Z eqn:E1; simpl.
  { split; [intros (p & g' & E); discriminate | lia]. }
  destruct (npop self <? 0)%Z eqn:E2; simpl.
  { split; [intros (p & g' & E); discriminate | lia]. }
  pose proof (rand_rows_length (Z.to_nat (nparam self))
                (Z.to_nat (npop self)) g) as Hrows.
  destruct (rand_rows (Z.to_nat (nparam self)) (Z.to_nat (npop self)) g)
    as [rows g1].
  simpl in Hrows.
  assert (Hout : forall (a : ndarray2),
             (exists p g', (pop2 <- apply_guess self a ;;
                            Ok (transpose (Z.to_nat (npop self)) pop2, g1))
                           = Ok (p, g')) <->
             (exists a', apply_guess self a = Ok a')).
  { intros a. destruct (apply_guess self a) as [a'|e]; simpl.
    - split; eauto.
    - split; [intros (p & g' & E) | intros (a' & E)]; discriminate. }
  pose proof (scale_rows_defined_iff (tuple_of (bounds self)) rows 0) as Hs.
  destruct (truthy (bounds self)) eqn:Eb.
  - destruct (scale_rows (tuple_of (bounds self)) 0 rows) as [pop1|e] eqn:Es;
      simpl.
    + assert (Hl1 : length pop1 = length rows)
        by (eapply scale_rows_length; eassumption).
      assert (Hr : rows = [] \/ 0 + length rows <= length (tuple_of (bounds self)))
        by (apply Hs; eauto).
      unfold ndarray2, ndarray1 in *.
      destruct pop1 as [|r pop1].
      * simpl in Hl1. destruct (truthy (guess self)).
        -- split; [intros (p & g' & E); discriminate|].
           intros (_ & _ & _ & Hg). destruct (Hg eq_refl) as (_ & Hp & _).
           specialize (Hp eq_refl). lia.
        -- split; [|eauto]. intros _.
           repeat split; try lia; discriminate.
      * rewrite Hout, apply_guess_defined_iff. simpl in Hl1. simpl.
        unfold ndarray2, ndarray1 in *.
        split.
        -- intros Hg. repeat split; try lia.
           ++ intros _. destruct Hr as [->|Hr]; simpl in *; lia.
           ++ destruct (Hg H0) as [Hn _]. lia.
           ++ destruct (Hg H0) as [_ [Hl|Hl]]; [left | right]; lia.
        -- intros (_ & _ & _ & Hg) Ht.
           destruct (Hg Ht) as (Hn & _ & Hl). split; [lia|].
           destruct Hl as [Hl|Hl]; [left | right]; lia.
    + split; [intros (p & g' & E); discriminate|].
      intros (_ & _ & Hb & _). specialize (Hb eq_refl).
      destruct Hs as [_ Hs]. destruct Hs as [rows' Hr]; [|discriminate].
      right. unfold ndarray2, ndarray1 in *. simpl. lia.
  - rewrite Hout, apply_guess_defined_iff.
    unfold ndarray2, ndarray1 in *. split.
    + intros Hg. repeat split; try lia; try discriminate.
      * destruct (Hg H0) as [Hn _]. lia.
      * destruct (Hg H0) as [_ [Hl|Hl]]; [left | right]; lia.
    + intros (_ & _ & _ & Hg) Ht.
      destruct (Hg Ht) as (Hn & _ & Hl). split; [lia|].
      destruct Hl as [Hl|Hl]; [left | right]; lia.
Qed.

(** X10: whenever [population_generator] returns, [nparam] and [npop]
    are not negative, non-empty bounds have at least [nparam] entries,
    and a non-empty guess has [nparam] entries or one entry and comes
    with [npop] at least one and, under non-empty bounds, [nparam] at
    least one.  When one of these fails the call raises. *)
Theorem population_generator_returns_only_if (g : G) (p : ndarray2) (g' : G) :
  population_generator self g = Ok (p, g') ->
  (0 <= nparam self)%Z /\
  (0 <= npop self)%Z /\
  (truthy (bounds self) = true ->
   Z.to_nat (nparam self) <= length (tuple_of (bounds self))) /\
  (truthy (guess self) = true ->
   (0 < npop self)%Z /\
   (truthy (bounds self) = true -> (0 < nparam self)%Z) /\
   (length (tuple_of (guess self)) = Z.to_nat (nparam self) \/
    length (tuple_of (guess self)) = 1)).
Proof.
  intros E. apply (population_generator_embedded_iff g). eauto.
Qed.

(** X11: without bounds and without a guess, every entry of every
    member of the initial population lies in the half-open interval
    from 0 to 1, and building the population consumes
    [nparam * npop] doubles of the generator. *)
Theorem unbounded_population_in_unit_interval (g : G) (p : ndarray2) (g' : G) :
  truthy (bounds self) = false ->
  truthy (guess self) = false ->
  population_generator self g = Ok (p, g') ->
  Forall (Forall (fun x => (0 <=? x)%float = true /\ (x <? 1)%float = true)) p
  /\ g' = skip (Z.to_nat (nparam self) * Z.to_nat (npop self)) g.
Proof.
  intros Hb Hg E. split.
  - destruct (population_generator_shape Data self g p g' E) as [Hl Hf].
    pose proof (population_without_guess Data self g p g' Hg E) as Hv.
    apply Forall_forall. intros r Hr. apply Forall_forall. intros x Hx.
    destruct (In_nth _ _ [] Hr) as (i & Hi & Ei).
    destruct (In_nth _ _ 0%float Hx) as (j & Hj & Ej).
    assert (Hlr : length r = Z.to_nat (nparam self))
      by (rewrite Forall_forall in Hf; apply Hf; assumption).
    assert (Hlp : length p = Z.to_nat (npop self))
      by (destruct Hl as [->|Hl]; [simpl in Hi; lia | assumption]).
    rewrite <- Ej, <- Ei.
    rewrite Hv by (unfold ndarray2, ndarray1 in *; lia).
    unfold placed. rewrite Hb. unfold nth_double. apply rk_double_range.
  - unfold population_generator, np_random_rand2, apply_guess in E.
    rewrite Hb, Hg in E.
    destruct ((nparam self <? 0)%Z || (npop self <? 0)%Z); [discriminate|].
    simpl in E. rewrite rand_rows_spec in E. injection E as _ <-.
    reflexivity.
Qed.

End PopulationDefined.

(** * The crossover rate at its extremes *)

Section CrossoverRate.
Context {G : Type} `{RandomState G}.
Variable Data : Type.
Variable self : DifferentialEvolution Data.

Lemma draw_below_rate (g : G) :
  (1 <=? kcross self)%float = true ->
  (fst (rk_double g) <=? kcross self)%float = true.
Proof.
  intros Hk. apply float_lt_le.
  apply float_lt_le_trans with (y := 1%float); [|assumption].
  apply rk_double_range.
Qed.

Lemma draw_above_rate (g : G) :
  (0 <=? kcross self)%float = false ->
  (fst (rk_double g) <=? kcross self)%float = false.
Proof.
  intros Hk.
  destruct (fst (rk_double g) <=? kcross self)%float eqn:E; [|reflexivity].
  rewrite <- Hk. symmetry.
  apply float_le_trans with (y := fst (rk_double g)); [|assumption].
  apply rk_double_range.
Qed.

(** X12: with [kcross] at least 1, crossover of four-entry vectors
    returns the mutated vector unchanged: no entry of the current
    member survives.  Three doubles are consumed all the same. *)
Theorem crossover_rate_one_keeps_mutant (trial ind : ndarray1) (g : G) :
  (1 <=? kcross self)%float = true ->
  length trial = 4 ->
  length ind = 4 ->
  crossover self trial ind g = Ok (trial, skip 3 g).
Proof.
  intros Hk Ht Hi.
  destruct trial as [|t0 [|t1 [|t2 [|t3 [|? ?]]]]]; try discriminate.
  destruct ind as [|i0 [|i1 [|i2 [|i3 [|? ?]]]]]; try discriminate.
  rewrite crossover_four. cbv zeta.
  rewrite !draw_below_rate by assumption. reflexivity.
Qed.

(** X13: with [kcross] below 0, or not a number, crossover of
    four-entry vectors returns the current member with its last entry
    replaced by the last entry of the mutated vector: the last
    parameter is always taken from the mutant, the other three never. *)
Theorem crossover_rate_negative_keeps_member (trial ind : ndarray1) (g : G) :
  (0 <=? kcross self)%float = false ->
  length trial = 4 ->
  length ind = 4 ->
  crossover self trial ind g
  = Ok (firstn 3 ind ++ [nth 3 trial 0%float], skip 3 g).
Proof.
  intros Hk Ht Hi.
  destruct trial as [|t0 [|t1 [|t2 [|t3 [|? ?]]]]]; try discriminate.
  destruct ind as [|i0 [|i1 [|i2 [|i3 [|? ?]]]]]; try discriminate.
  rewrite crossover_four. cbv zeta.
  rewrite !draw_above_rate by assumption. reflexivity.
Qed.

End CrossoverRate.

(** * The evaluator *)

Lemma sqrt_not_negative (x : float) :
  (PrimFloat.sqrt x <? 0)%float = false.
Proof.
  rewrite FloatAxioms.ltb_spec, FloatAxioms.sqrt_spec.
  change (Prim2SF 0) with (S754_zero false).
  destruct (Prim2SF x) as [s| [|] | | [|] m e]; try reflexivity.
  unfold SF64sqrt, SFsqrt.
  destruct (SFsqrt_core_binary prec emax (Z.pos m) e) as [[mz ez] lz].
  unfold binary_round_aux.
  destruct (shr_fexp prec emax mz ez lz) as [mrs' e'].
  destruct (shr_fexp prec emax _ e' loc_Exact) as [mrs'' e''].
  destruct (shr_m mrs'') as [|q|q]; try reflexivity.
  destruct (e'' <=? emax - prec)%Z; reflexivity.
Qed.

Lemma np_binop_same_length (op : float -> float -> float) (x y : ndarray1) :
  length x = length y ->
  exists z, np_binop op x y = Ok z /\ length z = length x.
Proof.
  intros Hl. unfold np_binop, broadcast_shape.
  rewrite Hl, Nat.eqb_refl. simpl. eexists. split; [reflexivity|].
  rewrite length_map, length_seq. reflexivity.
Qed.

Lemma bind_ext {A B : Type} (c : Result A) (k1 k2 : A -> Result B) :
  (forall a, k1 a = k2 a) -> bind c k1 = bind c k2.
Proof. intros Hk. destruct c; simpl; auto. Qed.

Lemma func_obj_defined (r cor1 cor2 : float) (n yraw stdraw : ndarray1) :
  length n = length yraw -> length stdraw = length yraw ->
  exists e, func_obj r cor1 cor2 n yraw stdraw = Ok e /\
            length e = length yraw.
Proof.
  intros Hn Hs. unfold func_obj, np_sub.
  destruct (np_binop_same_length PrimFloat.sub yraw
              (map (fun v => (1 / (r * (1 / np_square (3 - cor1)
                                        - 1 / np_square (v - cor2))))%float) n))
    as (d & -> & Hd).
  { rewrite length_map. congruence. }
  simpl.
  destruct (np_binop_same_length PrimFloat.div (map np_square d)
              (map np_square stdraw)) as (e & -> & He).
  { rewrite !length_map. congruence. }
  exists e. split; [reflexivity|]. rewrite He, length_map. assumption.
Qed.

Section EvaluatorFacts.
Variable np_sum : ndarray1 -> float.

Lemma compute_error_loop_known (ind : ndarray1) (dc : list series) :
  forall error,
    compute_error_loop np_sum ind dc error
    = compute_error_loop np_sum ind (filter known dc) error.
Proof.
  induction dc as [|d dc IH]; intros error; [reflexivity|].
  cbn [filter]. unfold known.
  destruct (name d =? "principal")%string eqn:E1.
  { cbn [orb compute_error_loop]. rewrite E1.
    repeat (apply bind_ext; intros ?). apply IH. }
  destruct (name d =? "sharp")%string eqn:E2.
  { cbn [orb compute_error_loop]. rewrite E1, E2.
    repeat (apply bind_ext; intros ?). apply IH. }
  destruct (name d =? "diffuse")%string eqn:E3.
  { cbn [orb compute_error_loop]. rewrite E1, E2, E3.
    repeat (apply bind_ext; intros ?). apply IH. }
  destruct (name d =? "balmer")%string eqn:E4.
  { cbn [orb compute_error_loop]. rewrite E1, E2, E3, E4.
    repeat (apply bind_ext; intros ?). apply IH. }
  cbn [orb compute_error_loop]. rewrite E1, E2, E3, E4. apply IH.
Qed.

(** X14: [compute_error] skips every series whose name is not one of
    principal, sharp, diffuse and balmer, spelt exactly so: such a
    series adds nothing to the cost and is never the reason for an
    exception, whatever its arrays hold. *)
Theorem compute_error_skips_unknown_names (ind : ndarray1)
  (data_collection : list series) :
  compute_error np_sum ind data_collection
  = compute_error np_sum ind (filter known data_collection).
Proof.
  unfold compute_error. rewrite compute_error_loop_known. reflexivity.
Qed.

(** X15: a cost that [compute_error] returns is never below zero: it
    is zero, positive, infinite or not a number, whatever the sums of
    the series are. *)
Theorem compute_error_never_negative (ind : ndarray1)
  (data_collection : list series) (c : float) :
  compute_error np_sum ind data_collection = Ok c ->
  (c <? 0)%float = false.
Proof.
  unfold compute_error. intros E. inv_bind E as error Ee.
  injection E as <-. apply sqrt_not_negative.
Qed.

Lemma compute_error_loop_defined (ind : ndarray1) (dc : list series) :
  4 <= length ind ->
  Forall aligned dc ->
  forall error, exists c, compute_error_loop np_sum ind dc error = Ok c.
Proof.
  intros Hi. induction 1 as [|d dc [Hl Hu] _ IH]; intros error; simpl; [eauto|].
  assert (Hrow : forall j, j < 4 -> exists x, getrow ind j = Ok x).
  { intros j Hj. unfold getrow. destruct (nth_error ind j) as [x|] eqn:E;
      [eauto|]. apply nth_error_None in E. lia. }
  destruct (Hrow 0) as [i0 E0]; [lia|].
  destruct (Hrow 1) as [i1 E1]; [lia|].
  destruct (Hrow 2) as [i2 E2]; [lia|].
  destruct (Hrow 3) as [i3 E3]; [lia|].
  rewrite E0, E1, E2, E3. simpl.
  destruct (name d =? "principal")%string.
  { destruct (func_obj_defined i0 i1 i2 _ _ _ Hl Hu) as (e & -> & _).
    simpl. apply IH. }
  destruct (name d =? "sharp")%string.
  { destruct (func_obj_defined i0 i2 i1 _ _ _ Hl Hu) as (e & -> & _).
    simpl. apply IH. }
  destruct (name d =? "diffuse")%string.
  { destruct (func_obj_defined i0 i2 i3 _ _ _ Hl Hu) as (e & -> & _).
    simpl. apply IH. }
  destruct (name d =? "balmer")%string.
  { destruct (func_obj_defined i0 1 0 _ _ _ Hl Hu) as (e & -> & _).
    simpl. apply IH. }
  apply IH.
Qed.

(** X16: [compute_error] returns a cost, and raises nothing, for every
    vector of at least four entries and every collection whose series
    each have a level, a wavelength and an uncertainty array of one
    length: no value of the parameters, a zero uncertainty and a
    vanishing denominator included, is an error. *)
Theorem compute_error_defined (ind : ndarray1) (data_collection : list series) :
  4 <= length ind ->
  Forall aligned data_collection ->
  exists c, compute_error np_sum ind data_collection = Ok c.
Proof.
  intros Hi Hf. unfold compute_error.
  destruct (compute_error_loop_defined ind data_collection Hi Hf 0%float)
    as [e ->].
  simpl. eauto.
Qed.

End EvaluatorFacts.

(** * The statements above, on the notebook's configuration *)

(** Three members, the last two at the target: the index returned is
    that of the first of them. *)
Lemma least_error_idx_first_minimum_witness :
  let self := Notebook.engine Notebook.sq_dist 4 3 1 None None in
  let p := [Notebook.guess; Notebook.target; Notebook.target] in
  least_error_idx self p = Ok (1, 0%float) /\
  (1 < length p /\
   0%float = cost_of self (nth 1 p []) /\
   (forall j, j < length p ->
              (0 <=? cost_of self (nth j p []))%float = true) /\
   (forall j, j < 1 -> (0 <? cost_of self (nth j p []))%float = true)).
Proof.
  cbv zeta. split; [vm_compute; reflexivity|].
  apply (least_error_idx_first_minimum _
           (Notebook.engine Notebook.sq_dist 4 3 1 None None)
           [Notebook.guess; Notebook.target; Notebook.target] 1 0%float).
  - reflexivity.
  - repeat constructor.
  - vm_compute. reflexivity.
Defined.

(** Five members and three generations. *)
Lemma selection_never_raises_a_cost_witness :
  let self := Notebook.engine Notebook.sq_dist 4 5 3
                (Some Notebook.bounds) None in
  exists s0 o,
    diff_evolution_solver self Notebook.globals Notebook.tape = Ok (s0, o) /\
    (length (pop (final o)) = length (pop s0) /\
     forall k, not_above (cost_of self (nth k (pop s0) []))
                         (cost_of self (nth k (pop (final o)) []))).
Proof.
  cbv zeta.
  destruct (diff_evolution_solver
              (Notebook.engine Notebook.sq_dist 4 5 3
                 (Some Notebook.bounds) None)
              Notebook.globals Notebook.tape) as [[s0 o]|e] eqn:Er;
    [|vm_compute in Er; discriminate].
  exists s0, o. split; [reflexivity|].
  exact (selection_never_raises_a_cost _ _ Notebook.globals
           Notebook.tape s0 o Er).
Defined.

(** The same run with the guarded evaluator, which is a number on
    every vector. *)
Lemma best_fit_is_cheapest_member_witness :
  let self := Notebook.engine NotebookData.guarded 4 5 3
                (Some Notebook.bounds) None in
  (forall v, is_nan (cost_of self v) = false) /\
  exists s0 o,
    diff_evolution_solver self Notebook.globals Notebook.tape = Ok (s0, o) /\
    ((exists j, j < length (pop (final o)) /\
                nth j (pop (final o)) [] = best_vector (final o)) /\
     cost_of self (best_vector (final o)) = lst_err (final o) /\
     forall j, j < length (pop (final o)) ->
               (cost_of self (best_vector (final o))
                <=? cost_of self (nth j (pop (final o)) []))%float = true).
Proof.
  cbv zeta.
  assert (Hc : forall v,
             is_nan (cost_of (Notebook.engine NotebookData.guarded 4 5 3
                                (Some Notebook.bounds) None) v) = false).
  { intros v. unfold cost_of, NotebookData.guarded. simpl.
    destruct (is_nan (Notebook.sq_dist v Notebook.target)) eqn:E;
      [reflexivity | exact E]. }
  split; [exact Hc|].
  destruct (diff_evolution_solver
              (Notebook.engine NotebookData.guarded 4 5 3
                 (Some Notebook.bounds) None)
              Notebook.globals Notebook.tape) as [[s0 o]|e] eqn:Er;
    [|vm_compute in Er; discriminate].
  exists s0, o. split; [reflexivity|].
  exact (best_fit_is_cheapest_member _ _ Notebook.globals Hc
           Notebook.tape s0 o Er).
Defined.

Lemma result_is_final_best_witness :
  let self := Notebook.engine Notebook.sq_dist 4 5 3
                (Some Notebook.bounds) None in
  exists v,
    result self Notebook.globals Notebook.tape = Ok v /\
    exists s0 s,
      diff_evolution_solver self Notebook.globals Notebook.tape
      = Ok (s0, Completed s) /\
      v = best_vector s /\
      (exists j, j < length (pop s) /\ nth j (pop s) [] = v) /\
      cost_of self v = lst_err s /\
      (cost_of self v <? lst_err s0)%float = true.
Proof.
  cbv zeta.
  destruct (result
              (Notebook.engine Notebook.sq_dist 4 5 3
                 (Some Notebook.bounds) None)
              Notebook.globals Notebook.tape) as [v|e] eqn:Er;
    [|vm_compute in Er; discriminate].
  exists v. split; [reflexivity|].
  exact (result_is_final_best _ _ Notebook.globals Notebook.tape v Er).
Defined.

Lemma run_length_witness :
  let self := Notebook.engine Notebook.sq_dist 4 5 3
                (Some Notebook.bounds) None in
  exists s0 o,
    diff_evolution_solver self Notebook.globals Notebook.tape = Ok (s0, o) /\
    (length (pop s0) = Z.to_nat (npop self) /\
     length (trace (final o)) <= Z.to_nat (niter self) * Z.to_nat (npop self) /\
     length (emitted (final o)) <= length (trace (final o)) /\
     (forall s, o = Completed s ->
                length (trace s)
                = Z.to_nat (niter self) * Z.to_nat (npop self))).
Proof.
  cbv zeta.
  destruct (diff_evolution_solver
              (Notebook.engine Notebook.sq_dist 4 5 3
                 (Some Notebook.bounds) None)
              Notebook.globals Notebook.tape) as [[s0 o]|e] eqn:Er;
    [|vm_compute in Er; discriminate].
  exists s0, o. split; [reflexivity|].
  exact (run_length _ _ Notebook.globals Notebook.tape s0 o Er).
Defined.

(** With the rooted evaluator the first member of the initial
    population has a cost that is not a number. *)
Lemma nan_cost_silences_the_stream_witness :
  let self := Notebook.engine NotebookData.rooted 4 5 3
                (Some Notebook.bounds) None in
  exists s0,
    solver_setup self Notebook.tape = Ok s0 /\
    Exists (fun row => is_nan (cost_of self row) = true) (pop s0) /\
    (is_nan (lst_err s0) = true /\
     forall gl,
       emitted (final (generations self gl (Z.to_nat (niter self)) s0)) = [] /\
       exists e, result self gl Notebook.tape = Raise e).
Proof.
  cbv zeta.
  destruct (solver_setup
              (Notebook.engine NotebookData.rooted 4 5 3
                 (Some Notebook.bounds) None)
              Notebook.tape) as [s0|e] eqn:Er;
    [|vm_compute in Er; discriminate].
  assert (Hx : Exists
                 (fun row =>
                    is_nan (cost_of (Notebook.engine NotebookData.rooted 4 5 3
                                       (Some Notebook.bounds) None) row) = true)
                 (pop s0)).
  { vm_compute in Er. injection Er as <-. apply Exists_cons_hd.
    vm_compute. reflexivity. }
  exists s0. split; [reflexivity|]. split; [exact Hx|].
  exact (nan_cost_silences_the_stream _ _ Notebook.tape s0 Er Hx).
Defined.

Lemma completed_run_requirements_witness :
  let self := Notebook.engine Notebook.sq_dist 4 5 3
                (Some Notebook.bounds) None in
  exists s0 s,
    diff_evolution_solver self Notebook.globals Notebook.tape
    = Ok (s0, Completed s) /\
    (1 <= niter self)%Z /\
    ((exists k, g_kmut Notebook.globals = Some k) /\
     (exists bs, g_bounds Notebook.globals = Some bs /\ 4 <= length bs) /\
     (2 <= npop self)%Z /\
     (nparam self = 4 \/ nparam self = 1)%Z).
Proof.
  cbv zeta.
  destruct (diff_evolution_solver
              (Notebook.engine Notebook.sq_dist 4 5 3
                 (Some Notebook.bounds) None)
              Notebook.globals Notebook.tape) as [[s0 [s|e s]]|e] eqn:Er;
    try (vm_compute in Er; discriminate).
  assert (Hn : (1 <= niter (Notebook.engine Notebook.sq_dist 4 5 3
                              (Some Notebook.bounds) None))%Z)
    by (simpl; lia).
  exists s0, s. split; [reflexivity|]. split; [exact Hn|].
  exact (completed_run_requirements _ _ Notebook.globals Notebook.tape
           s0 s Er Hn).
Defined.

Lemma result_requirements_witness :
  let self := Notebook.engine Notebook.sq_dist 4 5 3
                (Some Notebook.bounds) None in
  exists v,
    result self Notebook.globals Notebook.tape = Ok v /\
    (nparam self = 4%Z /\
     length v = 4 /\
     (2 <= npop self)%Z /\
     (1 <= niter self)%Z /\
     (exists k, g_kmut Notebook.globals = Some k) /\
     (exists bs, g_bounds Notebook.globals = Some bs /\ 4 <= length bs)).
Proof.
  cbv zeta.
  destruct (result
              (Notebook.engine Notebook.sq_dist 4 5 3
                 (Some Notebook.bounds) None)
              Notebook.globals Notebook.tape) as [v|e] eqn:Er;
    [|vm_compute in Er; discriminate].
  exists v. split; [reflexivity|].
  exact (result_requirements _ _ Notebook.globals Notebook.tape v Er).
Defined.

(** The notebook's bounds and guess, five members. *)
Lemma population_generator_returns_only_if_witness :
  let self := Notebook.engine Notebook.sq_dist 4 5 3
                (Some Notebook.bounds) (Some Notebook.guess) in
  exists p g',
    population_generator self Notebook.tape = Ok (p, g') /\
    ((0 <= nparam self)%Z /\
     (0 <= npop self)%Z /\
     (truthy (bounds self) = true ->
      Z.to_nat (nparam self) <= length (tuple_of (bounds self))) /\
     (truthy (guess self) = true ->
      (0 < npop self)%Z /\
      (truthy (bounds self) = true -> (0 < nparam self)%Z) /\
      (length (tuple_of (guess self)) = Z.to_nat (nparam self) \/
       length (tuple_of (guess self)) = 1))).
Proof.
  cbv zeta.
  destruct (population_generator
              (Notebook.engine Notebook.sq_dist 4 5 3
                 (Some Notebook.bounds) (Some Notebook.guess))
              Notebook.tape) as [[p g']|e] eqn:Er;
    [|vm_compute in Er; discriminate].
  exists p, g'. split; [reflexivity|].
  exact (population_generator_returns_only_if _
           (Notebook.engine Notebook.sq_dist 4 5 3
              (Some Notebook.bounds) (Some Notebook.guess))
           Notebook.tape p g' Er).
Defined.

Lemma unbounded_population_in_unit_interval_witness :
  let self := Notebook.engine Notebook.sq_dist 4 5 3 None None in
  exists p g',
    population_generator self Notebook.tape = Ok (p, g') /\
    (Forall (Forall (fun x => (0 <=? x)%float = true /\ (x <? 1)%float = true))
       p /\
     g' = skip (Z.to_nat (nparam self) * Z.to_nat (npop self)) Notebook.tape).
Proof.
  cbv zeta.
  destruct (population_generator
              (Notebook.engine Notebook.sq_dist 4 5 3 None None)
              Notebook.tape) as [[p g']|e] eqn:Er;
    [|vm_compute in Er; discriminate].
  exists p, g'. split; [reflexivity|].
  exact (unbounded_population_in_unit_interval _
           (Notebook.engine Notebook.sq_dist 4 5 3 None None)
           Notebook.tape p g' eq_refl eq_refl Er).
Defined.

Lemma crossover_rate_one_keeps_mutant_witness :
  let self := mkDE Notebook.sq_dist 0.2%float 1%float 4 5 3 Notebook.target
                (Some Notebook.bounds) None in
  crossover self Notebook.target Notebook.guess Notebook.tape
  = Ok (Notebook.target, skip 3 Notebook.tape).
Proof.
  cbv zeta.
  apply (crossover_rate_one_keeps_mutant _
           (mkDE Notebook.sq_dist 0.2%float 1%float 4 5 3 Notebook.target
              (Some Notebook.bounds) None)
           Notebook.target Notebook.guess Notebook.tape);
    reflexivity.
Defined.

Lemma crossover_rate_negative_keeps_member_witness :
  let self := mkDE Notebook.sq_dist 0.2%float (-0.5)%float 4 5 3
                Notebook.target (Some Notebook.bounds) None in
  crossover self Notebook.target Notebook.guess Notebook.tape
  = Ok (firstn 3 Notebook.guess ++ [nth 3 Notebook.target 0%float],
        skip 3 Notebook.tape).
Proof.
  cbv zeta.
  apply (crossover_rate_negative_keeps_member _
           (mkDE Notebook.sq_dist 0.2%float (-0.5)%float 4 5 3
              Notebook.target (Some Notebook.bounds) None)
           Notebook.target Notebook.guess Notebook.tape);
    reflexivity.
Defined.

(** The notebook's data and guess, summed from left to right. *)
Lemma compute_error_never_negative_witness :
  exists c,
    compute_error NotebookData.left_sum Notebook.guess
      NotebookData.data_collection = Ok c /\
    (c <? 0)%float = false.
Proof.
  destruct (compute_error NotebookData.left_sum Notebook.guess
              NotebookData.data_collection) as [c|e] eqn:Er;
    [|vm_compute in Er; discriminate].
  exists c. split; [reflexivity|].
  exact (compute_error_never_negative NotebookData.left_sum Notebook.guess
           NotebookData.data_collection c Er).
Defined.

Lemma compute_error_defined_witness :
  4 <= length Notebook.guess /\
  Forall aligned NotebookData.data_collection /\
  exists c,
    compute_error NotebookData.left_sum Notebook.guess
      NotebookData.data_collection = Ok c.
Proof.
  assert (Hi : 4 <= length Notebook.guess) by (simpl; lia).
  assert (Hf : Forall aligned NotebookData.data_collection)
    by (repeat constructor).
  split; [exact Hi|]. split; [exact Hf|].
  exact (compute_error_defined NotebookData.left_sum Notebook.guess
           NotebookData.data_collection Hi Hf).
Defined.
